(** * Aurora Code: the codec of the visual data channel

    A shallow embedding of the TypeScript sources of the codec
    (lib/encoding/galoisField.ts, reedSolomon.ts, frameEncoder.ts,
    lib/visual/bandEncoder.ts, lib/detection/detector.ts and decoder.ts)
    together with the properties the specification states about them
    and further properties read off the code.

    Conventions of the embedding.
    - A JavaScript number that holds an integer is a [Z].  The bit
      operators work on 32-bit integers: [toInt32] is written out.
    - A [Uint8Array] is a [list Z]; a store wraps modulo 256 ([u8]) and a
      store outside the array is dropped, as typed arrays do.
    - A function that can throw returns a [result].
    - A string is the list of its Unicode code points. *)

From Stdlib Require Import ZArith List Lia Bool String.
From Stdlib Require PrimFloat Uint63.
From stdpp Require Import base option list gmap sorting.

Local Open Scope Z_scope.

(** ** JavaScript integers and typed arrays *)

Definition toInt32 (x : Z) : Z :=
  (x + 0x80000000) mod 0x100000000 - 0x80000000.

Definition js_and (a b : Z) : Z := Z.land (toInt32 a) (toInt32 b).
Definition js_or (a b : Z) : Z := Z.lor (toInt32 a) (toInt32 b).
Definition js_xor (a b : Z) : Z := Z.lxor (toInt32 a) (toInt32 b).
Definition js_shl (a k : Z) : Z := toInt32 (Z.shiftl (toInt32 a) (k mod 32)).
Definition js_shr (a k : Z) : Z := Z.shiftr (toInt32 a) (k mod 32).

(** The value a [Uint8Array] keeps when [x] is stored in it. *)
Definition u8 (x : Z) : Z := x mod 256.

(** [arr[i] = v] on a typed array. *)
Definition store (arr : list Z) (i v : Z) : list Z :=
  if 0 <=? i then <[Z.to_nat i := u8 v]> arr else arr.

(** [arr[i]] on a typed array.  Outside the array JavaScript gives
    [undefined].  Where the sources can read outside an array (a data chunk
    shorter than 10 bytes, a data length beyond the codeword, a short list
    of band indices) the value is then stored into a [Uint8Array], masked
    with [&] or guarded by [|| 0] or [?? 0], all of which turn it into 0;
    the tables of the field are read inside their bounds as long as the
    field operations are given bytes. *)
Definition get (arr : list Z) (i : Z) : Z :=
  if 0 <=? i then default 0 (arr !! Z.to_nat i) else 0.

(** [new Uint8Array(n)] *)
Definition newU8 (n : nat) : list Z := repeat 0 n.

(** [for (let i = 0; i < n; i++) body], threading the state [s]. *)
Definition for_up {S : Type} (n : nat) (body : Z -> S -> S) (s : S) : S :=
  fold_left (fun acc i => body (Z.of_nat i) acc) (seq 0 n) s.

(** [for (let i = n - 1; i >= 0; i--) body]. *)
Definition for_down {S : Type} (n : nat) (body : Z -> S -> S) (s : S) : S :=
  fold_left (fun acc i => body (Z.of_nat i) acc) (rev (seq 0 n)) s.

(** Exceptions. *)
Inductive result (A : Type) : Type :=
| Ok (a : A)
| Throw (msg : string).
Arguments Ok {A} a.
Arguments Throw {A} msg.

Definition bind {A B : Type} (r : result A) (k : A -> result B) : result B :=
  match r with
  | Ok a => k a
  | Throw m => Throw m
  end.

Notation "'let*' x ':=' r 'in' k" := (bind r (fun x => k))
  (at level 10, x name, r at level 100, k at level 200).

(** [for (let i = 0; i < n; i++) body] when the body can throw. *)
Definition for_up_r {S : Type} (n : nat) (body : Z -> S -> result S) (s : S)
  : result S :=
  fold_left (fun acc i => let* a := acc in body (Z.of_nat i) a) (seq 0 n) (Ok s).

(** ** GF(2^8): galoisField.ts *)

Definition GF_SIZE : Z := 256.
Definition PRIMITIVE_POLYNOMIAL : Z := 0x11d.

Definition initTables_step (i : Z) (st : Z * (list Z * list Z))
  : Z * (list Z * list Z) :=
  let '(x, (gfExp, gfLog)) := st in
  let gfExp := store gfExp i x in
  let gfExp := store gfExp (i + 255) x in
  let gfLog := store gfLog x i in
  let x := js_shl x 1 in
  let x := if x >=? GF_SIZE then js_xor x PRIMITIVE_POLYNOMIAL else x in
  (x, (gfExp, gfLog)).

Definition initTables : list Z * list Z :=
  let '(_, (gfExp, gfLog)) := for_up 255 initTables_step (1, (newU8 512, newU8 256)) in
  (gfExp, store gfLog 0 0).

Definition gfExp : list Z := Eval vm_compute in fst initTables.
Definition gfLog : list Z := Eval vm_compute in snd initTables.

Definition gfAdd (a b : Z) : Z := js_xor a b.
Definition gfSub (a b : Z) : Z := js_xor a b.

Definition gfMul (a b : Z) : Z :=
  if (a =? 0) || (b =? 0) then 0
  else get gfExp (get gfLog a + get gfLog b).

Definition gfDiv (a b : Z) : result Z :=
  if b =? 0 then Throw "Division by zero in GF(2^8)"
  else if a =? 0 then Ok 0
  else Ok (get gfExp (get gfLog a + 255 - get gfLog b)).

(** The product [gfLog[a] * n] is a product of doubles in the source: it
    is the integer product as long as that stays below 2^53, which holds
    for the exponents [rsEncode] and [rsDecode] pass (array positions). *)
Definition gfPow (a n : Z) : Z :=
  if n =? 0 then 1
  else if a =? 0 then 0
  else get gfExp (Z.rem (get gfLog a * n) 255).

Definition gfInverse (a : Z) : result Z :=
  if a =? 0 then Throw "Zero has no inverse in GF(2^8)"
  else Ok (get gfExp (255 - get gfLog a)).

(** Polynomials: coefficient 0 is the lowest degree.  The callers of
    [polyMul] give it non-empty polynomials. *)
Definition polyMul (p q : list Z) : list Z :=
  for_up (length p) (fun i result =>
    for_up (length q) (fun j result =>
      store result (i + j) (gfAdd (get result (i + j)) (gfMul (get p i) (get q j))))
      result)
    (newU8 (length p + length q - 1)).

Definition polyScale (p : list Z) (scalar : Z) : list Z :=
  for_up (length p) (fun i result => store result i (gfMul (get p i) scalar))
    (newU8 (length p)).

Definition polyAdd (p q : list Z) : list Z :=
  let result := newU8 (Nat.max (length p) (length q)) in
  let result := for_up (length p) (fun i result =>
                  store result i (gfAdd (get result i) (get p i))) result in
  for_up (length q) (fun i result =>
    store result i (gfAdd (get result i) (get q i))) result.

Definition polyEval (p : list Z) (x : Z) : Z :=
  for_down (length p) (fun i result => gfAdd (gfMul result x) (get p i)) 0.

Definition generatorPoly (nsym : nat) : list Z :=
  for_up nsym (fun i g => polyMul g [get gfExp i; 1]) [1].


(** ** Reed-Solomon: reedSolomon.ts *)

(** [dst.set(src)] for typed arrays, with [src] no longer than [dst]. *)
Definition typed_set (dst src : list Z) : list Z :=
  src ++ drop (length src) dst.

Definition rsEncode (data : list Z) (parityCount : nat) : list Z :=
  let n := (length data + parityCount)%nat in
  let encoded := typed_set (newU8 n) data in
  let generator := generatorPoly parityCount in
  let msgPoly :=
    for_up (length data) (fun i msgPoly =>
      store msgPoly (Z.of_nat parityCount + i) (get data i)) (newU8 n) in
  let msgPoly :=
    for_down (length data) (fun i msgPoly =>
      let coef := get msgPoly (Z.of_nat parityCount + i) in
      if coef =? 0 then msgPoly
      else for_up (length generator) (fun j msgPoly =>
             store msgPoly (i + j)
               (gfAdd (get msgPoly (i + j)) (gfMul (get generator j) coef)))
             msgPoly)
      msgPoly in
  for_up parityCount (fun i encoded =>
    store encoded (Z.of_nat (length data) + i) (get msgPoly i)) encoded.

Definition calcSyndromes (received : list Z) (parityCount : Z) : list Z :=
  for_up (Z.to_nat parityCount) (fun i syndromes =>
    store syndromes i (polyEval received (gfPow 2 i)))
    (newU8 (Z.to_nat parityCount)).

Definition calcErasureLocator (erasurePositions : list Z) : list Z :=
  fold_left (fun locator pos => polyMul locator [gfPow 2 pos; 1])
    erasurePositions [1].

Definition calcErasureValues (syndromes erasurePositions erasureLocator : list Z)
  : result (list Z) :=
  let n := length erasurePositions in
  if (n =? 0)%nat then Ok []
  else
    let omega :=
      for_up n (fun i omega =>
        let sum :=
          for_up (Z.to_nat (i + 1)) (fun j sum =>
            gfAdd sum (gfMul (get syndromes j) (get erasureLocator (i - j)))) 0 in
        store omega i sum) (newU8 n) in
    for_up_r n (fun i values =>
      let xi := gfPow 2 (get erasurePositions i) in
      let* xiInv := gfInverse xi in
      let omegaVal :=
        for_up n (fun j omegaVal =>
          gfAdd omegaVal (gfMul (get omega j) (gfPow xiInv j))) 0 in
      (* for (let j = 1; j < erasureLocator.length; j += 2) *)
      let locatorDerivVal :=
        for_up (length erasureLocator / 2) (fun t locatorDerivVal =>
          let j := 2 * t + 1 in
          gfAdd locatorDerivVal
            (gfMul (get erasureLocator j) (gfPow xiInv (j - 1)))) 0 in
      let* q := gfDiv omegaVal locatorDerivVal in
      Ok (store values i (gfMul xi q))) (newU8 n).

(** The last loop of [rsDecode]: the first [dataLength] symbols, back in
    sequence order.  [new Uint8Array(dataLength)] throws a RangeError on a
    negative length. *)
Definition rsExtract (received : list Z) (dataLength : Z) : result (list Z) :=
  if dataLength <? 0 then Throw "RangeError: Invalid typed array length"
  else
    let n := Z.of_nat (length received) in
    Ok (for_up (Z.to_nat dataLength) (fun i result =>
          store result i (get received (n - 1 - i)))
          (newU8 (Z.to_nat dataLength))).

(** [data[i]] is [None] for [null] (an erasure) and [Some v] for a number. *)
Definition rsDecode (data : list (option Z)) (dataLength parityCount : Z)
  : result (option (list Z)) :=
  let n := length data in
  let erasurePositions :=
    for_up n (fun i erasurePositions =>
      match data !! Z.to_nat i with
      | Some None => erasurePositions ++ [Z.of_nat n - 1 - i]
      | _ => erasurePositions
      end) [] in
  if Z.of_nat (length erasurePositions) >? parityCount then Ok None
  else
    let received :=
      for_up n (fun i received =>
        store received i
          (match data !! Z.to_nat (Z.of_nat n - 1 - i) with
           | Some (Some v) => v
           | _ => 0
           end)) (newU8 n) in
    if (length erasurePositions =? 0)%nat then
      let* result := rsExtract received dataLength in Ok (Some result)
    else
      let syndromes := calcSyndromes received parityCount in
      let allZero := forallb (fun s => s =? 0) syndromes in
      if allZero then
        let* result := rsExtract received dataLength in Ok (Some result)
      else
        let erasureLocator := calcErasureLocator erasurePositions in
        let* erasureValues :=
          calcErasureValues syndromes erasurePositions erasureLocator in
        let received :=
          for_up (length erasurePositions) (fun i received =>
            let pos := get erasurePositions i in
            store received pos (gfAdd (get received pos) (get erasureValues i)))
            received in
        let* result := rsExtract received dataLength in Ok (Some result).

(** [decodeFrames]: the frame-wise decoder.  [frames] holds a byte array
    or [null] per frame. *)

(** [frames.find((f) => f !== null)] *)
Fixpoint firstFrame (frames : list (option (list Z))) : option (list Z) :=
  match frames with
  | [] => None
  | Some f :: _ => Some f
  | None :: rest => firstFrame rest
  end.

(** The column collected for byte [byteIdx].  [frames[frameIdx]] beyond the
    end of [frames] is [undefined], which is not [null], and reading its
    [length] throws a TypeError. *)
Definition byteColumnOf (frames : list (option (list Z))) (totalFrames byteIdx : Z)
  : result (list (option Z)) :=
  for_up_r (Z.to_nat totalFrames) (fun frameIdx byteColumn =>
    match frames !! Z.to_nat frameIdx with
    | None => Throw "TypeError: Cannot read properties of undefined (reading 'length')"
    | Some None => Ok (byteColumn ++ [None])
    | Some (Some frame) =>
        if Z.of_nat (length frame) <=? byteIdx then Ok (byteColumn ++ [None])
        else Ok (byteColumn ++ [Some (get frame byteIdx)])
    end) [].

(** [if (!result[frameIdx]) result[frameIdx] = new Uint8Array(frameSize)]
    followed by [result[frameIdx][byteIdx] = decoded[frameIdx]].  The loop
    visits the rows in order, so a row that is missing is the next one. *)
Definition distribute (frameSize : nat) (byteIdx : Z) (decoded : list Z)
    (dataFrameCount : Z) (result : list (list Z)) : list (list Z) :=
  for_up (Z.to_nat dataFrameCount) (fun frameIdx result =>
    let result :=
      match result !! Z.to_nat frameIdx with
      | Some _ => result
      | None => result ++ [newU8 frameSize]
      end in
    alter (fun row => store row byteIdx (get decoded frameIdx))
          (Z.to_nat frameIdx) result) result.

(** The state of the byte loop is [None] once [return null] has run. *)
Definition decodeFrames (frames : list (option (list Z)))
    (dataFrameCount parityFrameCount : Z) : result (option (list (list Z))) :=
  let totalFrames := dataFrameCount + parityFrameCount in
  let early :=
    match frames with
    | [] | None :: _ =>
        let frameSize := match firstFrame frames with
                         | Some frame => length frame
                         | None => 0%nat
                         end in
        (frameSize =? 0)%nat
    | Some _ :: _ => false
    end in
  if early then Ok None
  else
    let frameSize := match firstFrame frames with
                     | Some frame => length frame
                     | None => 0%nat
                     end in
    if (frameSize =? 0)%nat then Ok None
    else
      for_up_r frameSize (fun byteIdx acc =>
        match acc with
        | None => Ok None
        | Some result =>
            let* byteColumn := byteColumnOf frames totalFrames byteIdx in
            let* decoded := rsDecode byteColumn dataFrameCount parityFrameCount in
            match decoded with
            | None => Ok None
            | Some decoded =>
                Ok (Some (distribute frameSize byteIdx decoded dataFrameCount result))
            end
        end) (Some []).

(** ** CRC-8 *)

(** Modelled from the spec: lib/encoding/crc8.ts is not among the sources.
    CRC-8-CCITT with polynomial 0x07, initial value 0x00, no reflection and
    no final XOR, computed by inline shifts. *)
Definition crc8_byte (crc byte : Z) : Z :=
  for_up 8 (fun _ crc =>
    if js_and crc 0x80 =? 0 then js_and (js_shl crc 1) 0xff
    else js_and (js_xor (js_shl crc 1) 0x07) 0xff)
    (js_xor crc byte).

Definition crc8 (data : list Z) : Z := fold_left crc8_byte data 0.

(** ** Frames and packets: frameEncoder.ts *)

Definition FRAME_HEADER_SIZE : nat := 4.
Definition FRAME_DATA_SIZE : nat := 10.
Definition FRAME_CHECKSUM_SIZE : nat := 1.
Definition FRAME_PADDING_SIZE : nat := 1.
Definition FRAME_TOTAL_SIZE : nat := 16.
Definition RS_MIN_PARITY_FRAMES : nat := 4.

Record AuroraFrame : Type := mkFrame {
  frameIndex : Z;
  totalFrames : Z;
  sequenceId : Z;
  dataChunk : list Z;
  checksum : Z
}.

Module Packet.
Record EncodedPacket : Type := mk {
  sequenceId : Z;
  totalFrames : Z;
  dataFrames : Z;
  parityFrames : Z;
  frames : list AuroraFrame;
  originalDataLength : Z
}.
End Packet.

Definition serializeFrame (frame : AuroraFrame) : list Z :=
  let result := newU8 FRAME_TOTAL_SIZE in
  let result := store result 0 (js_and (frameIndex frame) 0xff) in
  let result := store result 1 (js_and (totalFrames frame) 0xff) in
  let result := store result 2 (js_and (js_shr (sequenceId frame) 8) 0xff) in
  let result := store result 3 (js_and (sequenceId frame) 0xff) in
  let result :=
    for_up FRAME_DATA_SIZE (fun i result =>
      store result (4 + i) (get (dataChunk frame) i)) result in
  let result := store result 14 (js_and (checksum frame) 0xff) in
  store result 15 0.

(** [data] is a 16-byte array at both call sites. *)
Definition deserializeFrame (data : list Z) : AuroraFrame :=
  let dataChunk :=
    for_up FRAME_DATA_SIZE (fun i dataChunk =>
      store dataChunk i (get data (4 + i))) (newU8 FRAME_DATA_SIZE) in
  {| frameIndex := get data 0;
     totalFrames := get data 1;
     sequenceId := js_or (js_shl (get data 2) 8) (get data 3);
     dataChunk := dataChunk;
     checksum := get data 14 |}.

Definition verifyFrameChecksum (frame : AuroraFrame) : bool :=
  crc8 (dataChunk frame) =? checksum frame.

(** ** Text: the platform's TextEncoder and TextDecoder

    A well-formed string is a list of Unicode scalar values.  A code point
    in the surrogate range stands for a lone surrogate of the UTF-16
    string, which [TextEncoder] replaces by U+FFFD. *)

Definition is_surrogate (c : Z) : bool := (0xD800 <=? c) && (c <=? 0xDFFF).

Definition scalar_value (c : Z) : Prop :=
  0 <= c < 0x110000 /\ is_surrogate c = false.

Definition utf8_encode_cp (c : Z) : list Z :=
  let c := if is_surrogate c then 0xFFFD else c in
  if c <? 0x80 then [c]
  else if c <? 0x800 then [0xC0 + c / 64; 0x80 + c mod 64]
  else if c <? 0x10000 then
    [0xE0 + c / 4096; 0x80 + (c / 64) mod 64; 0x80 + c mod 64]
  else
    [0xF0 + c / 262144; 0x80 + (c / 4096) mod 64; 0x80 + (c / 64) mod 64;
     0x80 + c mod 64].

(** [new TextEncoder().encode(s)] *)
Definition TextEncoder_encode (s : list Z) : list Z :=
  flat_map utf8_encode_cp s.

(** What a byte does to the decoder of the Encoding Standard when no
    sequence is open. *)
Inductive lead : Type :=
| LeadEmit (c : Z)
| LeadOpen (c : Z) (needed : nat) (lower upper : Z)
| LeadError.

Definition utf8_lead (b : Z) : lead :=
  if (0 <=? b) && (b <=? 0x7F) then LeadEmit b
  else if (0xC2 <=? b) && (b <=? 0xDF) then LeadOpen (b - 0xC0) 1 0x80 0xBF
  else if (0xE0 <=? b) && (b <=? 0xEF) then
    LeadOpen (b - 0xE0) 2 (if b =? 0xE0 then 0xA0 else 0x80)
      (if b =? 0xED then 0x9F else 0xBF)
  else if (0xF0 <=? b) && (b <=? 0xF4) then
    LeadOpen (b - 0xF0) 3 (if b =? 0xF0 then 0x90 else 0x80)
      (if b =? 0xF4 then 0x8F else 0xBF)
  else LeadError.

(** The UTF-8 decoder with replacement: [c] is the code point being
    assembled, [needed] the number of continuation bytes still expected,
    [lower] and [upper] the bounds for the next one.  A byte that cannot
    continue the open sequence yields U+FFFD and is then read again as
    the start of a sequence. *)
Fixpoint utf8_decode (bytes : list Z) (c : Z) (needed : nat) (lower upper : Z)
  : list Z :=
  match bytes with
  | [] => match needed with O => [] | S _ => [0xFFFD] end
  | b :: rest =>
      let start :=
        match utf8_lead b with
        | LeadEmit c' => c' :: utf8_decode rest 0 0 0x80 0xBF
        | LeadOpen c' n lo hi => utf8_decode rest c' n lo hi
        | LeadError => 0xFFFD :: utf8_decode rest 0 0 0x80 0xBF
        end in
      match needed with
      | O => start
      | S n =>
          if (lower <=? b) && (b <=? upper) then
            let c' := c * 64 + (b - 0x80) in
            match n with
            | O => c' :: utf8_decode rest 0 0 0x80 0xBF
            | S _ => utf8_decode rest c' n 0x80 0xBF
            end
          else 0xFFFD :: start
      end
  end.

(** [new TextDecoder().decode(bytes)]: UTF-8, not fatal, and a leading
    byte order mark is dropped. *)
Definition TextDecoder_decode (bytes : list Z) : list Z :=
  match bytes with
  | b0 :: b1 :: b2 :: rest =>
      if (b0 =? 0xEF) && (b1 =? 0xBB) && (b2 =? 0xBF)
      then utf8_decode rest 0 0 0x80 0xBF
      else utf8_decode bytes 0 0 0x80 0xBF
  | _ => utf8_decode bytes 0 0 0x80 0xBF
  end.

(** [text.indexOf('\0')] followed by [text.substring(0, nullIndex)]. *)
Fixpoint trim_at_nul (text : list Z) : list Z :=
  match text with
  | [] => []
  | c :: rest => if c =? 0 then [] else c :: trim_at_nul rest
  end.

(** ** The packet encoder: frameEncoder.ts

    [drawn] is the value [generateSequenceId] returns, a random integer in
    0..65535.  [Math.ceil(L / 10)] and [Math.ceil(D * (1 - 0.8) / 0.8)] are
    computed on doubles.  For the lengths a typed array can have they are
    the exact ceilings of L/10 and of D/4: L/10 is exact when 10 divides L
    and otherwise at least 1/10 away from an integer; the double
    [D * (1 - 0.8) / 0.8] is never above D/4 and below it by a relative
    error of at most 5 * 2^-53, so it does not reach the integer under D/4
    and, when 4 divides D, its ceiling is D/4. *)
Definition ceil_div (a b : Z) : Z := (a + b - 1) / b.

Definition encodeData (input : list Z) (drawn : Z) : Packet.EncodedPacket :=
  let rawBytes := TextEncoder_encode input in
  let originalDataLength := length rawBytes in
  let dataFramesNeeded := Z.to_nat (ceil_div (Z.of_nat (length rawBytes)) 10) in
  let parityFrames :=
    Nat.max RS_MIN_PARITY_FRAMES
      (Z.to_nat (ceil_div (Z.of_nat dataFramesNeeded) 4)) in
  let totalFrames := (dataFramesNeeded + parityFrames)%nat in
  let paddedLength := (dataFramesNeeded * FRAME_DATA_SIZE)%nat in
  let paddedData := typed_set (newU8 paddedLength) rawBytes in
  let encodedColumns :=
    for_up FRAME_DATA_SIZE (fun bytePos encodedColumns =>
      let column :=
        for_up dataFramesNeeded (fun frameIdx column =>
          store column frameIdx
            (get paddedData (frameIdx * Z.of_nat FRAME_DATA_SIZE + bytePos)))
          (newU8 dataFramesNeeded) in
      encodedColumns ++ [rsEncode column parityFrames]) [] in
  let sequenceId := drawn in
  let frames :=
    for_up totalFrames (fun frameIdx frames =>
      let dataChunk :=
        for_up FRAME_DATA_SIZE (fun bytePos dataChunk =>
          store dataChunk bytePos
            (get (default [] (encodedColumns !! Z.to_nat bytePos)) frameIdx))
          (newU8 FRAME_DATA_SIZE) in
      frames ++ [ {| frameIndex := frameIdx;
                     totalFrames := Z.of_nat totalFrames;
                     sequenceId := sequenceId;
                     dataChunk := dataChunk;
                     checksum := crc8 dataChunk |} ]) [] in
  {| Packet.sequenceId := sequenceId;
     Packet.totalFrames := Z.of_nat totalFrames;
     Packet.dataFrames := Z.of_nat dataFramesNeeded;
     Packet.parityFrames := Z.of_nat parityFrames;
     Packet.frames := frames;
     Packet.originalDataLength := Z.of_nat originalDataLength |}.

(** ** The multi-frame decoder: decoder.ts *)

Module DecoderState.
Record t : Type := mk {
  sequenceId : option Z;
  totalFrames : option Z;
  dataFrames : option Z;
  parityFrames : option Z;
  collectedFrames : gmap Z AuroraFrame;
  originalDataLength : option Z
}.
End DecoderState.

Record DecoderProgress : Type := mkProgress {
  collected : Z;
  required : Z;
  total : Z;
  canDecode : bool
}.

Record DecodeStats : Type := mkStats {
  stats_totalFrames : Z;
  stats_collectedFrames : Z;
  missingFrames : list Z;
  recoveredFrames : Z
}.

(** The three error texts of [decode]. *)
Inductive DecodeError : Type :=
| InsufficientFrames (collected required : Z)
| ColumnFailed (bytePos : Z)
| DecodeException (msg : string).

Record DecodeResult : Type := mkResult {
  success : bool;
  data : option (list Z);
  error : option DecodeError;
  stats : DecodeStats
}.

(** The state of a new [FrameDecoder], and the state [reset] installs. *)
Definition initial_state : DecoderState.t :=
  {| DecoderState.sequenceId := None;
     DecoderState.totalFrames := None;
     DecoderState.dataFrames := None;
     DecoderState.parityFrames := None;
     DecoderState.collectedFrames := ∅;
     DecoderState.originalDataLength := None |}.

Definition reset (st : DecoderState.t) : DecoderState.t := initial_state.

(** [Math.ceil(totalFrames * 0.8)].  The double 0.8 exceeds 4/5 by
    0.4 * 2^-53, so for an integer t below 2^50 in absolute value the
    double product is 4t/5 exactly when 5 divides t and otherwise lies
    strictly between the same two integers as 4t/5: the ceiling is the
    exact one. *)
Definition ceil_08 (t : Z) : Z := ceil_div (4 * t) 5.

Definition adopt (st : DecoderState.t) (frame : AuroraFrame) : DecoderState.t :=
  let dataFrames := ceil_08 (totalFrames frame) in
  {| DecoderState.sequenceId := Some (sequenceId frame);
     DecoderState.totalFrames := Some (totalFrames frame);
     DecoderState.dataFrames := Some dataFrames;
     DecoderState.parityFrames := Some (totalFrames frame - dataFrames);
     DecoderState.collectedFrames := DecoderState.collectedFrames st;
     DecoderState.originalDataLength := DecoderState.originalDataLength st |}.

(** [x || 0] on a number or null. *)
Definition or0 (x : option Z) : Z := default 0 x.

Definition addFrame (st : DecoderState.t) (frame : AuroraFrame)
  : bool * DecoderState.t :=
  let st :=
    match DecoderState.sequenceId st with
    | None => adopt st frame
    | Some _ => st
    end in
  let st :=
    if decide (Some (sequenceId frame) = DecoderState.sequenceId st) then st
    else adopt (reset st) frame in
  if (frameIndex frame <? 0)
     || (frameIndex frame >=? or0 (DecoderState.totalFrames st))
  then (false, st)
  else
    (true,
     {| DecoderState.sequenceId := DecoderState.sequenceId st;
        DecoderState.totalFrames := DecoderState.totalFrames st;
        DecoderState.dataFrames := DecoderState.dataFrames st;
        DecoderState.parityFrames := DecoderState.parityFrames st;
        DecoderState.collectedFrames :=
          <[frameIndex frame := frame]> (DecoderState.collectedFrames st);
        DecoderState.originalDataLength := DecoderState.originalDataLength st |}).

(** The percentage of [getProgress], a double, is left out. *)
Definition getProgress (st : DecoderState.t) : DecoderProgress :=
  let total := or0 (DecoderState.totalFrames st) in
  let dataFrames := or0 (DecoderState.dataFrames st) in
  let collected := Z.of_nat (size (DecoderState.collectedFrames st)) in
  let required := dataFrames in
  {| collected := collected;
     required := required;
     total := total;
     canDecode := collected >=? required |}.

Definition getMissingIndices (st : DecoderState.t) : list Z :=
  let total := or0 (DecoderState.totalFrames st) in
  for_up (Z.to_nat total) (fun i missing =>
    match DecoderState.collectedFrames st !! i with
    | Some _ => missing
    | None => missing ++ [i]
    end) [].

Definition hasFrame (st : DecoderState.t) (frameIndex : Z) : bool :=
  bool_decide (is_Some (DecoderState.collectedFrames st !! frameIndex)).

(** [Array.from(this.state.collectedFrames.keys()).sort((a, b) => a - b)]:
    the keys of the map in ascending order. *)
Definition getCollectedIndices (st : DecoderState.t) : list Z :=
  merge_sort Z.le (map fst (map_to_list (DecoderState.collectedFrames st))).

(** The column loop of [decode] either collects the ten decoded columns or
    stops at the first column [rsDecode] gives up on. *)
Inductive columns : Type :=
| Decoded (decodedColumns : list (list Z))
| GaveUp (bytePos : Z).

Definition decode_columns (st : DecoderState.t) (totalFrames dataFrames parityFrames : Z)
  : result columns :=
  for_up_r FRAME_DATA_SIZE (fun bytePos acc =>
    match acc with
    | GaveUp _ => Ok acc
    | Decoded decodedColumns =>
        let column :=
          for_up (Z.to_nat totalFrames) (fun frameIdx column =>
            match DecoderState.collectedFrames st !! frameIdx with
            | Some frame => column ++ [Some (get (dataChunk frame) bytePos)]
            | None => column ++ [None]
            end) [] in
        let* decoded := rsDecode column dataFrames parityFrames in
        match decoded with
        | None => Ok (GaveUp bytePos)
        | Some decoded => Ok (Decoded (decodedColumns ++ [decoded]))
        end
    end) (Decoded []).

Definition assemble (decodedColumns : list (list Z)) (dataFrames : Z)
  : result (list Z) :=
  let totalDataBytes := dataFrames * Z.of_nat FRAME_DATA_SIZE in
  if totalDataBytes <? 0 then Throw "RangeError: Invalid typed array length"
  else
    Ok (for_up (Z.to_nat dataFrames) (fun frameIdx decodedData =>
          for_up FRAME_DATA_SIZE (fun bytePos decodedData =>
            store decodedData (frameIdx * Z.of_nat FRAME_DATA_SIZE + bytePos)
              (get (default [] (decodedColumns !! Z.to_nat bytePos)) frameIdx))
            decodedData)
          (newU8 (Z.to_nat totalDataBytes))).

(** [decode]: the state is read, not changed.  A null [totalFrames],
    [dataFrames] or [parityFrames] acts as 0 in every use made of it. *)
Definition decode (st : DecoderState.t) : DecodeResult :=
  let progress := getProgress st in
  let failure e :=
    {| success := false; data := None; error := Some e;
       stats := {| stats_totalFrames := total progress;
                   stats_collectedFrames := collected progress;
                   missingFrames := getMissingIndices st;
                   recoveredFrames := 0 |} |} in
  if negb (canDecode progress) then
    failure (InsufficientFrames (collected progress) (required progress))
  else
    let totalFrames := or0 (DecoderState.totalFrames st) in
    let dataFrames := or0 (DecoderState.dataFrames st) in
    let parityFrames := or0 (DecoderState.parityFrames st) in
    let attempt :=
      let* cols := decode_columns st totalFrames dataFrames parityFrames in
      match cols with
      | GaveUp bytePos => Ok (inl bytePos)
      | Decoded decodedColumns =>
          let* decodedData := assemble decodedColumns dataFrames in
          let text := TextDecoder_decode decodedData in
          Ok (inr (trim_at_nul text))
      end in
    match attempt with
    | Ok (inl bytePos) => failure (ColumnFailed bytePos)
    | Ok (inr text) =>
        {| success := true; data := Some text; error := None;
           stats := {| stats_totalFrames := totalFrames;
                       stats_collectedFrames := collected progress;
                       missingFrames := getMissingIndices st;
                       recoveredFrames :=
                         Z.of_nat (length (getMissingIndices st)) |} |}
    | Throw msg => failure (DecodeException msg)
    end.

(** A decoder fed the frames in order. *)
Definition addFrames (st : DecoderState.t) (frames : list AuroraFrame)
  : DecoderState.t :=
  fold_left (fun st frame => snd (addFrame st frame)) frames st.

Definition decodeFromFrames (frames : list AuroraFrame) : DecodeResult :=
  decode (addFrames initial_state frames).

(** ** The palette and the band codec: colorPalette.ts, bandEncoder.ts *)

Definition NUM_BANDS : nat := 32.

(** Channel values are integers; distances and confidences are doubles. *)
Record RGBColor : Type := mkRGB { r : Z; g : Z; b : Z }.

Definition AURORA_PALETTE : list RGBColor :=
  [ mkRGB 20 60 40; mkRGB 30 90 50; mkRGB 40 120 60; mkRGB 50 150 70;
    mkRGB 40 160 120; mkRGB 50 180 150; mkRGB 60 200 180; mkRGB 80 220 200;
    mkRGB 80 140 200; mkRGB 100 120 200; mkRGB 130 100 200; mkRGB 160 90 200;
    mkRGB 180 100 180; mkRGB 200 110 160; mkRGB 220 130 150; mkRGB 240 160 160 ].

Definition byteToPaletteIndices (byte : Z) : Z * Z :=
  (js_and (js_shr byte 4) 0x0f, js_and byte 0x0f).

Definition paletteIndicesToByte (high low : Z) : Z :=
  js_or (js_shl (js_and high 0x0f) 4) (js_and low 0x0f).

(** [AURORA_PALETTE[index & 0x0f]] *)
Definition getPaletteColor (index : Z) : option RGBColor :=
  AURORA_PALETTE !! Z.to_nat (js_and index 0x0f).

Record VisualFrame : Type := mkVisual {
  vis_bandIndices : list Z;
  vis_frameIndex : Z;
  vis_totalFrames : Z;
  isSyncFrame : bool
}.

Definition frameToVisual (frame : AuroraFrame) : VisualFrame :=
  let serialized := serializeFrame frame in
  let bandIndices :=
    for_up FRAME_TOTAL_SIZE (fun i bandIndices =>
      let '(high, low) := byteToPaletteIndices (get serialized i) in
      bandIndices ++ [high] ++ [low]) [] in
  {| vis_bandIndices := bandIndices;
     vis_frameIndex := frameIndex frame;
     vis_totalFrames := totalFrames frame;
     isSyncFrame := frameIndex frame =? 0 |}.

(** [bandIndices[k] & 0x0f] is 0 for a missing entry, which [get] gives. *)
Definition bandIndicesToBytes (bandIndices : list Z) : list Z :=
  for_up FRAME_TOTAL_SIZE (fun i result =>
    let high := js_and (get bandIndices (i * 2)) 0x0f in
    let low := js_and (get bandIndices (i * 2 + 1)) 0x0f in
    store result i (js_or (js_shl high 4) low)) (newU8 FRAME_TOTAL_SIZE).

(** ** The detector: detector.ts

    The detector computes on doubles.  Their operations are an interface;
    the decimal constants of the source are quotients of integers, which a
    correctly rounded division turns into the same doubles. *)
Class Double (F : Type) : Type := {
  of_Z : Z -> F;
  fadd : F -> F -> F;
  fsub : F -> F -> F;
  fmul : F -> F -> F;
  fdiv : F -> F -> F;
  fsqrt : F -> F;
  fmax : F -> F -> F;
  flt : F -> F -> bool
}.

Record AuroraRegion : Type := mkRegion {
  top : Z;
  bottom : Z;
  leftBound : Z;
  rightBound : Z
}.

Section Detector.
Context {F : Type} `{Double F}.

(** The raster and the two passes over its pixels. *)
Variable ImageData : Type.
Variable findAuroraRegion : ImageData -> option AuroraRegion.
Variable extractBandColors : ImageData -> AuroraRegion -> list RGBColor.

Definition decimal (n d : Z) : F := fdiv (of_Z n) (of_Z d).
Definition Infinity : F := fdiv (of_Z 1) (of_Z 0).

Definition weightedColorDistance (c1 c2 : RGBColor) : F :=
  let dr := of_Z (r c1 - r c2) in
  let dg := of_Z (g c1 - g c2) in
  let db := of_Z (b c1 - b c2) in
  fsqrt (fadd (fadd (fmul (fmul dr dr) (decimal 3 10))
                    (fmul (fmul dg dg) (decimal 59 100)))
              (fmul (fmul db db) (decimal 11 100))).

Definition findClosestPaletteIndex (color : RGBColor) : Z :=
  snd (for_up (length AURORA_PALETTE) (fun i '(minDistance, bestIndex) =>
         let dist :=
           weightedColorDistance color
             (default (mkRGB 0 0 0) (AURORA_PALETTE !! Z.to_nat i)) in
         if flt dist minDistance then (dist, i) else (minDistance, bestIndex))
         (Infinity, 0)).

Definition colorConfidence (color : RGBColor) : F :=
  let index := findClosestPaletteIndex color in
  let dist :=
    weightedColorDistance color
      (default (mkRGB 0 0 0) (AURORA_PALETTE !! Z.to_nat index)) in
  let maxDist := of_Z 150 in
  fmax (of_Z 0) (fsub (of_Z 1) (fdiv dist maxDist)).

Definition matchBandsToPalette (bandColors : list RGBColor) : list Z * list F :=
  fold_left (fun '(indices, confidences) color =>
    let index := findClosestPaletteIndex color in
    let conf := colorConfidence color in
    (indices ++ [index], confidences ++ [conf])) bandColors ([], []).

Record DebugInfo : Type := mkDebug {
  auroraRegion : option AuroraRegion;
  bandColors : list RGBColor;
  bandConfidences : list F
}.

Record DetectionResult : Type := mkDetection {
  det_success : bool;
  det_frame : option AuroraFrame;
  confidence : F;
  bandIndices : option (list Z);
  debugInfo : DebugInfo
}.

Definition avgConfidence (confidences : list F) : F :=
  fdiv (fold_left (fun s c => fadd s c) confidences (of_Z 0))
       (of_Z (Z.of_nat (length confidences))).

Definition detectFrame (imageData : ImageData) : DetectionResult :=
  match findAuroraRegion imageData with
  | None =>
      {| det_success := false; det_frame := None; confidence := of_Z 0;
         bandIndices := None;
         debugInfo := {| auroraRegion := None; bandColors := [];
                         bandConfidences := [] |} |}
  | Some region =>
      let bandColors := extractBandColors imageData region in
      let '(indices, confidences) := matchBandsToPalette bandColors in
      let avgConfidence := avgConfidence confidences in
      if flt avgConfidence (decimal 15 100) then
        {| det_success := false; det_frame := None;
           confidence := avgConfidence;
           bandIndices := Some indices;
           debugInfo := {| auroraRegion := Some region;
                           bandColors := bandColors;
                           bandConfidences := confidences |} |}
      else
        let frameBytes := bandIndicesToBytes indices in
        let frame := deserializeFrame frameBytes in
        let checksumValid := verifyFrameChecksum frame in
        {| det_success := checksumValid;
           det_frame := if checksumValid then Some frame else None;
           confidence := avgConfidence;
           bandIndices := Some indices;
           debugInfo := {| auroraRegion := Some region;
                           bandColors := bandColors;
                           bandConfidences := confidences |} |}
  end.
End Detector.

(** ** Auxiliary definitions used by the statements *)

Definition is_byte (x : Z) : Prop := 0 <= x < 256.

(** The integers 0 .. n-1. *)
Definition zrange (n : nat) : list Z := map Z.of_nat (seq 0 n).

(** Multiplication by the primitive element, written with shifts: the
    reference the table-driven [gfMul 2] is compared with. *)
Definition xtime (x : Z) : Z :=
  if x <? 128 then 2 * x else Z.lxor (2 * x) PRIMITIVE_POLYNOMIAL.

(** The number of erased ([null]) positions of a received sequence. *)
Fixpoint erasure_count (data : list (option Z)) : nat :=
  match data with
  | [] => 0
  | None :: rest => S (erasure_count rest)
  | Some _ :: rest => erasure_count rest
  end.

(** The code points of an ASCII string literal. *)
Definition ascii_codes (s : string) : list Z :=
  map (fun a => Z.of_nat (Ascii.nat_of_ascii a)) (list_ascii_of_string s).

(** The frames of a packet that reach the receiver when those with an
    index in [lost] are dropped. *)
Definition drop_frames (lost : list Z) (frames : list AuroraFrame)
  : list AuroraFrame :=
  List.filter (fun f => negb (existsb (Z.eqb (frameIndex f)) lost)) frames.

(** The sizes [encodeData] computes, the padded text, its columns and
    the data chunk of each frame, as functions of the UTF-8 bytes. *)
Definition dataFramesOf (rawLength : nat) : nat :=
  Z.to_nat (ceil_div (Z.of_nat rawLength) 10).
Definition parityFramesOf (dataFrames : nat) : nat :=
  Nat.max RS_MIN_PARITY_FRAMES (Z.to_nat (ceil_div (Z.of_nat dataFrames) 4)).
Definition padded_of (raw : list Z) : list Z :=
  raw ++ repeat 0 (dataFramesOf (length raw) * 10 - length raw).
Definition column_of (raw : list Z) (bytePos : Z) : list Z :=
  map (fun frameIdx => u8 (get (padded_of raw) (frameIdx * 10 + bytePos)))
      (zrange (dataFramesOf (length raw))).
Definition chunk_of (raw : list Z) (frameIdx : Z) : list Z :=
  map (fun bytePos =>
         u8 (get (rsEncode (column_of raw bytePos)
                    (parityFramesOf (dataFramesOf (length raw)))) frameIdx))
      (zrange 10).


(** The frame [r] of the packet of the text with UTF-8 bytes [raw]. *)
Definition frame_of (raw : list Z) (drawn : Z) (r : Z) : AuroraFrame :=
  let D := dataFramesOf (length raw) in
  {| frameIndex := r;
     totalFrames := Z.of_nat (D + parityFramesOf D);
     sequenceId := drawn;
     dataChunk := chunk_of raw r;
     checksum := crc8 (chunk_of raw r) |}.


(** The state of a decoder that follows the packet [drawn] of [n] frames. *)
Definition following (n : nat) (drawn : Z) (collected : gmap Z AuroraFrame)
  : DecoderState.t :=
  {| DecoderState.sequenceId := Some drawn;
     DecoderState.totalFrames := Some (Z.of_nat n);
     DecoderState.dataFrames := Some (ceil_08 (Z.of_nat n));
     DecoderState.parityFrames := Some (Z.of_nat n - ceil_08 (Z.of_nat n));
     DecoderState.collectedFrames := collected;
     DecoderState.originalDataLength := None |}.

(** Column [c] of the first ceil(0.8 n) frames. *)
Definition decodedColumn (frame : Z -> AuroraFrame) (n : nat) (c : Z) : list Z :=
  map (fun r => u8 (get (dataChunk (frame r)) c))
      (zrange (Z.to_nat (ceil_08 (Z.of_nat n)))).

(** The bytes of the first ceil(0.8 n) frames, row by row. *)
Definition decodedBytes (frame : Z -> AuroraFrame) (n : nat) : list Z :=
  map (fun i => u8 (get (dataChunk (frame (i / 10))) (i mod 10)))
      (zrange (Z.to_nat (ceil_08 (Z.of_nat n)) * 10)).


(** The ranges of the data model. *)
Definition frame_in_range (f : AuroraFrame) : Prop :=
  0 <= frameIndex f <= 255 /\
  1 <= totalFrames f <= 255 /\
  0 <= sequenceId f <= 65535 /\
  0 <= checksum f <= 255 /\
  length (dataChunk f) = 10%nat /\
  Forall is_byte (dataChunk f).

(** Every collected frame carries the sequence id the decoder has adopted,
    and a decoder without a sequence id holds no frame. *)
Definition state_inv (st : DecoderState.t) : Prop :=
  match DecoderState.sequenceId st with
  | None => DecoderState.collectedFrames st = ∅
  | Some s =>
      forall i f, DecoderState.collectedFrames st !! i = Some f -> sequenceId f = s
  end.

(** A raster that shows the frame [f]: every band has exactly the palette
    colour of its symbol. *)
Definition shown_colors (f : AuroraFrame) : list RGBColor :=
  map (fun i => default (mkRGB 0 0 0) (AURORA_PALETTE !! Z.to_nat i))
      (vis_bandIndices (frameToVisual f)).

(** The doubles of the machine as an instance of the interface.  The
    integers converted are channel differences and small constants. *)
Definition float_of_Z (z : Z) : PrimFloat.float :=
  if z <? 0 then PrimFloat.opp (PrimFloat.of_uint63 (Uint63.of_Z (- z)))
  else PrimFloat.of_uint63 (Uint63.of_Z z).

(** [Math.max] of two numbers: NaN if either is NaN, and +0 above -0. *)
Definition float_max (x y : PrimFloat.float) : PrimFloat.float :=
  if PrimFloat.is_nan x then x
  else if PrimFloat.is_nan y then y
  else if PrimFloat.ltb x y then y
  else if PrimFloat.ltb y x then x
  else if PrimFloat.is_zero x then PrimFloat.add x y
  else x.

#[export] Instance float_Double : Double PrimFloat.float :=
  {| of_Z := float_of_Z;
     fadd := PrimFloat.add;
     fsub := PrimFloat.sub;
     fmul := PrimFloat.mul;
     fdiv := PrimFloat.div;
     fsqrt := PrimFloat.sqrt;
     fmax := float_max;
     flt := PrimFloat.ltb |}.

(** ** Auxiliary definitions of the further properties *)

(** Multiplication of two polynomials over GF(2) of degree below 8, bit by
    bit, reduced by the primitive polynomial at every shift. *)
Fixpoint gf_mul_bits (n : nat) (a b : Z) : Z :=
  match n with
  | O => 0
  | S n => Z.lxor (if Z.odd b then a else 0) (gf_mul_bits n (xtime a) (b / 2))
  end.

(** [a ^ n] by repeated multiplication. *)
Definition gf_power (a : Z) (n : nat) : Z := Nat.iter n (gfMul a) 1.

(** Horner evaluation by recursion on the coefficients. *)
Fixpoint horner (p : list Z) (x : Z) : Z :=
  match p with
  | [] => 0
  | c :: p => gfAdd (gfMul (horner p x) x) c
  end.

(** The XOR of [h 0 .. h (m-1)]. *)
Fixpoint xsum (m : nat) (h : nat -> Z) : Z :=
  match m with
  | O => 0
  | S m => Z.lxor (xsum m h) (h m)
  end.

(** [for (j = 0; j < m; j++) r[off + j] = gfAdd(r[off + j], c(j))]: the
    inner loop of [polyMul], of [polyAdd] and of the division in
    [rsEncode]. *)
Definition scatter (off m : nat) (c : Z -> Z) (r : list Z) : list Z :=
  for_up m (fun j r =>
    store r (Z.of_nat off + j) (gfAdd (get r (Z.of_nat off + j)) (c j))) r.

(** The inner loop of [polyMul] for the coefficient [i] of [p]. *)
Definition polyMul_row (p q : list Z) (i : Z) (result : list Z) : list Z :=
  for_up (length q) (fun j result =>
    store result (i + j) (gfAdd (get result (i + j)) (gfMul (get p i) (get q j))))
    result.

(** One step of the synthetic division of [rsEncode]. *)
Definition rsDivide_step (generator : list Z) (parityCount : nat)
    (i : Z) (msgPoly : list Z) : list Z :=
  let coef := get msgPoly (Z.of_nat parityCount + i) in
  if coef =? 0 then msgPoly
  else for_up (length generator) (fun j msgPoly =>
         store msgPoly (i + j)
           (gfAdd (get msgPoly (i + j)) (gfMul (get generator j) coef)))
         msgPoly.

(** The product of the factors [x + 2^pos] of the erasure locator. *)
Definition locator_product (erasurePositions : list Z) (x : Z) : Z :=
  fold_left (fun acc pos => gfMul acc (Z.lxor x (gfPow 2 pos))) erasurePositions 1.

(** Row [i] of [rows] when its first [c] bytes have been written. *)
Definition rowAt (rows : list (list Z)) (s : nat) (c : nat) (i : Z) : list Z :=
  take c (default [] (rows !! Z.to_nat i)) ++ repeat 0 (s - c).

(** The number of [null] frames. *)
Fixpoint null_count (frames : list (option (list Z))) : nat :=
  match frames with
  | [] => 0
  | None :: rest => S (null_count rest)
  | Some _ :: rest => null_count rest
  end.

(** The entry a frame contributes to the column of byte [c]. *)
Definition cellOf (c : Z) (frame : option (list Z)) : option Z :=
  match frame with
  | None => None
  | Some frame =>
      if Z.of_nat (length frame) <=? c then None else Some (get frame c)
  end.

(** The two symbols of a byte. *)
Definition nibbles (byte : Z) : list Z := [byte / 16; byte mod 16].

(** The palette colour of a symbol. *)
Definition palette_color (i : Z) : RGBColor :=
  default (mkRGB 0 0 0) (AURORA_PALETTE !! Z.to_nat i).

(** What holds of a decoder after any sequence of [addFrame] calls. *)
Definition decoder_inv (st : DecoderState.t) : Prop :=
  match DecoderState.sequenceId st with
  | None => st = initial_state
  | Some s =>
      exists t,
        DecoderState.totalFrames st = Some t /\
        DecoderState.dataFrames st = Some (ceil_08 t) /\
        DecoderState.parityFrames st = Some (t - ceil_08 t) /\
        DecoderState.originalDataLength st = None /\
        forall i f, DecoderState.collectedFrames st !! i = Some f ->
                    frameIndex f = i /\ 0 <= i < t /\ sequenceId f = s
  end.

(** The column [decode] hands to [rsDecode] for byte position [bytePos]. *)
Definition columnOf (st : DecoderState.t) (totalFrames bytePos : Z)
  : list (option Z) :=
  for_up (Z.to_nat totalFrames) (fun frameIdx column =>
    match DecoderState.collectedFrames st !! frameIdx with
    | Some frame => column ++ [Some (get (dataChunk frame) bytePos)]
    | None => column ++ [None]
    end) [].

(** * Properties *)

(** ** Exhaustive checks over small ranges *)

Lemma zrange_forallb (n : nat) (P : Z -> bool) :
  forallb P (zrange n) = true ->
  forall x, 0 <= x < Z.of_nat n -> P x = true.
Proof.
  intros Hall x Hx.
  rewrite forallb_forall in Hall. apply Hall.
  unfold zrange. rewrite in_map_iff. exists (Z.to_nat x).
  split; [lia|]. apply in_seq. lia.
Qed.

Lemma bytes_forallb (P : Z -> bool) :
  forallb P (zrange 256) = true -> forall x, is_byte x -> P x = true.
Proof. intros Hall x Hx. apply (zrange_forallb 256 P Hall). exact Hx. Qed.

Lemma bytes_forallb2 (P : Z -> Z -> bool) :
  forallb (fun x => forallb (P x) (zrange 256)) (zrange 256) = true ->
  forall x y, is_byte x -> is_byte y -> P x y = true.
Proof.
  intros Hall x y Hx Hy.
  apply (bytes_forallb (P x)); [|exact Hy].
  apply (bytes_forallb (fun x => forallb (P x) (zrange 256)) Hall x Hx).
Qed.

(** ** 32-bit integers *)

Lemma toInt32_small x : - 0x80000000 <= x < 0x80000000 -> toInt32 x = x.
Proof.
  intros Hx. unfold toInt32. rewrite Z.mod_small; lia.
Qed.

Lemma toInt32_byte x : is_byte x -> toInt32 x = x.
Proof. intros Hx. apply toInt32_small. unfold is_byte in Hx. lia. Qed.

(** [check_range n P x Hx as Hc] runs the boolean test [P] on 0 .. n-1 and
    concludes [Hc : P x = true] from [Hx : 0 <= x < n]; [check_bytes2] does
    the same for a test on two bytes. *)
Tactic Notation "check_range" constr(n) constr(P) constr(x) constr(Hx) "as" ident(Hc) :=
  let Hall := fresh "Hall" in
  assert (Hall : forallb P (zrange n) = true) by (vm_compute; reflexivity);
  pose proof (zrange_forallb n P Hall x Hx) as Hc;
  cbv beta in Hc; clear Hall.

Tactic Notation "check_bytes2" constr(P) constr(x) constr(y) constr(Hx) constr(Hy) "as" ident(Hc) :=
  let Hall := fresh "Hall" in
  assert (Hall : forallb (fun u => forallb (P u) (zrange 256)) (zrange 256) = true)
    by (vm_compute; reflexivity);
  pose proof (bytes_forallb2 P Hall x y Hx Hy) as Hc;
  cbv beta in Hc; clear Hall.

Lemma lxor_byte a b : is_byte a -> is_byte b -> is_byte (Z.lxor a b).
Proof.
  intros Ha Hb.
  check_bytes2 (fun x y => (0 <=? Z.lxor x y) && (Z.lxor x y <? 256)) a b Ha Hb as Hc.
  apply andb_true_iff in Hc. unfold is_byte. lia.
Qed.

Lemma gfAdd_lxor a b : is_byte a -> is_byte b -> gfAdd a b = Z.lxor a b.
Proof.
  intros Ha Hb. unfold gfAdd, js_xor. now rewrite !toInt32_byte.
Qed.

Lemma gfAdd_byte a b : is_byte a -> is_byte b -> is_byte (gfAdd a b).
Proof. intros Ha Hb. rewrite gfAdd_lxor by assumption. now apply lxor_byte. Qed.

(** ** The tables *)

Lemma gfExp_log i :
  0 <= i < 510 ->
  1 <= get gfExp i < 256 /\ get gfLog (get gfExp i) = i mod 255.
Proof.
  intros Hi.
  check_range 510%nat
    (fun i => (1 <=? get gfExp i) && (get gfExp i <? 256)
              && (get gfLog (get gfExp i) =? i mod 255)) i Hi as Hc.
  rewrite !andb_true_iff in Hc. lia.
Qed.

Lemma gfLog_exp a :
  1 <= a < 256 -> 0 <= get gfLog a < 255 /\ get gfExp (get gfLog a) = a.
Proof.
  intros Ha.
  assert (Hb : 0 <= a < Z.of_nat 256) by lia.
  check_range 256%nat
    (fun a => (a =? 0) || ((0 <=? get gfLog a) && (get gfLog a <? 255)
              && (get gfExp (get gfLog a) =? a))) a Hb as Hc.
  rewrite orb_true_iff, !andb_true_iff in Hc. lia.
Qed.

Lemma gfExp_wrap i : 0 <= i < 510 -> get gfExp i = get gfExp (i mod 255).
Proof.
  intros Hi.
  check_range 510%nat (fun i => get gfExp i =? get gfExp (i mod 255)) i Hi as Hc.
  lia.
Qed.

(** ** gfMul on bytes *)

Lemma gfMul_0_l b : gfMul 0 b = 0.
Proof. reflexivity. Qed.

Lemma gfMul_0_r a : gfMul a 0 = 0.
Proof. unfold gfMul. now rewrite orb_true_r. Qed.

Lemma gfMul_nz a b :
  1 <= a < 256 -> 1 <= b < 256 ->
  gfMul a b = get gfExp ((get gfLog a + get gfLog b) mod 255).
Proof.
  intros Ha Hb. unfold gfMul.
  destruct (Z.eqb_spec a 0); [lia|]. destruct (Z.eqb_spec b 0); [lia|].
  cbn [orb].
  pose proof (gfLog_exp a Ha). pose proof (gfLog_exp b Hb).
  apply gfExp_wrap. lia.
Qed.

Lemma gfMul_nz_range a b :
  1 <= a < 256 -> 1 <= b < 256 ->
  1 <= gfMul a b < 256 /\
  get gfLog (gfMul a b) = (get gfLog a + get gfLog b) mod 255.
Proof.
  intros Ha Hb. rewrite gfMul_nz by assumption.
  pose proof (gfLog_exp a Ha). pose proof (gfLog_exp b Hb).
  assert (Hm : 0 <= (get gfLog a + get gfLog b) mod 255 < 255)
    by (apply Z.mod_pos_bound; lia).
  destruct (gfExp_log ((get gfLog a + get gfLog b) mod 255)) as [H1 H2]; [lia|].
  split; [exact H1|]. rewrite H2. apply Z.mod_mod. lia.
Qed.

Lemma gfMul_byte a b : is_byte a -> is_byte b -> is_byte (gfMul a b).
Proof.
  intros Ha Hb. unfold is_byte in *.
  destruct (Z.eq_dec a 0) as [->|]; [rewrite gfMul_0_l; lia|].
  destruct (Z.eq_dec b 0) as [->|]; [rewrite gfMul_0_r; lia|].
  pose proof (gfMul_nz_range a b). lia.
Qed.

Lemma gfMul_comm a b : gfMul a b = gfMul b a.
Proof. unfold gfMul. now rewrite orb_comm, Z.add_comm. Qed.

Lemma gfMul_assoc a b c :
  is_byte a -> is_byte b -> is_byte c ->
  gfMul (gfMul a b) c = gfMul a (gfMul b c).
Proof.
  unfold is_byte. intros Ha Hb Hc.
  destruct (Z.eq_dec a 0) as [->|]; [now rewrite !gfMul_0_l|].
  destruct (Z.eq_dec b 0) as [->|];
    [now rewrite gfMul_0_l, !gfMul_0_r, gfMul_0_l|].
  destruct (Z.eq_dec c 0) as [->|]; [now rewrite !gfMul_0_r|].
  destruct (gfMul_nz_range a b) as [Rab Lab]; [lia..|].
  destruct (gfMul_nz_range b c) as [Rbc Lbc]; [lia..|].
  rewrite (gfMul_nz (gfMul a b) c), (gfMul_nz a (gfMul b c)) by lia.
  rewrite Lab, Lbc. f_equal.
  rewrite Z.add_mod_idemp_l, Z.add_mod_idemp_r by lia.
  f_equal. lia.
Qed.

Lemma gfMul_1_r a : is_byte a -> gfMul a 1 = a.
Proof.
  intros Ha.
  check_range 256%nat (fun a => gfMul a 1 =? a) a Ha as Hc. lia.
Qed.

(** ** Multiplication by a power of the primitive element *)

Lemma xtime_byte x : is_byte x -> is_byte (xtime x).
Proof.
  intros Hx.
  check_range 256%nat (fun x => (0 <=? xtime x) && (xtime x <? 256)) x Hx as Hc.
  apply andb_true_iff in Hc. unfold is_byte. lia.
Qed.

Lemma gfMul_2 x : is_byte x -> gfMul 2 x = xtime x.
Proof.
  intros Hx.
  check_range 256%nat (fun x => gfMul 2 x =? xtime x) x Hx as Hc. lia.
Qed.

Lemma xtime_lxor x y :
  is_byte x -> is_byte y -> xtime (Z.lxor x y) = Z.lxor (xtime x) (xtime y).
Proof.
  intros Hx Hy.
  check_bytes2 (fun x y => xtime (Z.lxor x y) =? Z.lxor (xtime x) (xtime y))
    x y Hx Hy as Hc.
  lia.
Qed.

Lemma gfExp_succ k : 0 <= k < 254 -> get gfExp (k + 1) = gfMul 2 (get gfExp k).
Proof.
  intros Hk.
  assert (Hk' : 0 <= k < Z.of_nat 254) by lia.
  check_range 254%nat (fun k => get gfExp (k + 1) =? gfMul 2 (get gfExp k)) k Hk' as Hc.
  lia.
Qed.

Lemma iter_xtime_byte (k : nat) x : is_byte x -> is_byte (Nat.iter k xtime x).
Proof.
  intros Hx. induction k as [|k IH]; [exact Hx|].
  rewrite Nat.iter_succ. now apply xtime_byte.
Qed.

Lemma iter_xtime_lxor (k : nat) x y :
  is_byte x -> is_byte y ->
  Nat.iter k xtime (Z.lxor x y) = Z.lxor (Nat.iter k xtime x) (Nat.iter k xtime y).
Proof.
  intros Hx Hy. induction k as [|k IH]; [reflexivity|].
  rewrite !Nat.iter_succ, IH. apply xtime_lxor; now apply iter_xtime_byte.
Qed.

Lemma gfMul_exp (k : nat) x :
  (k < 255)%nat -> is_byte x ->
  gfMul (get gfExp (Z.of_nat k)) x = Nat.iter k xtime x.
Proof.
  intros Hk Hx. induction k as [|k IH].
  - change (get gfExp (Z.of_nat 0)) with 1.
    rewrite gfMul_comm. now apply gfMul_1_r.
  - rewrite Nat.iter_succ, <- IH by lia.
    replace (Z.of_nat (S k)) with (Z.of_nat k + 1) by lia.
    rewrite gfExp_succ by lia.
    assert (He : is_byte (get gfExp (Z.of_nat k))).
    { destruct (gfExp_log (Z.of_nat k)) as [He _]; [lia|]. unfold is_byte. lia. }
    rewrite gfMul_assoc; [|unfold is_byte; lia|exact He|exact Hx].
    apply gfMul_2. now apply gfMul_byte.
Qed.

Lemma gfMul_lxor a b c :
  is_byte a -> is_byte b -> is_byte c ->
  gfMul a (Z.lxor b c) = Z.lxor (gfMul a b) (gfMul a c).
Proof.
  intros Ha Hb Hc.
  destruct (Z.eq_dec a 0) as [->|Hnz]; [now rewrite !gfMul_0_l|].
  destruct (gfLog_exp a) as [Hl He]; [unfold is_byte in Ha; lia|].
  rewrite <- He, <- (Z2Nat.id (get gfLog a)) by lia.
  rewrite !gfMul_exp; try assumption; try lia; [|now apply lxor_byte].
  now apply iter_xtime_lxor.
Qed.

Create HintDb bytes.
#[local] Hint Resolve lxor_byte gfAdd_byte gfMul_byte xtime_byte : bytes.

(** ** The field laws *)

(** C8, counterexample: in the field of the source (primitive polynomial
    0x11D) the product of 0x53 and 0xCA is not 0x01. *)
Lemma gfMul_53_CA_not_1 : gfMul 0x53 0xCA <> 0x01.
Proof. vm_compute. discriminate. Qed.

(** C8, amended: on bytes [gfAdd] and [gfMul] are commutative and
    associative, [gfMul] distributes over [gfAdd], [gfAdd a a = 0],
    [gfMul a 1 = a], and a non-zero [a] satisfies
    [gfMul a (gfInverse a) = 1] and [gfPow a 255 = 1]; the product of 0x53
    and 0xCA is 0x8F, and the inverse of 0x53 is 0x8C. *)
Theorem gf_field_laws (a b c : Z) :
  is_byte a -> is_byte b -> is_byte c ->
  gfAdd a b = gfAdd b a /\
  gfAdd (gfAdd a b) c = gfAdd a (gfAdd b c) /\
  gfMul a b = gfMul b a /\
  gfMul (gfMul a b) c = gfMul a (gfMul b c) /\
  gfMul a (gfAdd b c) = gfAdd (gfMul a b) (gfMul a c) /\
  gfMul (gfAdd a b) c = gfAdd (gfMul a c) (gfMul b c) /\
  gfAdd a a = 0 /\
  gfMul a 1 = a /\
  (a <> 0 -> exists v, gfInverse a = Ok v /\ gfMul a v = 1) /\
  (a <> 0 -> gfPow a 255 = 1) /\
  gfMul 0x53 0xCA = 0x8F /\
  gfInverse 0x53 = Ok 0x8C.
Proof.
  intros Ha Hb Hc.
  repeat split.
  - rewrite !gfAdd_lxor by assumption. apply Z.lxor_comm.
  - rewrite !gfAdd_lxor by auto with bytes. apply Z.lxor_assoc.
  - apply gfMul_comm.
  - now apply gfMul_assoc.
  - rewrite !gfAdd_lxor by auto with bytes. now apply gfMul_lxor.
  - rewrite !gfAdd_lxor by auto with bytes.
    rewrite (gfMul_comm _ c), (gfMul_comm a c), (gfMul_comm b c).
    now apply gfMul_lxor.
  - rewrite gfAdd_lxor by assumption. apply Z.lxor_nilpotent.
  - now apply gfMul_1_r.
  - intros Hnz.
    check_range 256%nat
      (fun a => (a =? 0) ||
                match gfInverse a with
                | Ok v => gfMul a v =? 1
                | Throw _ => false
                end) a Ha as Hi.
    apply orb_true_iff in Hi. destruct Hi as [Hi|Hi]; [lia|].
    destruct (gfInverse a) as [v|m]; [|discriminate].
    exists v. split; [reflexivity|lia].
  - intros Hnz.
    check_range 256%nat (fun a => (a =? 0) || (gfPow a 255 =? 1)) a Ha as Hp.
    apply orb_true_iff in Hp. lia.
Qed.

Lemma gf_field_laws_witness :
  gfAdd 0x53 0xCA = gfAdd 0xCA 0x53 /\
  gfAdd (gfAdd 0x53 0xCA) 7 = gfAdd 0x53 (gfAdd 0xCA 7) /\
  gfMul 0x53 0xCA = gfMul 0xCA 0x53 /\
  gfMul (gfMul 0x53 0xCA) 7 = gfMul 0x53 (gfMul 0xCA 7) /\
  gfMul 0x53 (gfAdd 0xCA 7) = gfAdd (gfMul 0x53 0xCA) (gfMul 0x53 7) /\
  gfMul (gfAdd 0x53 0xCA) 7 = gfAdd (gfMul 0x53 7) (gfMul 0xCA 7) /\
  gfAdd 0x53 0x53 = 0 /\
  gfMul 0x53 1 = 0x53 /\
  (0x53 <> 0 -> exists v, gfInverse 0x53 = Ok v /\ gfMul 0x53 v = 1) /\
  (0x53 <> 0 -> gfPow 0x53 255 = 1) /\
  gfMul 0x53 0xCA = 0x8F /\
  gfInverse 0x53 = Ok 0x8C.
Proof.
  apply (gf_field_laws 0x53 0xCA 7); unfold is_byte; lia.
Defined.

(** ** Loops *)

Lemma for_up_0 {S : Type} (body : Z -> S -> S) (s : S) : for_up 0 body s = s.
Proof. reflexivity. Qed.

Lemma for_up_S {S : Type} (n : nat) (body : Z -> S -> S) (s : S) :
  for_up (Datatypes.S n) body s = body (Z.of_nat n) (for_up n body s).
Proof.
  unfold for_up. rewrite seq_S, fold_left_app. reflexivity.
Qed.

(** A loop that pushes one element per round builds the list of them. *)
Lemma for_up_push {A : Type} (n : nat) (elem : Z -> A) :
  for_up n (fun i acc => acc ++ [elem i]) [] = map elem (zrange n).
Proof.
  induction n as [|n IH]; [reflexivity|].
  rewrite for_up_S, IH. unfold zrange.
  rewrite seq_S, !map_app. reflexivity.
Qed.

Lemma length_zrange n : length (zrange n) = n.
Proof. unfold zrange. now rewrite length_map, length_seq. Qed.

Lemma lookup_zrange n i : (i < n)%nat -> zrange n !! i = Some (Z.of_nat i).
Proof.
  intros Hi. unfold zrange. rewrite list_lookup_fmap.
  rewrite lookup_seq_lt by exact Hi. reflexivity.
Qed.

(** ** Bytes in typed arrays *)

Lemma u8_byte x : is_byte x -> u8 x = x.
Proof. intros Hx. unfold u8. apply Z.mod_small. exact Hx. Qed.

Lemma u8_is_byte x : is_byte (u8 x).
Proof. unfold u8, is_byte. apply Z.mod_pos_bound. lia. Qed.

Lemma u8_idemp x : u8 (u8 x) = u8 x.
Proof. apply u8_byte, u8_is_byte. Qed.

Lemma js_and_ff x : is_byte x -> js_and x 0xff = x.
Proof.
  intros Hx.
  check_range 256%nat (fun x => js_and x 0xff =? x) x Hx as Hc. lia.
Qed.

Lemma js_and_ff_mod x : 0 <= x < 0x80000000 -> js_and x 0xff = x mod 256.
Proof.
  intros Hx. unfold js_and. rewrite toInt32_small by lia.
  change (toInt32 255) with (Z.ones 8).
  rewrite Z.land_ones by lia. reflexivity.
Qed.

Lemma js_shr_8 x : 0 <= x < 0x80000000 -> js_shr x 8 = x / 256.
Proof.
  intros Hx. unfold js_shr. rewrite toInt32_small by lia.
  change (8 mod 32) with 8. rewrite Z.shiftr_div_pow2 by lia. reflexivity.
Qed.

Lemma js_shl_8 x : is_byte x -> js_shl x 8 = x * 256.
Proof.
  unfold is_byte. intros Hx. unfold js_shl. rewrite (toInt32_small x) by lia.
  change (8 mod 32) with 8. rewrite Z.shiftl_mul_pow2 by lia.
  change (2 ^ 8) with 256. apply toInt32_small. lia.
Qed.

Lemma js_or_bytes h l : is_byte h -> is_byte l -> js_or (h * 256) l = h * 256 + l.
Proof.
  intros Hh Hl. unfold js_or.
  rewrite !toInt32_small by (unfold is_byte in *; lia).
  check_bytes2 (fun h l => Z.lor (h * 256) l =? h * 256 + l) h l Hh Hl as Hc.
  lia.
Qed.

(** Bytes 2 and 3 of a serialized frame put the sequence id back together. *)
Lemma sequenceId_bytes s :
  0 <= s <= 65535 ->
  js_or (js_shl (u8 (js_and (js_shr s 8) 0xff)) 8) (u8 (js_and s 0xff)) = s.
Proof.
  intros Hs.
  assert (Hh : is_byte (s / 256))
    by (unfold is_byte; Z.div_mod_to_equations; lia).
  assert (Hl : is_byte (s mod 256))
    by (unfold is_byte; Z.div_mod_to_equations; lia).
  rewrite js_shr_8 by lia.
  rewrite (js_and_ff (s / 256)) by exact Hh.
  rewrite (js_and_ff_mod s) by lia.
  rewrite !u8_byte by assumption.
  rewrite js_shl_8, js_or_bytes by assumption.
  Z.div_mod_to_equations; lia.
Qed.

(** ** The frame codec *)


#[local] Opaque u8 js_and js_or js_shl js_shr.

(** C7: a frame within the ranges of the data model survives
    [serializeFrame] followed by [deserializeFrame], and byte 15 of the
    serialized frame is 0x00. *)
Theorem frame_codec_roundtrip (f : AuroraFrame) :
  frame_in_range f ->
  deserializeFrame (serializeFrame f) = f /\ get (serializeFrame f) 15 = 0x00.
Proof.
  destruct f as [fi tf sid chunk ck].
  unfold frame_in_range; cbn [frameIndex totalFrames sequenceId checksum dataChunk].
  intros (Hfi & Htf & Hsid & Hck & Hlen & Hbytes).
  do 10 (destruct chunk as [|? chunk]; [discriminate Hlen|]).
  destruct chunk; [|discriminate Hlen]. clear Hlen.
  repeat match goal with
         | H : Forall _ (_ :: _) |- _ => apply Forall_cons_1 in H; destruct H as [? H]
         end.
  split; [|reflexivity].
  cbv.
  rewrite sequenceId_bytes by lia.
  rewrite !u8_idemp.
  rewrite !js_and_ff by (unfold is_byte; lia).
  rewrite !u8_byte by (assumption || (unfold is_byte; lia)).
  reflexivity.
Qed.

#[local] Transparent u8 js_and js_or js_shl js_shr.

Lemma frame_codec_roundtrip_witness :
  let f := mkFrame 3 6 0x1234 [0x48; 0x65; 0x6c; 0x6c; 0x6f; 0; 0; 0; 0; 0xff] 0x5a in
  deserializeFrame (serializeFrame f) = f /\ get (serializeFrame f) 15 = 0x00.
Proof.
  apply (frame_codec_roundtrip
           (mkFrame 3 6 0x1234 [0x48; 0x65; 0x6c; 0x6c; 0x6f; 0; 0; 0; 0; 0xff] 0x5a)).
  unfold frame_in_range, is_byte; cbn.
  repeat split; try lia.
  repeat constructor; lia.
Defined.

(** ** The decoder state *)


Lemma initial_state_inv : state_inv initial_state.
Proof. reflexivity. Qed.

Lemma addFrame_sequenceId st f :
  DecoderState.sequenceId (snd (addFrame st f)) = Some (sequenceId f).
Proof.
  unfold addFrame.
  destruct (DecoderState.sequenceId st) as [s|] eqn:Hs; cbn zeta.
  - destruct (decide (Some (sequenceId f) = DecoderState.sequenceId st)) as [He|Hne].
    + destruct (_ || _); cbn; congruence.
    + destruct (_ || _); reflexivity.
  - cbn [adopt DecoderState.sequenceId].
    destruct (decide (Some (sequenceId f) = Some (sequenceId f))); [|congruence].
    destruct (_ || _); reflexivity.
Qed.

Lemma addFrame_inv st f : state_inv st -> state_inv (snd (addFrame st f)).
Proof.
  intros Hinv. unfold state_inv. rewrite addFrame_sequenceId.
  unfold addFrame, state_inv in *.
  destruct (DecoderState.sequenceId st) as [s|] eqn:Hs; cbn zeta.
  - destruct (decide (Some (sequenceId f) = DecoderState.sequenceId st)) as [He|Hne].
    + rewrite Hs in He. injection He as He.
      destruct (_ || _); cbn [snd DecoderState.collectedFrames]; intros i h Hl.
      * rewrite He. eauto.
      * destruct (decide (frameIndex f = i)) as [<-|Hi].
        -- rewrite lookup_insert_eq in Hl. congruence.
        -- rewrite lookup_insert_ne in Hl by exact Hi. rewrite He. eauto.
    + destruct (_ || _); cbn [snd DecoderState.collectedFrames adopt reset initial_state];
        intros i h Hl.
      * rewrite lookup_empty in Hl. discriminate.
      * destruct (decide (frameIndex f = i)) as [<-|Hi].
        -- rewrite lookup_insert_eq in Hl. congruence.
        -- rewrite lookup_insert_ne, lookup_empty in Hl by exact Hi. discriminate.
  - cbn [adopt DecoderState.sequenceId].
    destruct (decide (Some (sequenceId f) = Some (sequenceId f))); [|congruence].
    destruct (_ || _); cbn [snd DecoderState.collectedFrames adopt]; intros i h Hl;
      rewrite Hinv in Hl.
    + rewrite lookup_empty in Hl. discriminate.
    + destruct (decide (frameIndex f = i)) as [<-|Hi].
      * rewrite lookup_insert_eq in Hl. congruence.
      * rewrite lookup_insert_ne, lookup_empty in Hl by exact Hi. discriminate.
Qed.

Lemma addFrames_snoc st fs f :
  addFrames st (fs ++ [f]) = snd (addFrame (addFrames st fs) f).
Proof. unfold addFrames. now rewrite fold_left_app. Qed.

Lemma addFrames_inv st fs : state_inv st -> state_inv (addFrames st fs).
Proof.
  revert st. induction fs as [|f fs IH]; intros st Hinv; [exact Hinv|].
  cbn. apply IH. now apply addFrame_inv.
Qed.

(** C6: whatever frames a new decoder has been given, after the last
    [addFrame] it holds only frames of the sequence id of that last frame;
    and after a frame with sequence id 0x1234, 5 frames in total and index 0
    followed by one with sequence id 0x9ABC, 8 frames in total and index 0,
    it holds the second frame alone, with [totalFrames] 8. *)
Theorem sequence_isolation :
  (forall (fs : list AuroraFrame) (f : AuroraFrame),
      let st := addFrames initial_state (fs ++ [f]) in
      DecoderState.sequenceId st = Some (sequenceId f) /\
      forall i h, DecoderState.collectedFrames st !! i = Some h ->
                  sequenceId h = sequenceId f) /\
  (forall chunk1 ck1 chunk2 ck2,
      let f1 := mkFrame 0 5 0x1234 chunk1 ck1 in
      let f2 := mkFrame 0 8 0x9ABC chunk2 ck2 in
      let st := addFrames initial_state [f1; f2] in
      DecoderState.collectedFrames st = {[ 0 := f2 ]} /\
      DecoderState.totalFrames st = Some 8 /\
      DecoderState.sequenceId st = Some 0x9ABC).
Proof.
  split.
  - intros fs f st.
    assert (Hinv : state_inv st).
    { apply addFrames_inv, initial_state_inv. }
    assert (Hseq : DecoderState.sequenceId st = Some (sequenceId f)).
    { unfold st. rewrite addFrames_snoc. apply addFrame_sequenceId. }
    split; [exact Hseq|].
    unfold state_inv in Hinv. rewrite Hseq in Hinv. exact Hinv.
  - intros chunk1 ck1 chunk2 ck2 f1 f2 st.
    repeat split.
Qed.

(** C10: [addFrame] changes the state even when it rejects the frame.  For
    a frame whose index is not below its [totalFrames], on a new decoder
    it answers false and yet adopts the sequence id and the frame count of
    the frame; on a decoder that follows another sequence id it answers
    false, adopts them and forgets every frame collected so far. *)
Theorem addFrame_rejection_not_atomic (f : AuroraFrame) :
  totalFrames f <= frameIndex f ->
  (let (accepted, st') := addFrame initial_state f in
   accepted = false /\
   st' <> initial_state /\
   DecoderState.sequenceId st' = Some (sequenceId f) /\
   DecoderState.totalFrames st' = Some (totalFrames f)) /\
  (forall st s,
      DecoderState.sequenceId st = Some s -> s <> sequenceId f ->
      let (accepted, st') := addFrame st f in
      accepted = false /\
      DecoderState.sequenceId st' = Some (sequenceId f) /\
      DecoderState.totalFrames st' = Some (totalFrames f) /\
      DecoderState.collectedFrames st' = ∅).
Proof.
  intros Hidx.
  assert (Hrej : (frameIndex f <? 0) || (frameIndex f >=? totalFrames f) = true).
  { apply orb_true_iff. right. lia. }
  split.
  - unfold addFrame. cbn [initial_state DecoderState.sequenceId adopt].
    destruct (decide (Some (sequenceId f) = Some (sequenceId f))); [|congruence].
    unfold adopt. cbn.
    rewrite Hrej. repeat split. discriminate.
  - intros st s Hs Hne. unfold addFrame. rewrite Hs.
    destruct (decide (Some (sequenceId f) = DecoderState.sequenceId st)) as [He|_];
      [congruence|].
    unfold adopt. cbn.
    rewrite Hrej. repeat split.
Qed.

Lemma addFrame_rejection_not_atomic_witness :
  let f := mkFrame 9 5 0x9ABC [1; 2; 3; 4; 5; 6; 7; 8; 9; 10] 0 in
  (let (accepted, st') := addFrame initial_state f in
   accepted = false /\
   st' <> initial_state /\
   DecoderState.sequenceId st' = Some (sequenceId f) /\
   DecoderState.totalFrames st' = Some (totalFrames f)) /\
  (forall st s,
      DecoderState.sequenceId st = Some s -> s <> sequenceId f ->
      let (accepted, st') := addFrame st f in
      accepted = false /\
      DecoderState.sequenceId st' = Some (sequenceId f) /\
      DecoderState.totalFrames st' = Some (totalFrames f) /\
      DecoderState.collectedFrames st' = ∅).
Proof.
  apply (addFrame_rejection_not_atomic
           (mkFrame 9 5 0x9ABC [1; 2; 3; 4; 5; 6; 7; 8; 9; 10] 0)).
  cbn. lia.
Defined.

(** ** Reed-Solomon decoding: the erasure budget *)

Lemma erasure_count_app d1 d2 :
  erasure_count (d1 ++ d2) = (erasure_count d1 + erasure_count d2)%nat.
Proof.
  induction d1 as [|[v|] d1 IH]; cbn; [reflexivity|exact IH|now rewrite IH].
Qed.

(** The first loop of [rsDecode] records one position per [null]. *)
Lemma erasurePositions_length (data : list (option Z)) (N : Z) (k : nat) :
  (k <= length data)%nat ->
  length (for_up k (fun i erasurePositions =>
            match data !! Z.to_nat i with
            | Some None => erasurePositions ++ [N - 1 - i]
            | _ => erasurePositions
            end) [])
  = erasure_count (take k data).
Proof.
  induction k as [|k IH]; intros Hk; [reflexivity|].
  rewrite for_up_S, Nat2Z.id.
  destruct (lookup_lt_is_Some_2 data k) as [x Hx]; [lia|].
  rewrite (take_S_r _ _ _ Hx), erasure_count_app, Hx.
  destruct x as [v|]; cbn [erasure_count].
  - rewrite IH by lia. lia.
  - rewrite length_app, IH by lia. reflexivity.
Qed.

(** C4: when more positions are erased than there are parity symbols,
    [rsDecode] returns [null], whatever the sequence and the data length. *)
Theorem rsDecode_beyond_budget (data : list (option Z)) (dataLength parityCount : Z) :
  Z.of_nat (erasure_count data) > parityCount ->
  rsDecode data dataLength parityCount = Ok None.
Proof.
  intros Hgt. unfold rsDecode.
  rewrite erasurePositions_length by lia.
  rewrite firstn_all.
  destruct (Z.gtb_spec (Z.of_nat (erasure_count data)) parityCount); [reflexivity|lia].
Qed.

Lemma rsDecode_beyond_budget_witness :
  rsDecode [Some 0x41; None; None; Some 0x37; None] 3 2 = Ok None.
Proof.
  apply (rsDecode_beyond_budget [Some 0x41; None; None; Some 0x37; None] 3 2).
  cbn. lia.
Defined.

(** ** The packet encoder: sizes *)

Lemma encodeData_frames s drawn :
  let p := encodeData s drawn in
  exists chunk : Z -> list Z,
    Packet.frames p =
    map (fun r => {| frameIndex := r;
                     totalFrames := Packet.totalFrames p;
                     sequenceId := drawn;
                     dataChunk := chunk r;
                     checksum := crc8 (chunk r) |})
        (zrange (Z.to_nat (Packet.totalFrames p))).
Proof.
  cbv zeta. unfold encodeData.
  cbn [Packet.frames Packet.totalFrames]. rewrite Nat2Z.id.
  eexists (fun r => _).
  rewrite <- for_up_push. reflexivity.
Qed.

(** A string of 2041 bytes gets 205 data frames and 52 parity frames, 257
    frames in all. *)
Lemma encodeData_257_frames :
  let p := encodeData (repeat 0x61 2041) 0 in
  Packet.dataFrames p = 205 /\ Packet.parityFrames p = 52 /\
  Packet.totalFrames p = 257 /\ ~ Packet.totalFrames p <= 255.
Proof.
  cbv zeta.
  assert (HD : Packet.dataFrames (encodeData (repeat 0x61 2041) 0) = 205)
    by (lazy; reflexivity).
  assert (HP : Packet.parityFrames (encodeData (repeat 0x61 2041) 0) = 52)
    by (lazy; reflexivity).
  assert (HT : Packet.totalFrames (encodeData (repeat 0x61 2041) 0) = 257)
    by (lazy; reflexivity).
  rewrite HD, HP, HT. repeat split; lia.
Qed.

(** The sizes of a packet: [encodeData] makes D = ceil(L/10) data frames,
    L being the UTF-8 length of the input, P = max(4, ceil(D/4)) parity
    frames and D + P frames in total, which is at most 255 exactly when L
    is at most 2040; [frames] holds D + P frames and the frame at
    position r has [frameIndex] r.  For the input "A", L = 1, D = 1, P = 4,
    there are 5 frames and frame 0 has the data chunk 0x41 followed by nine
    zeros. *)
Lemma encodeData_sizing :
  (forall (s : list Z) (drawn : Z),
      let L := Z.of_nat (length (TextEncoder_encode s)) in
      let p := encodeData s drawn in
      let D := Packet.dataFrames p in
      let P := Packet.parityFrames p in
      10 * (D - 1) < L <= 10 * D /\
      (exists q, 4 * (q - 1) < D <= 4 * q /\ P = Z.max 4 q) /\
      Packet.totalFrames p = D + P /\
      (Packet.totalFrames p <= 255 <-> L <= 2040) /\
      Z.of_nat (length (Packet.frames p)) = Packet.totalFrames p /\
      (forall (r : nat) f, Packet.frames p !! r = Some f -> frameIndex f = Z.of_nat r)) /\
  (forall drawn,
      let p := encodeData [0x41] drawn in
      Packet.originalDataLength p = 1 /\
      Packet.dataFrames p = 1 /\ Packet.parityFrames p = 4 /\
      Packet.totalFrames p = 5 /\
      dataChunk <$> Packet.frames p !! 0%nat = Some [0x41; 0; 0; 0; 0; 0; 0; 0; 0; 0]).
Proof.
  split.
  - intros s drawn L p D P.
    destruct (encodeData_frames s drawn) as [chunk Hframes]. fold p in Hframes.
    assert (HD : D = ceil_div L 10).
    { unfold D, p, encodeData; cbn [Packet.dataFrames]. fold L.
      rewrite Z2Nat.id; [reflexivity|].
      unfold ceil_div. apply Z.div_pos; lia. }
    assert (HP : P = Z.max 4 (ceil_div D 4)).
    { unfold P, D, p, encodeData; cbn [Packet.parityFrames Packet.dataFrames].
      unfold RS_MIN_PARITY_FRAMES.
      rewrite Nat2Z.inj_max, Z2Nat.id; [reflexivity|].
      unfold ceil_div. apply Z.div_pos; lia. }
    assert (HT : Packet.totalFrames p = D + P).
    { unfold P, D, p, encodeData;
        cbn [Packet.totalFrames Packet.parityFrames Packet.dataFrames]. lia. }
    assert (HL : 0 <= L) by (unfold L; lia).
    unfold ceil_div in HD, HP.
    repeat split.
    + Z.div_mod_to_equations; lia.
    + Z.div_mod_to_equations; lia.
    + exists ((D + 4 - 1) / 4). split; [Z.div_mod_to_equations; lia|exact HP].
    + exact HT.
    + intros Hle. Z.div_mod_to_equations; lia.
    + intros Hle. Z.div_mod_to_equations; lia.
    + rewrite Hframes, length_map, length_zrange.
      rewrite Z2Nat.id; [reflexivity|]. rewrite HT. Z.div_mod_to_equations; lia.
    + intros r f Hr. rewrite Hframes, list_lookup_fmap in Hr.
      destruct (zrange _ !! r) as [z|] eqn:Hz; [|discriminate].
      injection Hr as <-. cbn [frameIndex].
      assert (Hlt : (r < Z.to_nat (Packet.totalFrames p))%nat).
      { apply lookup_lt_Some in Hz. now rewrite length_zrange in Hz. }
      rewrite lookup_zrange in Hz by exact Hlt. congruence.
  - intros drawn. vm_compute. repeat split.
Qed.

(** ** Lossless round trip: loops that fill arrays *)

Lemma for_up_ext {S : Type} (n : nat) (body1 body2 : Z -> S -> S) (s : S) :
  (forall i a, 0 <= i < Z.of_nat n -> body1 i a = body2 i a) ->
  for_up n body1 s = for_up n body2 s.
Proof.
  induction n as [|n IH]; intros Hext; [reflexivity|].
  rewrite !for_up_S, IH by (intros; apply Hext; lia).
  apply Hext. lia.
Qed.

Lemma store_app_r (pre l : list Z) (i v : Z) :
  0 <= i ->
  store (pre ++ l) (Z.of_nat (length pre) + i) v = pre ++ store l i v.
Proof.
  intros Hi. unfold store.
  destruct (Z.leb_spec 0 (Z.of_nat (length pre) + i)); [|lia].
  destruct (Z.leb_spec 0 i); [|lia].
  replace (Z.to_nat (Z.of_nat (length pre) + i)) with (length pre + Z.to_nat i)%nat by lia.
  apply insert_app_r.
Qed.

(** A loop that stores one value per round into consecutive cells. *)
Lemma for_up_fill (n m : nat) (pre : list Z) (v : Z -> Z) :
  for_up n (fun i arr => store arr (Z.of_nat (length pre) + i) (v i))
    (pre ++ repeat 0 (n + m))
  = pre ++ map (fun i => u8 (v i)) (zrange n) ++ repeat 0 m.
Proof.
  revert m. induction n as [|n IH]; intros m; [reflexivity|].
  rewrite for_up_S.
  replace (S n + m)%nat with (n + S m)%nat by lia.
  rewrite IH. unfold zrange. rewrite seq_S, !map_app. cbn [map repeat Nat.add].
  rewrite app_assoc.
  replace (Z.of_nat (length pre) + Z.of_nat n)
    with (Z.of_nat (length (pre ++ map (fun i => u8 (v i)) (map Z.of_nat (seq 0 n)))) + 0)
    by (rewrite length_app, !length_map, length_seq; lia).
  rewrite store_app_r by lia.
  rewrite <- !app_assoc. reflexivity.
Qed.

Lemma for_up_fill_new (n : nat) (v : Z -> Z) :
  for_up n (fun i arr => store arr i (v i)) (newU8 n)
  = map (fun i => u8 (v i)) (zrange n).
Proof.
  pose proof (for_up_fill n 0 [] v) as Hf. cbn [length app Z.of_nat] in Hf.
  rewrite Nat.add_0_r, app_nil_r in Hf. exact Hf.
Qed.

Lemma get_map_zrange (f : Z -> Z) (n : nat) (i : Z) :
  0 <= i < Z.of_nat n -> get (map f (zrange n)) i = f i.
Proof.
  intros Hi. unfold get. destruct (Z.leb_spec 0 i); [|lia].
  rewrite list_lookup_fmap, lookup_zrange by lia. cbn. f_equal. lia.
Qed.

Lemma get_app_l (l1 l2 : list Z) i :
  0 <= i < Z.of_nat (length l1) -> get (l1 ++ l2) i = get l1 i.
Proof.
  intros Hi. unfold get. destruct (Z.leb_spec 0 i); [|lia].
  rewrite lookup_app_l by lia. reflexivity.
Qed.

Lemma map_get_zrange (l : list Z) :
  map (get l) (zrange (length l)) = l.
Proof.
  induction l as [|x l IH] using rev_ind; [reflexivity|].
  rewrite length_app. cbn [length]. rewrite Nat.add_1_r.
  unfold zrange in *. rewrite seq_S, !map_app. cbn [map Nat.add].
  f_equal.
  - etransitivity; [|exact IH]. rewrite !map_map. apply map_ext_in.
    intros i Hi. apply in_seq in Hi. apply get_app_l. lia.
  - unfold get. destruct (Z.leb_spec 0 (Z.of_nat (length l))); [|lia].
    rewrite Nat2Z.id, lookup_app_r, Nat.sub_diag by lia. reflexivity.
Qed.

Lemma drop_repeat_add {A : Type} (x : A) (k m : nat) :
  drop k (repeat x (k + m)) = repeat x m.
Proof. induction k as [|k IH]; [reflexivity|exact IH]. Qed.

(** [rsEncode] is systematic. *)
Lemma rsEncode_systematic (data : list Z) (parityCount : nat) :
  exists parity, length parity = parityCount /\
                 rsEncode data parityCount = data ++ parity.
Proof.
  unfold rsEncode.
  set (msgPoly := for_down _ _ _).
  exists (map (fun i => u8 (get msgPoly i)) (zrange parityCount)).
  split; [now rewrite length_map, length_zrange|].
  unfold typed_set, newU8.
  rewrite drop_repeat_add.
  replace parityCount with (parityCount + 0)%nat at 2 by lia.
  rewrite (for_up_fill parityCount 0 data (fun i => get msgPoly i)).
  now rewrite app_nil_r.
Qed.

Lemma map_get_zrange_take (l : list Z) (k : nat) :
  (k <= length l)%nat -> map (get l) (zrange k) = take k l.
Proof.
  intros Hk.
  rewrite <- (map_get_zrange (take k l)), length_take, Nat.min_l by lia.
  unfold zrange. rewrite !map_map. apply map_ext_in.
  intros i Hi. apply in_seq in Hi.
  rewrite <- (take_drop k l) at 1. apply get_app_l.
  rewrite length_take. lia.
Qed.

Lemma erasure_count_Some (vals : list Z) : erasure_count (map Some vals) = 0%nat.
Proof. induction vals as [|v vals IH]; [reflexivity|exact IH]. Qed.

Lemma map_zrange_ext {A : Type} (f g : Z -> A) (n : nat) :
  (forall i, 0 <= i < Z.of_nat n -> f i = g i) ->
  map f (zrange n) = map g (zrange n).
Proof.
  intros Hext. unfold zrange. rewrite !map_map. apply map_ext_in.
  intros i Hi. apply in_seq in Hi. apply Hext. lia.
Qed.

Lemma rsExtract_eq (received : list Z) (dataLength : Z) :
  0 <= dataLength ->
  rsExtract received dataLength
  = Ok (map (fun i => u8 (get received (Z.of_nat (length received) - 1 - i)))
            (zrange (Z.to_nat dataLength))).
Proof.
  intros Hdl. unfold rsExtract.
  destruct (Z.ltb_spec dataLength 0); [lia|].
  now rewrite for_up_fill_new.
Qed.

(** Without erasures [rsDecode] hands back the first [dataLength] symbols. *)
Lemma rsDecode_no_erasure (vals : list Z) (dataLength parityCount : Z) :
  0 <= dataLength <= Z.of_nat (length vals) -> 0 <= parityCount ->
  rsDecode (map Some vals) dataLength parityCount
  = Ok (Some (map u8 (take (Z.to_nat dataLength) vals))).
Proof.
  intros Hdl HP.
  assert (Hlen : length (map Some vals) = length vals) by apply length_map.
  unfold rsDecode. cbv zeta.
  set (eps := for_up (length (map Some vals)) _ []).
  assert (Heps : eps = []).
  { apply nil_length_inv. unfold eps.
    rewrite erasurePositions_length by lia.
    rewrite take_ge by lia. apply erasure_count_Some. }
  rewrite Heps. change (Z.of_nat (length [])) with 0.
  destruct (Z.gtb_spec 0 parityCount); [lia|].
  change (length [] =? 0)%nat with true. cbv iota.
  rewrite for_up_fill_new, rsExtract_eq by lia.
  cbn [bind]. do 2 f_equal.
  rewrite !length_map, length_zrange.
  rewrite <- map_get_zrange_take by lia.
  rewrite map_map. apply map_zrange_ext. intros i Hi.
  rewrite get_map_zrange by lia.
  replace (Z.to_nat (Z.of_nat (length vals) - 1 - (Z.of_nat (length vals) - 1 - i)))
    with (Z.to_nat i) by lia.
  rewrite list_lookup_fmap, u8_idemp. unfold get.
  destruct (Z.leb_spec 0 i); [|lia].
  destruct (vals !! Z.to_nat i) as [v|] eqn:Hv; cbn; [reflexivity|].
  apply lookup_ge_None in Hv. lia.
Qed.

(** ** Lossless round trip: the frames of a packet *)

Lemma dataFramesOf_bounds (L : nat) :
  (L <= dataFramesOf L * 10 < L + 10)%nat.
Proof.
  unfold dataFramesOf, ceil_div.
  assert (0 <= (Z.of_nat L + 10 - 1) / 10) by (apply Z.div_pos; lia).
  Z.div_mod_to_equations. lia.
Qed.

Lemma encodeData_chunks (s : list Z) (drawn : Z) :
  let raw := TextEncoder_encode s in
  let D := dataFramesOf (length raw) in
  let P := parityFramesOf D in
  Packet.frames (encodeData s drawn)
  = map (fun r => {| frameIndex := r;
                     totalFrames := Z.of_nat (D + P);
                     sequenceId := drawn;
                     dataChunk := chunk_of raw r;
                     checksum := crc8 (chunk_of raw r) |})
        (zrange (D + P)).
Proof.
  intros raw D P. unfold encodeData. cbv zeta. cbn [Packet.frames].
  fold raw. fold (dataFramesOf (length raw)). fold D. fold (parityFramesOf D). fold P.
  rewrite for_up_push. apply map_zrange_ext. intros r Hr.
  assert (Hchunk :
    for_up FRAME_DATA_SIZE (fun bytePos dataChunk =>
      store dataChunk bytePos
        (get (default []
           (for_up FRAME_DATA_SIZE (fun bytePos0 encodedColumns =>
              encodedColumns ++
              [rsEncode
                 (for_up D (fun frameIdx column =>
                    store column frameIdx
                      (get (typed_set (newU8 (D * FRAME_DATA_SIZE)) raw)
                         (frameIdx * Z.of_nat FRAME_DATA_SIZE + bytePos0)))
                    (newU8 D)) P]) [] !! Z.to_nat bytePos)) r))
      (newU8 FRAME_DATA_SIZE) = chunk_of raw r).
  { rewrite for_up_fill_new. unfold chunk_of. apply map_zrange_ext.
    intros c Hc. do 2 f_equal.
    rewrite for_up_push, list_lookup_fmap.
    unfold FRAME_DATA_SIZE. rewrite lookup_zrange by lia.
    cbn [fmap option_fmap option_map default from_option id].
    rewrite Z2Nat.id by lia. f_equal.
    rewrite for_up_fill_new. unfold column_of. fold D.
    apply map_zrange_ext. intros i Hi. do 2 f_equal.
    unfold typed_set, newU8, padded_of. fold D. f_equal.
    pose proof (dataFramesOf_bounds (length raw)) as Hb. fold D in Hb.
    replace (D * 10)%nat with (length raw + (D * 10 - length raw))%nat at 1 by lia.
    apply drop_repeat_add. }
  rewrite Hchunk. reflexivity.
Qed.

Lemma zrange_S n : zrange (S n) = zrange n ++ [Z.of_nat n].
Proof. unfold zrange. now rewrite seq_S, map_app. Qed.

Lemma zrange_add (a b : nat) :
  zrange (a + b) = zrange a ++ map (fun i => Z.of_nat a + i) (zrange b).
Proof.
  induction b as [|b IH].
  - now rewrite Nat.add_0_r, app_nil_r.
  - rewrite Nat.add_succ_r, !zrange_S, IH, map_app, <- app_assoc.
    cbn [map]. do 3 f_equal. lia.
Qed.

Lemma take_map_zrange {A : Type} (f : Z -> A) (k n : nat) :
  (k <= n)%nat -> take k (map f (zrange n)) = map f (zrange k).
Proof.
  intros Hk. replace n with (k + (n - k))%nat by lia.
  rewrite zrange_add, map_app, take_app_length'; [reflexivity|].
  now rewrite length_map, length_zrange.
Qed.

Lemma ceil_08_bounds t : 0 <= t -> 0 <= ceil_08 t <= t.
Proof.
  intros Ht. unfold ceil_08, ceil_div. Z.div_mod_to_equations. lia.
Qed.

Lemma addFrame_first (f : AuroraFrame) :
  0 <= frameIndex f < totalFrames f ->
  addFrame initial_state f
  = (true,
     {| DecoderState.sequenceId := Some (sequenceId f);
        DecoderState.totalFrames := Some (totalFrames f);
        DecoderState.dataFrames := Some (ceil_08 (totalFrames f));
        DecoderState.parityFrames := Some (totalFrames f - ceil_08 (totalFrames f));
        DecoderState.collectedFrames := {[ frameIndex f := f ]};
        DecoderState.originalDataLength := None |}).
Proof.
  intros Hidx. unfold addFrame, adopt, or0. cbn.
  destruct (decide (Some (sequenceId f) = Some (sequenceId f))); [|congruence].
  cbn.
  destruct (Z.ltb_spec (frameIndex f) 0); [lia|].
  destruct (Z.geb_spec (frameIndex f) (totalFrames f)); [lia|].
  cbn. now rewrite insert_empty.
Qed.

Lemma addFrame_next (st : DecoderState.t) (f : AuroraFrame) (t : Z) :
  DecoderState.sequenceId st = Some (sequenceId f) ->
  DecoderState.totalFrames st = Some t ->
  0 <= frameIndex f < t ->
  addFrame st f
  = (true,
     {| DecoderState.sequenceId := DecoderState.sequenceId st;
        DecoderState.totalFrames := DecoderState.totalFrames st;
        DecoderState.dataFrames := DecoderState.dataFrames st;
        DecoderState.parityFrames := DecoderState.parityFrames st;
        DecoderState.collectedFrames :=
          <[frameIndex f := f]> (DecoderState.collectedFrames st);
        DecoderState.originalDataLength := DecoderState.originalDataLength st |}).
Proof.
  destruct st as [sq tf df pf cf od]. cbn. intros -> -> Hidx.
  unfold addFrame, or0. cbn.
  destruct (decide (Some (sequenceId f) = Some (sequenceId f))); [|congruence].
  cbn.
  destruct (Z.ltb_spec (frameIndex f) 0); [lia|].
  destruct (Z.geb_spec (frameIndex f) t); [lia|].
  reflexivity.
Qed.

(** The decoder after the frames 0 .. k-1 of one packet of [n] frames. *)
Section AllFrames.
Variables (frame : Z -> AuroraFrame) (n : nat) (drawn : Z).
Hypothesis frame_index : forall r, frameIndex (frame r) = r.
Hypothesis frame_total : forall r, totalFrames (frame r) = Z.of_nat n.
Hypothesis frame_seq : forall r, sequenceId (frame r) = drawn.

Lemma addFrames_prefix (k : nat) :
  (1 <= k <= n)%nat ->
  exists collected : gmap Z AuroraFrame,
    addFrames initial_state (map frame (zrange k))
    = {| DecoderState.sequenceId := Some drawn;
         DecoderState.totalFrames := Some (Z.of_nat n);
         DecoderState.dataFrames := Some (ceil_08 (Z.of_nat n));
         DecoderState.parityFrames := Some (Z.of_nat n - ceil_08 (Z.of_nat n));
         DecoderState.collectedFrames := collected;
         DecoderState.originalDataLength := None |} /\
    size collected = k /\
    (forall i, 0 <= i < Z.of_nat k -> collected !! i = Some (frame i)) /\
    (forall i, ~ 0 <= i < Z.of_nat k -> collected !! i = None).
Proof using frame_index frame_total frame_seq.
  induction k as [|k IH]; intros Hk; [lia|].
  destruct (Nat.eq_dec k 0%nat) as [->|Hk0].
  - exists {[ 0 := frame 0 ]}.
    change (zrange 1) with [0]. cbn [map addFrames fold_left].
    rewrite addFrame_first by (rewrite frame_index, frame_total; lia).
    rewrite frame_seq, frame_total, frame_index. cbn [snd].
    refine (conj eq_refl (conj _ (conj _ _))).
    + apply map_size_singleton.
    + intros i Hi. replace i with 0 by lia. apply lookup_singleton_eq.
    + intros i Hi. apply lookup_singleton_ne. lia.
  - destruct IH as (coll & Hst & Hsize & Hin & Hout); [lia|].
    exists (<[Z.of_nat k := frame (Z.of_nat k)]> coll).
    rewrite zrange_S, map_app. cbn [map]. rewrite addFrames_snoc, Hst.
    rewrite (addFrame_next _ _ (Z.of_nat n));
      [|cbn; now rewrite frame_seq|reflexivity|rewrite frame_index; lia].
    cbn. rewrite frame_index.
    refine (conj eq_refl (conj _ (conj _ _))).
    + rewrite map_size_insert_None; [congruence|]. apply Hout. lia.
    + intros i Hi. destruct (Z.eq_dec i (Z.of_nat k)) as [->|Hne].
      * apply lookup_insert_eq.
      * rewrite lookup_insert_ne by congruence. apply Hin. lia.
    + intros i Hi. rewrite lookup_insert_ne by lia. apply Hout. lia.
Qed.
End AllFrames.

(** ** Lossless round trip: decoding a complete packet *)

Lemma for_up_r_S {S : Type} (n : nat) (body : Z -> S -> result S) (s : S) :
  for_up_r (Datatypes.S n) body s
  = bind (for_up_r n body s) (body (Z.of_nat n)).
Proof. unfold for_up_r. rewrite seq_S, fold_left_app. reflexivity. Qed.

(** A loop whose body never throws is a plain loop. *)
Lemma for_up_r_ok {S : Type} (n : nat) (body : Z -> S -> result S)
    (body' : Z -> S -> S) (s : S) :
  (forall i a, 0 <= i < Z.of_nat n -> body i a = Ok (body' i a)) ->
  for_up_r n body s = Ok (for_up n body' s).
Proof.
  induction n as [|n IH]; intros Hok; [reflexivity|].
  rewrite for_up_r_S, for_up_S, IH by (intros; apply Hok; lia).
  cbn [bind]. apply Hok. lia.
Qed.

Lemma for_up_Decoded (n : nat) (dec : Z -> list Z) :
  for_up n (fun c acc =>
              match acc with
              | GaveUp _ => acc
              | Decoded cols => Decoded (cols ++ [dec c])
              end) (Decoded [])
  = Decoded (map dec (zrange n)).
Proof.
  induction n as [|n IH]; [reflexivity|].
  now rewrite for_up_S, IH, zrange_S, map_app.
Qed.

(** Two nested loops that store row by row fill the array in row-major
    order. *)
Lemma for_up_fill_rows (rows : nat) (v : Z -> Z -> Z) :
  for_up rows (fun r arr =>
    for_up 10 (fun c arr => store arr (r * 10 + c) (v r c)) arr)
    (newU8 (rows * 10))
  = map (fun i => u8 (v (i / 10) (i mod 10))) (zrange (rows * 10)).
Proof.
  unfold newU8.
  enough (Hgen : forall k m,
    for_up k (fun r arr =>
      for_up 10 (fun c arr => store arr (r * 10 + c) (v r c)) arr)
      (repeat 0 (k * 10 + m))
    = map (fun i => u8 (v (i / 10) (i mod 10))) (zrange (k * 10)) ++ repeat 0 m).
  { specialize (Hgen rows 0%nat). rewrite Nat.add_0_r, app_nil_r in Hgen. exact Hgen. }
  induction k as [|k IH]; intros m; [reflexivity|].
  rewrite for_up_S.
  replace (S k * 10 + m)%nat with (k * 10 + (10 + m))%nat by lia.
  rewrite IH.
  set (pre := map _ (zrange (k * 10))).
  assert (Hpre : length pre = (k * 10)%nat)
    by (unfold pre; now rewrite length_map, length_zrange).
  rewrite (for_up_ext 10 _
             (fun c arr => store arr (Z.of_nat (length pre) + c) (v (Z.of_nat k) c)))
    by (intros; rewrite Hpre; do 2 f_equal; lia).
  rewrite for_up_fill.
  replace (S k * 10)%nat with (k * 10 + 10)%nat by lia.
  rewrite zrange_add, map_app. fold pre. rewrite <- app_assoc. do 2 f_equal.
  rewrite map_map. apply map_zrange_ext. intros c Hc.
  do 2 f_equal; Z.div_mod_to_equations; lia.
Qed.

Lemma decode_columns_all (frame : Z -> AuroraFrame) (n : nat) (drawn : Z)
    (collected : gmap Z AuroraFrame) :
  (forall i, 0 <= i < Z.of_nat n -> collected !! i = Some (frame i)) ->
  decode_columns (following n drawn collected) (Z.of_nat n)
    (ceil_08 (Z.of_nat n)) (Z.of_nat n - ceil_08 (Z.of_nat n))
  = Ok (Decoded (map (decodedColumn frame n) (zrange 10))).
Proof.
  intros collected_frames.
  pose proof (ceil_08_bounds (Z.of_nat n) ltac:(lia)) as Hb.
  unfold decode_columns, FRAME_DATA_SIZE.
  rewrite (for_up_r_ok 10 _
             (fun c acc => match acc with
                           | GaveUp _ => acc
                           | Decoded cols => Decoded (cols ++ [decodedColumn frame n c])
                           end)).
  - now rewrite for_up_Decoded.
  - intros c [cols|b] Hc; [|reflexivity].
    rewrite Nat2Z.id.
    rewrite (for_up_ext n _
               (fun frameIdx column =>
                  column ++ [Some (get (dataChunk (frame frameIdx)) c)])).
    2:{ intros i a Hi. unfold following. cbn [DecoderState.collectedFrames].
        now rewrite collected_frames by lia. }
    rewrite for_up_push.
    rewrite <- (map_map (fun r => get (dataChunk (frame r)) c) Some).
    rewrite rsDecode_no_erasure by (rewrite ?length_map, ?length_zrange; lia).
    cbn [bind]. do 3 f_equal.
    rewrite take_map_zrange by lia.
    unfold decodedColumn. now rewrite map_map.
Qed.

Lemma assemble_all (frame : Z -> AuroraFrame) (n : nat) :
  assemble (map (decodedColumn frame n) (zrange 10)) (ceil_08 (Z.of_nat n))
  = Ok (decodedBytes frame n).
Proof.
  pose proof (ceil_08_bounds (Z.of_nat n) ltac:(lia)) as Hb.
  unfold assemble, decodedBytes, FRAME_DATA_SIZE.
  destruct (Z.ltb_spec (ceil_08 (Z.of_nat n) * Z.of_nat 10) 0); [lia|].
  f_equal.
  replace (Z.to_nat (ceil_08 (Z.of_nat n) * Z.of_nat 10))
    with (Z.to_nat (ceil_08 (Z.of_nat n)) * 10)%nat by lia.
  set (Dd := Z.to_nat (ceil_08 (Z.of_nat n))).
  rewrite (for_up_ext Dd _
             (fun r arr =>
                for_up 10 (fun c arr =>
                  store arr (r * 10 + c) (u8 (get (dataChunk (frame r)) c))) arr)).
  - rewrite for_up_fill_rows. apply map_zrange_ext. intros i Hi. apply u8_idemp.
  - intros r a Hr. apply for_up_ext. intros c a' Hc. f_equal.
    rewrite list_lookup_fmap, lookup_zrange by lia.
    cbn [fmap option_fmap option_map default from_option id].
    rewrite Z2Nat.id by lia. unfold decodedColumn. fold Dd.
    now rewrite get_map_zrange by lia.
Qed.

(** [decode] when every frame of the packet has been collected. *)
Lemma decode_all (frame : Z -> AuroraFrame) (n : nat) (drawn : Z)
    (coll : gmap Z AuroraFrame) :
  size coll = n ->
  (forall i, 0 <= i < Z.of_nat n -> coll !! i = Some (frame i)) ->
  success (decode (following n drawn coll)) = true /\
  data (decode (following n drawn coll))
  = Some (trim_at_nul (TextDecoder_decode (decodedBytes frame n))).
Proof.
  intros collected_size collected_frames.
  pose proof (ceil_08_bounds (Z.of_nat n) ltac:(lia)) as Hb.
  unfold decode, getProgress.
  cbn [canDecode collected required total following
       DecoderState.collectedFrames DecoderState.totalFrames
       DecoderState.dataFrames DecoderState.parityFrames].
  rewrite collected_size. unfold or0. cbn [default from_option id].
  destruct (Z.geb_spec (Z.of_nat n) (ceil_08 (Z.of_nat n))); [|lia].
  cbn [negb]. cbv iota.
  fold (following n drawn coll).
  rewrite (decode_columns_all frame) by assumption. cbn [bind].
  rewrite assemble_all. cbn [bind success data]. split; reflexivity.
Qed.

(** ** Lossless round trip: UTF-8 *)

Lemma utf8_lead_1 b : 0 <= b <= 0x7F -> utf8_lead b = LeadEmit b.
Proof.
  intros Hb. unfold utf8_lead.
  destruct (Z.leb_spec 0 b); [|lia]. destruct (Z.leb_spec b 0x7F); [|lia].
  reflexivity.
Qed.

Lemma utf8_lead_2 b :
  0xC2 <= b <= 0xDF -> utf8_lead b = LeadOpen (b - 0xC0) 1 0x80 0xBF.
Proof.
  intros Hb. unfold utf8_lead.
  destruct (Z.leb_spec b 0x7F); [lia|]. rewrite andb_false_r.
  destruct (Z.leb_spec 0xC2 b); [|lia]. destruct (Z.leb_spec b 0xDF); [|lia].
  reflexivity.
Qed.

Lemma utf8_lead_3 b :
  0xE0 <= b <= 0xEF ->
  utf8_lead b = LeadOpen (b - 0xE0) 2 (if b =? 0xE0 then 0xA0 else 0x80)
                         (if b =? 0xED then 0x9F else 0xBF).
Proof.
  intros Hb. unfold utf8_lead.
  destruct (Z.leb_spec b 0x7F); [lia|]. rewrite andb_false_r.
  destruct (Z.leb_spec b 0xDF); [lia|]. rewrite andb_false_r.
  destruct (Z.leb_spec 0xE0 b); [|lia]. destruct (Z.leb_spec b 0xEF); [|lia].
  reflexivity.
Qed.

Lemma utf8_lead_4 b :
  0xF0 <= b <= 0xF4 ->
  utf8_lead b = LeadOpen (b - 0xF0) 3 (if b =? 0xF0 then 0x90 else 0x80)
                         (if b =? 0xF4 then 0x8F else 0xBF).
Proof.
  intros Hb. unfold utf8_lead.
  destruct (Z.leb_spec b 0x7F); [lia|]. rewrite andb_false_r.
  destruct (Z.leb_spec b 0xDF); [lia|]. rewrite andb_false_r.
  destruct (Z.leb_spec b 0xEF); [lia|]. rewrite andb_false_r.
  destruct (Z.leb_spec 0xF0 b); [|lia]. destruct (Z.leb_spec b 0xF4); [|lia].
  reflexivity.
Qed.

Lemma utf8_decode_start b rest :
  utf8_decode (b :: rest) 0 0 0x80 0xBF
  = match utf8_lead b with
    | LeadEmit c' => c' :: utf8_decode rest 0 0 0x80 0xBF
    | LeadOpen c' n lo hi => utf8_decode rest c' n lo hi
    | LeadError => 0xFFFD :: utf8_decode rest 0 0 0x80 0xBF
    end.
Proof. reflexivity. Qed.

Lemma utf8_decode_cont b rest c n lower upper :
  lower <= b <= upper ->
  utf8_decode (b :: rest) c (S n) lower upper
  = match n with
    | O => (c * 64 + (b - 0x80)) :: utf8_decode rest 0 0 0x80 0xBF
    | S _ => utf8_decode rest (c * 64 + (b - 0x80)) n 0x80 0xBF
    end.
Proof.
  intros Hb. cbn [utf8_decode].
  destruct (Z.leb_spec lower b); [|lia]. destruct (Z.leb_spec b upper); [|lia].
  reflexivity.
Qed.

(** The decoder reads back what the encoder writes for a scalar value. *)
Lemma utf8_decode_cp (c : Z) (rest : list Z) :
  scalar_value c ->
  utf8_decode (utf8_encode_cp c ++ rest) 0 0 0x80 0xBF
  = c :: utf8_decode rest 0 0 0x80 0xBF.
Proof.
  intros [Hc Hs]. unfold utf8_encode_cp. rewrite Hs.
  unfold is_surrogate in Hs. apply andb_false_iff in Hs.
  assert (Hsur : c < 0xD800 \/ 0xDFFF < c) by (destruct Hs; lia). clear Hs.
  destruct (Z.ltb_spec c 0x80).
  { cbn [app]. rewrite utf8_decode_start, utf8_lead_1 by lia. reflexivity. }
  destruct (Z.ltb_spec c 0x800).
  { cbn [app]. rewrite utf8_decode_start, utf8_lead_2
      by (Z.div_mod_to_equations; lia).
    rewrite utf8_decode_cont by (Z.div_mod_to_equations; lia).
    f_equal. Z.div_mod_to_equations; lia. }
  destruct (Z.ltb_spec c 0x10000).
  { cbn [app]. rewrite utf8_decode_start, utf8_lead_3
      by (Z.div_mod_to_equations; lia).
    rewrite utf8_decode_cont.
    2:{ destruct (Z.eqb_spec (0xE0 + c / 4096) 0xE0);
        destruct (Z.eqb_spec (0xE0 + c / 4096) 0xED);
        Z.div_mod_to_equations; lia. }
    rewrite utf8_decode_cont by (Z.div_mod_to_equations; lia).
    f_equal. Z.div_mod_to_equations; lia. }
  cbn [app]. rewrite utf8_decode_start, utf8_lead_4
    by (Z.div_mod_to_equations; lia).
  rewrite utf8_decode_cont.
  2:{ destruct (Z.eqb_spec (0xF0 + c / 262144) 0xF0);
      destruct (Z.eqb_spec (0xF0 + c / 262144) 0xF4);
      Z.div_mod_to_equations; lia. }
  rewrite utf8_decode_cont by (Z.div_mod_to_equations; lia).
  rewrite utf8_decode_cont by (Z.div_mod_to_equations; lia).
  f_equal. Z.div_mod_to_equations; lia.
Qed.

Lemma utf8_encode_cp_bytes (c : Z) :
  scalar_value c -> Forall is_byte (utf8_encode_cp c).
Proof.
  intros [Hc Hs]. unfold utf8_encode_cp. rewrite Hs. unfold is_byte.
  destruct (Z.ltb_spec c 0x80); [|destruct (Z.ltb_spec c 0x800);
    [|destruct (Z.ltb_spec c 0x10000)]];
    repeat constructor; Z.div_mod_to_equations; lia.
Qed.

Lemma utf8_encode_cp_nonempty (c : Z) : utf8_encode_cp c <> [].
Proof.
  unfold utf8_encode_cp.
  destruct (is_surrogate c); [discriminate|].
  destruct (c <? 0x80); [discriminate|].
  destruct (c <? 0x800); [discriminate|].
  destruct (c <? 0x10000); discriminate.
Qed.

Lemma TextEncoder_encode_bytes (s : list Z) :
  Forall scalar_value s -> Forall is_byte (TextEncoder_encode s).
Proof.
  induction 1 as [|c s Hc Hs IH]; [constructor|].
  cbn. apply Forall_app. split; [now apply utf8_encode_cp_bytes|exact IH].
Qed.

Lemma utf8_decode_encode (s rest : list Z) :
  Forall scalar_value s ->
  utf8_decode (TextEncoder_encode s ++ rest) 0 0 0x80 0xBF
  = s ++ utf8_decode rest 0 0 0x80 0xBF.
Proof.
  induction 1 as [|c s Hc Hs IH]; [reflexivity|].
  cbn [TextEncoder_encode flat_map]. rewrite <- app_assoc.
  rewrite utf8_decode_cp by exact Hc.
  cbn [app]. f_equal. exact IH.
Qed.

(** No byte order mark is found in front of a text that does not begin
    with U+FEFF. *)
Lemma TextDecoder_no_bom (c : Z) (rest : list Z) :
  scalar_value c -> c <> 0xFEFF ->
  TextDecoder_decode (utf8_encode_cp c ++ rest)
  = utf8_decode (utf8_encode_cp c ++ rest) 0 0 0x80 0xBF.
Proof.
  intros [Hc Hs] Hne. unfold utf8_encode_cp. rewrite Hs.
  unfold TextDecoder_decode.
  destruct (Z.ltb_spec c 0x80); [|destruct (Z.ltb_spec c 0x800);
    [|destruct (Z.ltb_spec c 0x10000)]]; cbn [app].
  - destruct rest as [|b1 [|b2 rest]]; try reflexivity.
    destruct (Z.eqb_spec c 0xEF); [lia|]. reflexivity.
  - destruct rest as [|b2 rest]; try reflexivity.
    destruct (Z.eqb_spec (0xC0 + c / 64) 0xEF);
      [Z.div_mod_to_equations; lia|]. reflexivity.
  - destruct (Z.eqb_spec (0xE0 + c / 4096) 0xEF); [|reflexivity].
    destruct (Z.eqb_spec (0x80 + (c / 64) mod 64) 0xBB); [|reflexivity].
    destruct (Z.eqb_spec (0x80 + c mod 64) 0xBF); [|reflexivity].
    exfalso. apply Hne. Z.div_mod_to_equations; lia.
  - destruct (Z.eqb_spec (0xF0 + c / 262144) 0xEF);
      [Z.div_mod_to_equations; lia|]. reflexivity.
Qed.

Lemma trim_at_nul_app (s rest : list Z) :
  Forall (fun c => c <> 0) s -> trim_at_nul (s ++ 0 :: rest) = s.
Proof.
  induction 1 as [|c s Hc Hs IH]; [reflexivity|].
  cbn. destruct (Z.eqb_spec c 0); [contradiction|]. now rewrite IH.
Qed.

(** Text decoding of the encoded text followed by padding. *)
Lemma decode_padded_text (s tail : list Z) :
  Forall scalar_value s -> Forall (fun c => c <> 0) s ->
  head s <> Some 0xFEFF ->
  trim_at_nul (TextDecoder_decode (TextEncoder_encode s ++ 0 :: tail)) = s.
Proof.
  intros Hs Hnul Hbom.
  assert (Hdec : TextDecoder_decode (TextEncoder_encode s ++ 0 :: tail)
                 = utf8_decode (TextEncoder_encode s ++ 0 :: tail) 0 0 0x80 0xBF).
  { destruct s as [|c s']; [destruct tail as [|b1 [|b2 tail]]; reflexivity|].
    cbn [TextEncoder_encode flat_map]. rewrite <- app_assoc.
    apply TextDecoder_no_bom.
    - now inversion Hs.
    - intros ->. now apply Hbom. }
  rewrite Hdec, utf8_decode_encode by exact Hs.
  rewrite utf8_decode_start, utf8_lead_1 by lia.
  now apply trim_at_nul_app.
Qed.

(** ** Lossless round trip *)

Lemma get_byte (l : list Z) (i : Z) : Forall is_byte l -> is_byte (get l i).
Proof.
  intros Hl. unfold get.
  destruct (0 <=? i); [|unfold is_byte; lia].
  destruct (l !! Z.to_nat i) as [x|] eqn:Hx; cbn; [|unfold is_byte; lia].
  rewrite Forall_forall in Hl. apply Hl.
  eapply list_elem_of_lookup_2. exact Hx.
Qed.

Lemma parityFramesOf_bounds (D : nat) :
  (4 <= parityFramesOf D)%nat /\ (D <= 4 * parityFramesOf D)%nat.
Proof.
  unfold parityFramesOf, RS_MIN_PARITY_FRAMES, ceil_div.
  assert (0 <= (Z.of_nat D + 4 - 1) / 4) by (apply Z.div_pos; lia).
  split; [lia|]. Z.div_mod_to_equations. lia.
Qed.

Lemma padded_of_length (raw : list Z) :
  length (padded_of raw) = (dataFramesOf (length raw) * 10)%nat.
Proof.
  unfold padded_of. rewrite length_app, repeat_length.
  pose proof (dataFramesOf_bounds (length raw)). lia.
Qed.

Lemma padded_of_bytes (raw : list Z) :
  Forall is_byte raw -> Forall is_byte (padded_of raw).
Proof.
  intros Hraw. unfold padded_of. apply Forall_app. split; [exact Hraw|].
  induction (dataFramesOf (length raw) * 10 - length raw)%nat as [|k IH];
    constructor; [unfold is_byte; lia|exact IH].
Qed.

(** The data rows of the packet are the rows of the padded text. *)
Lemma chunk_of_data (raw : list Z) (r c : Z) :
  Forall is_byte raw ->
  0 <= r < Z.of_nat (dataFramesOf (length raw)) -> 0 <= c < 10 ->
  get (chunk_of raw r) c = get (padded_of raw) (r * 10 + c).
Proof.
  intros Hraw Hr Hc. unfold chunk_of.
  rewrite get_map_zrange by lia.
  destruct (rsEncode_systematic (column_of raw c)
              (parityFramesOf (dataFramesOf (length raw)))) as (parity & _ & ->).
  assert (Hlen : length (column_of raw c) = dataFramesOf (length raw))
    by (unfold column_of; now rewrite length_map, length_zrange).
  rewrite get_app_l by lia.
  unfold column_of. rewrite get_map_zrange by lia.
  rewrite u8_idemp. apply u8_byte, get_byte, padded_of_bytes, Hraw.
Qed.

Lemma trim_at_nul_id (s : list Z) :
  Forall (fun c => c <> 0) s -> trim_at_nul s = s.
Proof.
  induction 1 as [|c s Hc Hs IH]; [reflexivity|].
  cbn. destruct (Z.eqb_spec c 0); [contradiction|]. now rewrite IH.
Qed.

Lemma decode_unpadded_text (s : list Z) :
  Forall scalar_value s -> Forall (fun c => c <> 0) s ->
  head s <> Some 0xFEFF ->
  trim_at_nul (TextDecoder_decode (TextEncoder_encode s)) = s.
Proof.
  intros Hs Hnul Hbom.
  assert (Hdec : TextDecoder_decode (TextEncoder_encode s)
                 = utf8_decode (TextEncoder_encode s) 0 0 0x80 0xBF).
  { destruct s as [|c s']; [reflexivity|].
    cbn [TextEncoder_encode flat_map].
    apply TextDecoder_no_bom.
    - now inversion Hs.
    - intros ->. now apply Hbom. }
  rewrite Hdec. rewrite <- (app_nil_r (TextEncoder_encode s)).
  rewrite utf8_decode_encode by exact Hs.
  cbn [utf8_decode]. rewrite app_nil_r. now apply trim_at_nul_id.
Qed.

(** What the decoder reassembles from a complete packet starts with the
    padded text. *)
Lemma decodedBytes_padded (raw : list Z) (drawn : Z) :
  Forall is_byte raw ->
  let D := dataFramesOf (length raw) in
  let n := (D + parityFramesOf D)%nat in
  exists rest,
    decodedBytes (frame_of raw drawn) n = padded_of raw ++ rest /\
    (ceil_08 (Z.of_nat n) = Z.of_nat D -> rest = []).
Proof.
  intros Hraw D n.
  pose proof (parityFramesOf_bounds D) as [HP4 HPD].
  pose proof (ceil_08_bounds (Z.of_nat n) ltac:(lia)) as Hb.
  assert (HDd : (D <= Z.to_nat (ceil_08 (Z.of_nat n)))%nat).
  { unfold ceil_08, ceil_div in *. unfold n in *.
    Z.div_mod_to_equations. lia. }
  unfold decodedBytes.
  replace (Z.to_nat (ceil_08 (Z.of_nat n)) * 10)%nat
    with (D * 10 + (Z.to_nat (ceil_08 (Z.of_nat n)) - D) * 10)%nat by lia.
  rewrite zrange_add, map_app.
  eexists. split.
  - f_equal.
    etransitivity; [|apply (map_get_zrange (padded_of raw))].
    rewrite padded_of_length. fold D.
    apply map_zrange_ext. intros i Hi.
    cbn [frame_of dataChunk].
    rewrite chunk_of_data; try assumption; fold D;
      try (Z.div_mod_to_equations; lia).
    rewrite u8_byte by (apply get_byte, padded_of_bytes, Hraw).
    f_equal. Z.div_mod_to_equations; lia.
  - intros Heq. rewrite Heq, Nat2Z.id, Nat.sub_diag. reflexivity.
Qed.

Lemma elem_of_zrange (n : nat) (i : Z) : i ∈ zrange n <-> 0 <= i < Z.of_nat n.
Proof.
  unfold zrange. rewrite list_elem_of_fmap. split.
  - intros (k & -> & Hk). apply elem_of_seq in Hk. lia.
  - intros Hi. exists (Z.to_nat i). split; [lia|]. apply elem_of_seq. lia.
Qed.

(** The decoder after frames of one packet, in any order and with
    repetitions: it holds the frames whose index occurs in [l]. *)
Lemma addFrames_members (frame : Z -> AuroraFrame) (n : nat) (drawn : Z)
    (l : list Z) :
  (forall r, frameIndex (frame r) = r) ->
  (forall r, totalFrames (frame r) = Z.of_nat n) ->
  (forall r, sequenceId (frame r) = drawn) ->
  l <> [] -> Forall (fun r => 0 <= r < Z.of_nat n) l ->
  exists coll : gmap Z AuroraFrame,
    addFrames initial_state (map frame l) = following n drawn coll /\
    (forall i, i ∈ l -> coll !! i = Some (frame i)) /\
    (forall i, i ∉ l -> coll !! i = None).
Proof.
  intros Hidx Htot Hseq.
  induction l as [|r l IH] using rev_ind; intros Hne Hall; [congruence|].
  apply Forall_app in Hall. destruct Hall as [Hall Hr].
  apply Forall_cons_1 in Hr. destruct Hr as [Hr _].
  rewrite map_app. cbn [map]. rewrite addFrames_snoc.
  destruct (decide (l = [])) as [->|Hl].
  - exists {[ r := frame r ]}. cbn [map addFrames fold_left].
    rewrite addFrame_first by (rewrite Hidx, Htot; lia).
    rewrite Hseq, Htot, Hidx. cbn [snd].
    refine (conj eq_refl (conj _ _)).
    + intros i Hi. apply list_elem_of_singleton in Hi. subst i.
      apply lookup_singleton_eq.
    + intros i Hi. apply lookup_singleton_ne. intros ->. apply Hi.
      now apply list_elem_of_singleton.
  - destruct IH as (coll & Hst & Hin & Hout); [exact Hl|exact Hall|].
    rewrite Hst.
    exists (<[r := frame r]> coll).
    rewrite (addFrame_next _ _ (Z.of_nat n));
      [|cbn; now rewrite Hseq|reflexivity|rewrite Hidx; lia].
    cbn. rewrite Hidx.
    refine (conj eq_refl (conj _ _)).
    + intros i Hi. destruct (Z.eq_dec i r) as [->|Hne'].
      * apply lookup_insert_eq.
      * rewrite lookup_insert_ne by congruence. apply Hin.
        apply elem_of_app in Hi. destruct Hi as [Hi|Hi]; [exact Hi|].
        apply list_elem_of_singleton in Hi. contradiction.
    + intros i Hi. rewrite lookup_insert_ne.
      * apply Hout. intros Hi'. apply Hi. apply elem_of_app. now left.
      * intros ->. apply Hi. apply elem_of_app. right.
        now apply list_elem_of_singleton.
Qed.

(** The order in which the frames of a packet arrive does not matter. *)
Lemma addFrames_permutation (frame : Z -> AuroraFrame) (n : nat) (drawn : Z)
    (l : list Z) :
  (forall r, frameIndex (frame r) = r) ->
  (forall r, totalFrames (frame r) = Z.of_nat n) ->
  (forall r, sequenceId (frame r) = drawn) ->
  (1 <= n)%nat -> Permutation l (zrange n) ->
  addFrames initial_state (map frame l)
  = addFrames initial_state (map frame (zrange n)).
Proof.
  intros Hidx Htot Hseq Hn Hperm.
  assert (Hmem : forall i, i ∈ l <-> 0 <= i < Z.of_nat n).
  { intros i. rewrite Hperm. apply elem_of_zrange. }
  destruct (addFrames_members frame n drawn l Hidx Htot Hseq)
    as (c1 & -> & Hin1 & Hout1).
  { intros ->. apply Permutation_nil in Hperm.
    destruct n; [lia|]. rewrite zrange_S in Hperm.
    destruct (zrange n); discriminate. }
  { apply Forall_forall. intros i Hi. now apply Hmem. }
  destruct (addFrames_members frame n drawn (zrange n) Hidx Htot Hseq)
    as (c2 & -> & Hin2 & Hout2).
  { destruct n; [lia|]. rewrite zrange_S. destruct (zrange n); discriminate. }
  { apply Forall_forall. intros i Hi. now apply elem_of_zrange. }
  f_equal. apply map_eq. intros i.
  destruct (decide (0 <= i < Z.of_nat n)) as [Hi|Hi].
  - rewrite Hin1, Hin2; [reflexivity|now apply elem_of_zrange|now apply Hmem].
  - rewrite Hout1, Hout2; [reflexivity| |]; intros Hi'; apply Hi.
    + now apply elem_of_zrange.
    + now apply Hmem.
Qed.

(** The text the receiver gets when the frames [fs] arrive in that order. *)
Lemma decodeFromFrames_eq (fs : list AuroraFrame) :
  decodeFromFrames fs = decode (addFrames initial_state fs).
Proof. reflexivity. Qed.

(** Three texts that do not survive the lossless round trip.  A text with U+0000 inside is cut there; a leading U+FEFF
    is dropped; a text of exactly 10 bytes comes back followed by 30
    characters decoded from parity rows, because the decoder takes
    ceil(5 * 0.8) = 4 of the 5 frames to be data frames. *)
Lemma roundtrip_counterexamples :
  (let s := [0x61; 0; 0x62] in
   data (decodeFromFrames (Packet.frames (encodeData s 0x1234))) = Some [0x61]) /\
  (let s := [0xFEFF; 0x61] in
   data (decodeFromFrames (Packet.frames (encodeData s 0x1234))) = Some [0x61]) /\
  (let s := ascii_codes "0123456789" in
   exists garbage,
     length garbage = 30%nat /\
     data (decodeFromFrames (Packet.frames (encodeData s 0x1234)))
     = Some (s ++ garbage)) /\
  (forall s : list Z,
      In s [[0x61; 0; 0x62]; [0xFEFF; 0x61]; ascii_codes "0123456789"] ->
      (1 <= length (TextEncoder_encode s))%nat /\
      data (decodeFromFrames (Packet.frames (encodeData s 0x1234))) <> Some s).
Proof.
  split; [vm_compute; reflexivity|].
  split; [vm_compute; reflexivity|].
  split.
  - eexists. split; [|vm_compute; reflexivity]. reflexivity.
  - intros s [<-|[<-|[<-|[]]]]; split;
      try (vm_compute; lia); vm_compute; discriminate.
Qed.

(** The round trip that holds.  For every well-formed text [s] without
    U+0000 that does not begin with U+FEFF, whose UTF-8 encoding has
    length L >= 1, and for which L is not a multiple of 10 or the decoder's
    estimate
    ceil(0.8 * totalFrames) equals the number of data frames: when the
    frames [encodeData] emits are added to a new decoder, in any order,
    [decode] succeeds and returns exactly [s]. *)
Lemma lossless_roundtrip (s : list Z) (drawn : Z) (fs : list AuroraFrame) :
  let L := length (TextEncoder_encode s) in
  let p := encodeData s drawn in
  Forall scalar_value s ->
  Forall (fun c => c <> 0) s ->
  head s <> Some 0xFEFF ->
  (1 <= L)%nat ->
  (L mod 10 <> 0)%nat \/ ceil_08 (Packet.totalFrames p) = Packet.dataFrames p ->
  Permutation fs (Packet.frames p) ->
  let res := decodeFromFrames fs in
  success res = true /\ data res = Some s.
Proof.
  intros L p Hs Hnul Hbom HL Hcase Hperm res.
  set (raw := TextEncoder_encode s) in *.
  set (D := dataFramesOf (length raw)).
  set (P := parityFramesOf D).
  set (n := (D + P)%nat).
  pose proof (parityFramesOf_bounds D) as [HP4 HPD]. fold P in HP4, HPD.
  pose proof (dataFramesOf_bounds (length raw)) as HD. fold D in HD.
  assert (Hraw : Forall is_byte raw) by now apply TextEncoder_encode_bytes.
  unfold p in Hperm. rewrite encodeData_chunks in Hperm. fold raw D P n in Hperm.
  change (fun r : Z => {| frameIndex := r;
                          totalFrames := Z.of_nat n;
                          sequenceId := drawn;
                          dataChunk := chunk_of raw r;
                          checksum := crc8 (chunk_of raw r) |})
    with (frame_of raw drawn) in Hperm.
  apply Permutation_map_inv in Hperm. destruct Hperm as (l & -> & Hl).
  unfold res. rewrite decodeFromFrames_eq.
  rewrite (addFrames_permutation (frame_of raw drawn) n drawn l)
    by (try reflexivity; try lia; now symmetry).
  destruct (addFrames_prefix (frame_of raw drawn) n drawn
              (fun _ => eq_refl) (fun _ => eq_refl) (fun _ => eq_refl) n)
    as (coll & -> & Hsize & Hin & _); [lia|].
  fold (following n drawn coll).
  destruct (decode_all (frame_of raw drawn) n drawn coll Hsize Hin) as [Hok Hdata].
  split; [exact Hok|]. rewrite Hdata. f_equal.
  destruct (decodedBytes_padded raw drawn Hraw) as (rest & Hbytes & Hrest).
  fold D P n in Hbytes, Hrest. rewrite Hbytes.
  unfold padded_of. fold D.
  destruct (D * 10 - length raw)%nat as [|k] eqn:Hpad.
  - assert (Hnil : rest = []).
    { apply Hrest. destruct Hcase as [Hmod|Heq].
      - exfalso. apply Hmod. fold raw in L. unfold L.
        replace (length raw) with (D * 10)%nat by lia.
        apply Nat.Div0.mod_mul.
      - unfold p, encodeData in Heq.
        cbn [Packet.totalFrames Packet.dataFrames] in Heq. exact Heq. }
    rewrite Hnil. cbn [repeat]. rewrite !app_nil_r.
    now apply decode_unpadded_text.
  - cbn [repeat]. rewrite <- app_assoc. cbn [app].
    now apply decode_padded_text.
Qed.

Lemma lossless_roundtrip_witness :
  let s := ascii_codes "Hello Aurora!" in
  let res := decodeFromFrames (rev (Packet.frames (encodeData s 0x1234))) in
  success res = true /\ data res = Some s.
Proof.
  apply (lossless_roundtrip (ascii_codes "Hello Aurora!") 0x1234
           (rev (Packet.frames (encodeData (ascii_codes "Hello Aurora!") 0x1234)))).
  - unfold scalar_value. repeat constructor; vm_compute; congruence.
  - repeat constructor; vm_compute; congruence.
  - vm_compute. congruence.
  - vm_compute. lia.
  - left. vm_compute. lia.
  - symmetry. apply Permutation_rev.
Defined.

(** ** A text that fills its data frames *)

(** C1: the text "0123456789" has 10 UTF-8 bytes: one data frame and four
    parity frames, five in all, whatever the sequence id drawn.  With all
    five frames added to a new decoder, the decoder takes
    ceil(5 * 0.8) = 4 of them to be data frames, and [decode] succeeds
    with the text followed by 30 characters decoded from the first three
    parity frames. *)
Theorem ten_byte_text_roundtrip (drawn : Z) :
  let s := ascii_codes "0123456789" in
  let p := encodeData s drawn in
  let res := decodeFromFrames (Packet.frames p) in
  Packet.dataFrames p = 1 /\ Packet.parityFrames p = 4 /\
  Packet.totalFrames p = 5 /\
  required (getProgress (addFrames initial_state (Packet.frames p))) = 4 /\
  success res = true /\
  data res
  = Some (s ++ [0xFFFD; 0xFFFD; 28; 92; 0xFFFD; 0xFFFD; 1; 65; 0xFFFD; 0xFFFD;
                104; 16; 0xFFFD; 0xFFFD; 0xFFFD; 0xFFFD; 101; 29; 0xFFFD; 0xFFFD;
                0xFFFD; 0xFFFD; 0xFFFD; 0xFFFD; 17; 39; 125; 75; 100; 82]) /\
  data res <> Some s.
Proof.
  cbv zeta.
  set (s := ascii_codes "0123456789").
  assert (Hfs : Packet.frames (encodeData s drawn)
                = map (frame_of (TextEncoder_encode s) drawn) (zrange 5)).
  { rewrite encodeData_chunks. reflexivity. }
  split; [reflexivity|]. split; [reflexivity|]. split; [reflexivity|].
  rewrite decodeFromFrames_eq, Hfs.
  destruct (addFrames_prefix (frame_of (TextEncoder_encode s) drawn) 5 drawn
              (fun _ => eq_refl) (fun _ => eq_refl) (fun _ => eq_refl) 5)
    as (coll & -> & Hsize & Hin & _); [lia|].
  split; [reflexivity|].
  fold (following 5 drawn coll).
  destruct (decode_all (frame_of (TextEncoder_encode s) drawn) 5 drawn coll Hsize Hin)
    as [Hok Hdata].
  split; [exact Hok|].
  assert (Hd : data (decode (following 5 drawn coll))
               = Some (s ++ [0xFFFD; 0xFFFD; 28; 92; 0xFFFD; 0xFFFD; 1; 65; 0xFFFD; 0xFFFD;
                104; 16; 0xFFFD; 0xFFFD; 0xFFFD; 0xFFFD; 101; 29; 0xFFFD; 0xFFFD;
                0xFFFD; 0xFFFD; 0xFFFD; 0xFFFD; 17; 39; 125; 75; 100; 82])).
  { rewrite Hdata. vm_compute. reflexivity. }
  split; [exact Hd|].
  rewrite Hd. vm_compute. discriminate.
Qed.

(** ** Reed-Solomon decoding: erasures *)

(** The Reed-Solomon round trip without erasures. *)
Lemma rs_roundtrip_no_erasure (data : list Z) (parityCount : nat) :
  Forall is_byte data ->
  rsDecode (map Some (rsEncode data parityCount))
           (Z.of_nat (length data)) (Z.of_nat parityCount)
  = Ok (Some data).
Proof.
  intros Hdata.
  destruct (rsEncode_systematic data parityCount) as (parity & Hlen & ->).
  rewrite rsDecode_no_erasure by (rewrite ?length_app; lia).
  rewrite Nat2Z.id, take_app_length. do 2 f_equal.
  induction Hdata as [|x l Hx Hl IH]; [reflexivity|].
  cbn [map]. now rewrite u8_byte, IH.
Qed.

(** C3: [rsDecode] run on codewords with erasures within the budget.  The
    codeword of [1] with one parity symbol is [1; 1]; with its first symbol
    erased [rsDecode] answers [4].  The codeword of "Hi!" with four parity
    symbols, its second symbol erased, is decoded to "H", 0x99, "!". *)
Theorem rsDecode_erasure_examples :
  rsEncode [1] 1 = [1; 1] /\
  rsDecode [None; Some 1] 1 1 = Ok (Some [4]) /\
  rsEncode [0x48; 0x69; 0x21] 4 = [0x48; 0x69; 0x21; 161; 160; 200; 201] /\
  rsDecode [Some 0x48; None; Some 0x21; Some 161; Some 160; Some 200; Some 201] 3 4
  = Ok (Some [0x48; 0x99; 0x21]).
Proof. vm_compute. repeat split. Qed.

(** ** Decoding a packet that lost frames *)

(** C2: the packet of "Hello Aurora!" has 2 data frames and 4 parity
    frames.  Without the frames 1 and 3 the decoder, which takes
    ceil(6 * 0.8) = 5 frames to be data frames, refuses to decode: 4 frames
    collected, 5 required.  Without frame 1 alone it decodes, to a text
    that is not the input. *)
Theorem hello_aurora_lost_frames :
  let s := ascii_codes "Hello Aurora!" in
  let p := encodeData s 0x1234 in
  Packet.dataFrames p = 2 /\ Packet.parityFrames p = 4 /\
  Packet.totalFrames p = 6 /\
  decodeFromFrames (drop_frames [1; 3] (Packet.frames p))
  = {| success := false; data := None;
       error := Some (InsufficientFrames 4 5);
       stats := {| stats_totalFrames := 6; stats_collectedFrames := 4;
                   missingFrames := [1; 3]; recoveredFrames := 0 |} |} /\
  success (decodeFromFrames (drop_frames [1] (Packet.frames p))) = true /\
  data (decodeFromFrames (drop_frames [1] (Packet.frames p)))
  = Some (ascii_codes "Hello Auro" ++ [0x63; 0xFFFD; 0xFFFD]).
Proof. vm_compute. repeat split. Qed.

(** * Further properties of the code *)

Ltac forall_lia :=
  repeat first [ apply Forall_nil_2
               | apply Forall_cons_2; [unfold is_byte; cbv beta; lia|] ].

(** ** The bit operators on arbitrary integers *)

Lemma toInt32_congr x : exists q, toInt32 x = x - 0x100000000 * q.
Proof.
  unfold toInt32. exists ((x + 0x80000000) / 0x100000000).
  Z.div_mod_to_equations. lia.
Qed.

Lemma js_and_ff_all x : js_and x 0xff = x mod 256.
Proof.
  unfold js_and. change (toInt32 255) with (Z.ones 8).
  rewrite Z.land_ones by lia. change (2 ^ 8) with 256.
  destruct (toInt32_congr x) as [q ->]. Z.div_mod_to_equations. lia.
Qed.

Lemma js_and_0f_all x : js_and x 0x0f = x mod 16.
Proof.
  unfold js_and. change (toInt32 15) with (Z.ones 4).
  rewrite Z.land_ones by lia. change (2 ^ 4) with 16.
  destruct (toInt32_congr x) as [q ->]. Z.div_mod_to_equations. lia.
Qed.

Lemma js_shr_all x k : 0 <= k < 32 -> js_shr x k = toInt32 x / 2 ^ k.
Proof.
  intros Hk. unfold js_shr. rewrite Z.mod_small by lia.
  apply Z.shiftr_div_pow2. lia.
Qed.

Lemma js_shr8_and_ff_all x : js_and (js_shr x 8) 0xff = (x / 256) mod 256.
Proof.
  rewrite js_and_ff_all, js_shr_all by lia. change (2 ^ 8) with 256.
  destruct (toInt32_congr x) as [q ->]. Z.div_mod_to_equations. lia.
Qed.

Lemma nibbles_join h l :
  0 <= h < 16 -> 0 <= l < 16 -> js_or (js_shl h 4) l = h * 16 + l.
Proof.
  intros Hh Hl.
  assert (Hb : 0 <= h * 16 + l < Z.of_nat 256) by lia.
  check_range 256%nat
    (fun b => js_or (js_shl (b / 16) 4) (b mod 16) =? b) (h * 16 + l) Hb as Hc.
  replace ((h * 16 + l) / 16) with h in Hc by (Z.div_mod_to_equations; lia).
  replace ((h * 16 + l) mod 16) with l in Hc by (Z.div_mod_to_equations; lia).
  lia.
Qed.

Lemma paletteIndicesToByte_all (high low : Z) :
  paletteIndicesToByte high low = (high mod 16) * 16 + low mod 16.
Proof.
  unfold paletteIndicesToByte. rewrite !js_and_0f_all.
  apply nibbles_join; apply Z.mod_pos_bound; lia.
Qed.

Lemma byteToPaletteIndices_all (byte : Z) :
  byteToPaletteIndices byte = ((byte / 16) mod 16, byte mod 16).
Proof.
  unfold byteToPaletteIndices. rewrite !js_and_0f_all, js_shr_all by lia.
  f_equal. change (2 ^ 4) with 16.
  destruct (toInt32_congr byte) as [q ->]. Z.div_mod_to_equations. lia.
Qed.

(** ** Bytes and symbols *)

(** X1: for every integer, [byteToPaletteIndices] gives the two 4-bit
    digits of the low byte, both in 0..15, [paletteIndicesToByte] keeps the
    low four bits of each index, and joining the two symbols of a byte gives
    the byte back modulo 256. *)
Theorem nibble_roundtrip (byte high low : Z) :
  byteToPaletteIndices byte = ((byte / 16) mod 16, byte mod 16) /\
  0 <= fst (byteToPaletteIndices byte) < 16 /\
  0 <= snd (byteToPaletteIndices byte) < 16 /\
  paletteIndicesToByte high low = (high mod 16) * 16 + low mod 16 /\
  paletteIndicesToByte (fst (byteToPaletteIndices byte))
                       (snd (byteToPaletteIndices byte)) = byte mod 256.
Proof.
  rewrite byteToPaletteIndices_all, !paletteIndicesToByte_all. cbn [fst snd].
  split; [reflexivity|].
  repeat split; try (apply Z.mod_pos_bound; lia).
  rewrite !Z.mod_mod by lia. Z.div_mod_to_equations. lia.
Qed.

(** ** The 16 bytes of a frame *)

#[local] Opaque u8 js_and js_or js_shl js_shr.

Lemma serializeFrame_cells (f : AuroraFrame) :
  serializeFrame f
  = [u8 (js_and (frameIndex f) 0xff); u8 (js_and (totalFrames f) 0xff);
     u8 (js_and (js_shr (sequenceId f) 8) 0xff); u8 (js_and (sequenceId f) 0xff)]
    ++ map (fun i => u8 (get (dataChunk f) i)) (zrange 10)
    ++ [u8 (js_and (checksum f) 0xff); u8 0].
Proof.
  destruct f as [fi tf sid chunk ck]. cbn [frameIndex totalFrames sequenceId dataChunk checksum].
  unfold serializeFrame, FRAME_DATA_SIZE, FRAME_TOTAL_SIZE.
  cbn [frameIndex totalFrames sequenceId dataChunk checksum].
  set (v := fun i => get chunk i).
  change (for_up 10 (fun i result => store result (4 + i) (get chunk i)))
    with (for_up 10 (fun i result => store result (4 + i) (v i))).
  change (map (fun i => u8 (get chunk i)) (zrange 10))
    with (map (fun i => u8 (v i)) (zrange 10)).
  clearbody v. cbv -[u8 js_and js_or js_shl js_shr]. reflexivity.
Qed.

#[local] Transparent u8 js_and js_or js_shl js_shr.

Lemma serializeFrame_bytes (f : AuroraFrame) :
  serializeFrame f
  = [frameIndex f mod 256; totalFrames f mod 256;
     (sequenceId f / 256) mod 256; sequenceId f mod 256]
    ++ map (fun i => get (dataChunk f) i mod 256) (zrange 10)
    ++ [checksum f mod 256; 0].
Proof.
  rewrite serializeFrame_cells.
  rewrite js_shr8_and_ff_all, !js_and_ff_all.
  rewrite !(u8_byte (_ mod 256)) by (apply Z.mod_pos_bound; lia).
  reflexivity.
Qed.

Lemma serializeFrame_is_bytes (f : AuroraFrame) :
  length (serializeFrame f) = 16%nat /\ Forall is_byte (serializeFrame f).
Proof.
  rewrite serializeFrame_bytes. split; [reflexivity|].
  assert (Hm : forall x, is_byte (x mod 256)) by (intros; apply Z.mod_pos_bound; lia).
  assert (H0 : is_byte 0) by (unfold is_byte; lia).
  apply Forall_app. split.
  { repeat (first [apply Forall_nil_2 | apply Forall_cons_2; [apply Hm|]]). }
  apply Forall_app. split.
  - apply Forall_forall. intros x Hx. apply list_elem_of_fmap in Hx.
    destruct Hx as (i & -> & _). apply Hm.
  - repeat (first [apply Forall_nil_2
                  | apply Forall_cons_2; [first [apply Hm|exact H0]|]]).
Qed.

Lemma sequenceId_rejoined (sid : Z) :
  js_or (js_shl ((sid / 256) mod 256) 8) (sid mod 256) = sid mod 65536.
Proof.
  rewrite js_shl_8, js_or_bytes by (apply Z.mod_pos_bound; lia).
  Z.div_mod_to_equations. lia.
Qed.

Lemma deserialize_serialize (f : AuroraFrame) :
  deserializeFrame (serializeFrame f)
  = {| frameIndex := frameIndex f mod 256;
       totalFrames := totalFrames f mod 256;
       sequenceId := sequenceId f mod 65536;
       dataChunk := map (fun i => get (dataChunk f) i mod 256) (zrange 10);
       checksum := checksum f mod 256 |}.
Proof.
  rewrite serializeFrame_bytes.
  destruct f as [fi tf sid chunk ck]. cbn [frameIndex totalFrames sequenceId dataChunk checksum].
  unfold deserializeFrame, FRAME_DATA_SIZE.
  rewrite for_up_fill_new.
  set (v := fun i => get chunk i mod 256).
  assert (Hv : forall i, is_byte (v i)) by (intros; apply Z.mod_pos_bound; lia).
  set (a := fi mod 256). set (b := tf mod 256).
  set (c := (sid / 256) mod 256). set (d := sid mod 256). set (e := ck mod 256).
  assert (Hsid : js_or (js_shl c 8) d = sid mod 65536) by apply sequenceId_rejoined.
  clearbody a b c d e.
  f_equal.
  - exact Hsid.
  - apply map_zrange_ext. intros i Hi.
    assert (Hi' : i = 0 \/ i = 1 \/ i = 2 \/ i = 3 \/ i = 4 \/ i = 5 \/ i = 6 \/
                  i = 7 \/ i = 8 \/ i = 9) by lia.
    repeat (destruct Hi' as [->|Hi']); try subst i;
      (etransitivity; [|apply (u8_byte _ (Hv _))]); reflexivity.
Qed.

(** X2: for every frame, whatever its fields hold, [serializeFrame] writes
    the low byte of the index, of the count and of the checksum, the two
    low bytes of the sequence id, the low bytes of the first ten chunk
    entries (0 for a missing one) and a zero; [deserializeFrame] reads them
    back; and the round trip is the identity exactly on the frames whose
    fields are in these ranges and whose chunk has ten bytes. *)
Theorem frame_wire_format (f : AuroraFrame) :
  serializeFrame f
  = [frameIndex f mod 256; totalFrames f mod 256;
     (sequenceId f / 256) mod 256; sequenceId f mod 256]
    ++ map (fun i => get (dataChunk f) i mod 256) (zrange 10)
    ++ [checksum f mod 256; 0] /\
  deserializeFrame (serializeFrame f)
  = {| frameIndex := frameIndex f mod 256;
       totalFrames := totalFrames f mod 256;
       sequenceId := sequenceId f mod 65536;
       dataChunk := map (fun i => get (dataChunk f) i mod 256) (zrange 10);
       checksum := checksum f mod 256 |} /\
  (deserializeFrame (serializeFrame f) = f <->
   0 <= frameIndex f < 256 /\ 0 <= totalFrames f < 256 /\
   0 <= sequenceId f < 65536 /\ 0 <= checksum f < 256 /\
   length (dataChunk f) = 10%nat /\ Forall is_byte (dataChunk f)).
Proof.
  split; [apply serializeFrame_bytes|]. split; [apply deserialize_serialize|].
  rewrite deserialize_serialize.
  destruct f as [fi tf sid chunk ck].
  cbn [frameIndex totalFrames sequenceId dataChunk checksum].
  split.
  - intros Heq. injection Heq as H1 H2 H3 H4 H5.
    pose proof (Z.mod_pos_bound fi 256 ltac:(lia)).
    pose proof (Z.mod_pos_bound tf 256 ltac:(lia)).
    pose proof (Z.mod_pos_bound sid 65536 ltac:(lia)).
    pose proof (Z.mod_pos_bound ck 256 ltac:(lia)).
    repeat split; try lia.
    + rewrite <- H4. reflexivity.
    + rewrite <- H4.
      repeat first [ apply Forall_nil_2
                   | apply Forall_cons_2; [apply Z.mod_pos_bound; lia|] ].
  - intros (H1 & H2 & H3 & H4 & H5 & H6).
    rewrite !Z.mod_small by lia. f_equal.
    etransitivity; [|apply (map_get_zrange chunk)]. rewrite H5.
    apply map_zrange_ext. intros i Hi. apply Z.mod_small. now apply get_byte.
Qed.

(** ** Packets of more than 255 frames *)

(** C5: for every text of more than 2040 UTF-8 bytes [encodeData] makes a
    packet of at least 257 frames, with no check of the documented ranges
    of [frameIndex] (0-255) and [totalFrames] (1-255).  The frame at
    position 256 has [frameIndex] 256 and the packet's total; on the wire
    its first byte is 0 and its second the total modulo 256, so it is read
    back as frame 0 of a shorter packet.  The text shown has 2041 bytes. *)
Theorem encodeData_frame_count_overflow (s : list Z) (drawn : Z) :
  2040 < Z.of_nat (length (TextEncoder_encode s)) ->
  let p := encodeData s drawn in
  257 <= Packet.totalFrames p /\
  exists f,
    Packet.frames p !! 256%nat = Some f /\
    frameIndex f = 256 /\ totalFrames f = Packet.totalFrames p /\
    get (serializeFrame f) 0 = 0 /\
    get (serializeFrame f) 1 = Packet.totalFrames p mod 256 /\
    frameIndex (deserializeFrame (serializeFrame f)) = 0 /\
    totalFrames (deserializeFrame (serializeFrame f)) = Packet.totalFrames p mod 256 /\
    deserializeFrame (serializeFrame f) <> f.
Proof.
  intros HL. cbv zeta.
  pose proof (encodeData_chunks s drawn) as Hfs. cbv zeta in Hfs.
  set (raw := TextEncoder_encode s) in *.
  set (D := dataFramesOf (length raw)) in *.
  set (P := parityFramesOf D) in *.
  assert (Htot : Packet.totalFrames (encodeData s drawn) = Z.of_nat (D + P)) by reflexivity.
  pose proof (dataFramesOf_bounds (length raw)) as HD. fold D in HD.
  pose proof (parityFramesOf_bounds D) as [_ HP]. fold P in HP.
  assert (Hn : (257 <= D + P)%nat) by lia.
  split; [rewrite Htot; lia|].
  exists (frame_of raw drawn 256).
  split.
  { rewrite Hfs, list_lookup_fmap, lookup_zrange by lia. reflexivity. }
  split; [reflexivity|]. split; [now rewrite Htot|].
  rewrite deserialize_serialize, serializeFrame_bytes.
  cbn [frameIndex totalFrames frame_of]. fold D P. rewrite Htot.
  repeat split.
  intros Heq. apply (f_equal frameIndex) in Heq. cbn [frameIndex frame_of] in Heq.
  discriminate Heq.
Qed.

Lemma encodeData_frame_count_overflow_witness :
  let p := encodeData (repeat 0x61 2041) 0x1234 in
  257 <= Packet.totalFrames p /\
  exists f,
    Packet.frames p !! 256%nat = Some f /\
    frameIndex f = 256 /\ totalFrames f = Packet.totalFrames p /\
    get (serializeFrame f) 0 = 0 /\
    get (serializeFrame f) 1 = Packet.totalFrames p mod 256 /\
    frameIndex (deserializeFrame (serializeFrame f)) = 0 /\
    totalFrames (deserializeFrame (serializeFrame f)) = Packet.totalFrames p mod 256 /\
    deserializeFrame (serializeFrame f) <> f.
Proof.
  apply (encodeData_frame_count_overflow (repeat 0x61 2041) 0x1234).
  vm_compute. reflexivity.
Defined.

(** ** Frames and bands *)

Lemma for_up_flat {A : Type} (n : nat) (g : Z -> list A) :
  for_up n (fun i acc => acc ++ g i) [] = flat_map g (zrange n).
Proof.
  induction n as [|n IH]; [reflexivity|].
  rewrite for_up_S, IH, zrange_S, flat_map_app. cbn [flat_map].
  now rewrite app_nil_r.
Qed.

Lemma flat_map_get (f : Z -> list Z) (s : list Z) :
  flat_map (fun i => f (get s i)) (zrange (length s)) = flat_map f s.
Proof.
  rewrite !flat_map_concat_map. f_equal.
  etransitivity; [|apply (f_equal (map f) (map_get_zrange s))].
  now rewrite map_map.
Qed.

Lemma frameToVisual_bandIndices (f : AuroraFrame) :
  vis_bandIndices (frameToVisual f) = flat_map nibbles (serializeFrame f).
Proof.
  unfold frameToVisual. cbn [vis_bandIndices].
  destruct (serializeFrame_is_bytes f) as [Hlen Hbytes].
  unfold FRAME_TOTAL_SIZE. rewrite <- Hlen.
  rewrite (for_up_ext _ _ (fun i acc => acc ++ nibbles (get (serializeFrame f) i))).
  - rewrite for_up_flat. apply flat_map_get.
  - intros i a Hi. rewrite byteToPaletteIndices_all. cbn [app]. unfold nibbles.
    do 3 f_equal.
    pose proof (get_byte (serializeFrame f) i Hbytes) as Hb. unfold is_byte in Hb.
    apply Z.mod_small. Z.div_mod_to_equations. lia.
Qed.

Lemma get_nibbles (s : list Z) (i : Z) :
  0 <= i < Z.of_nat (length s) ->
  get (flat_map nibbles s) (i * 2) = get s i / 16 /\
  get (flat_map nibbles s) (i * 2 + 1) = get s i mod 16.
Proof.
  revert i. induction s as [|b s IH]; intros i Hi; [cbn in Hi; lia|].
  destruct (Z.eq_dec i 0) as [->|Hne]; [split; reflexivity|].
  cbn [length] in Hi.
  destruct (IH (i - 1)) as [H1 H2]; [lia|].
  assert (Hg : forall (l : list Z) x y k, 2 <= k -> get (x :: y :: l) k = get l (k - 2)).
  { intros l x y k Hk. unfold get.
    destruct (Z.leb_spec 0 k); [|lia]. destruct (Z.leb_spec 0 (k - 2)); [|lia].
    replace (Z.to_nat k) with (S (S (Z.to_nat (k - 2)))) by lia. reflexivity. }
  assert (Hg1 : forall (l : list Z) x k, 1 <= k -> get (x :: l) k = get l (k - 1)).
  { intros l x k Hk. unfold get.
    destruct (Z.leb_spec 0 k); [|lia]. destruct (Z.leb_spec 0 (k - 1)); [|lia].
    replace (Z.to_nat k) with (S (Z.to_nat (k - 1))) by lia. reflexivity. }
  cbn [flat_map nibbles app].
  rewrite !Hg, (Hg1 s) by lia.
  replace (i * 2 - 2) with ((i - 1) * 2) by lia.
  replace (i * 2 + 1 - 2) with ((i - 1) * 2 + 1) by lia.
  now rewrite H1, H2.
Qed.

Lemma bandIndicesToBytes_all (bandIndices : list Z) :
  bandIndicesToBytes bandIndices
  = map (fun i => (get bandIndices (i * 2) mod 16) * 16
                  + get bandIndices (i * 2 + 1) mod 16) (zrange 16).
Proof.
  unfold bandIndicesToBytes, FRAME_TOTAL_SIZE. rewrite for_up_fill_new.
  apply map_zrange_ext. intros i Hi.
  rewrite !js_and_0f_all.
  rewrite nibbles_join by (apply Z.mod_pos_bound; lia).
  apply u8_byte. unfold is_byte. Z.div_mod_to_equations. lia.
Qed.

Lemma bands_of_frame (f : AuroraFrame) :
  length (vis_bandIndices (frameToVisual f)) = 32%nat /\
  Forall (fun x => 0 <= x < 16) (vis_bandIndices (frameToVisual f)) /\
  bandIndicesToBytes (vis_bandIndices (frameToVisual f)) = serializeFrame f.
Proof.
  rewrite frameToVisual_bandIndices.
  destruct (serializeFrame_is_bytes f) as [Hlen Hbytes].
  split; [|split].
  - rewrite (flat_map_constant_length (c := 2%nat)); [lia|reflexivity].
  - apply Forall_forall. intros x Hx. apply list_elem_of_In, in_flat_map in Hx.
    destruct Hx as (b & Hb & Hx).
    rewrite Forall_forall in Hbytes. apply list_elem_of_In, Hbytes in Hb.
    unfold is_byte in Hb. destruct Hx as [<-|[<-|[]]]; Z.div_mod_to_equations; lia.
  - rewrite bandIndicesToBytes_all.
    etransitivity; [|apply (map_get_zrange (serializeFrame f))]. rewrite Hlen.
    apply map_zrange_ext. intros i Hi.
    destruct (get_nibbles (serializeFrame f) i) as [-> ->]; [lia|].
    pose proof (get_byte (serializeFrame f) i Hbytes) as Hb. unfold is_byte in Hb.
    Z.div_mod_to_equations. lia.
Qed.

(** X3: for every frame, [frameToVisual] yields 32 band indices, each in
    0..15, which are the high and low digit of the 16 serialized bytes in
    order, and [bandIndicesToBytes] puts exactly the serialized bytes back
    together; on any list of indices [bandIndicesToBytes] uses only the low
    four bits of the first 32 entries, a missing entry counting as 0. *)
Theorem band_codec_roundtrip (f : AuroraFrame) (bandIndices : list Z) :
  vis_bandIndices (frameToVisual f) = flat_map nibbles (serializeFrame f) /\
  length (vis_bandIndices (frameToVisual f)) = 32%nat /\
  Forall (fun x => 0 <= x < 16) (vis_bandIndices (frameToVisual f)) /\
  bandIndicesToBytes (vis_bandIndices (frameToVisual f)) = serializeFrame f /\
  bandIndicesToBytes bandIndices
  = map (fun i => (get bandIndices (i * 2) mod 16) * 16
                  + get bandIndices (i * 2 + 1) mod 16) (zrange 16).
Proof.
  split; [apply frameToVisual_bandIndices|].
  destruct (bands_of_frame f) as (H1 & H2 & H3).
  repeat split; try assumption. apply bandIndicesToBytes_all.
Qed.

(** ** The field: multiplication, division, inverse, power *)

(** X4: on bytes, the table-driven [gfMul] is the product of the two
    polynomials over GF(2) reduced modulo the primitive polynomial 0x11D,
    computed bit by bit. *)
Theorem gfMul_is_polynomial_product (a b : Z) :
  is_byte a -> is_byte b -> gfMul a b = gf_mul_bits 8 a b.
Proof.
  intros Ha Hb.
  check_bytes2 (fun a b => gfMul a b =? gf_mul_bits 8 a b) a b Ha Hb as Hc.
  lia.
Qed.

Lemma gfInverse_nz (b : Z) :
  1 <= b < 256 ->
  exists v, gfInverse b = Ok v /\ 1 <= v < 256 /\ gfMul v b = 1 /\
            get gfLog v = (255 - get gfLog b) mod 255.
Proof.
  intros Hb. unfold gfInverse. destruct (Z.eqb_spec b 0); [lia|].
  destruct (gfLog_exp b Hb) as [Hl He].
  destruct (gfExp_log (255 - get gfLog b)) as [Hr Hlg]; [lia|].
  eexists. split; [reflexivity|]. split; [exact Hr|]. split; [|exact Hlg].
  rewrite gfMul_nz by lia. rewrite Hlg.
  rewrite Z.add_mod_idemp_l by lia.
  replace (255 - get gfLog b + get gfLog b) with 255 by lia. reflexivity.
Qed.

Lemma gfMul_is_polynomial_product_witness :
  gfMul 0x53 0xCA = gf_mul_bits 8 0x53 0xCA.
Proof.
  apply (gfMul_is_polynomial_product 0x53 0xCA); unfold is_byte; lia.
Defined.

(** X5: [gfDiv] throws on a zero divisor, whatever the dividend; for a
    non-zero divisor it returns the byte [q] with [gfMul q b = a], which is
    also the product of [a] with [gfInverse b]. *)
Theorem gfDiv_spec (a b : Z) :
  is_byte a -> is_byte b ->
  gfDiv a 0 = Throw "Division by zero in GF(2^8)" /\
  (b <> 0 ->
   exists q v, gfDiv a b = Ok q /\ is_byte q /\ gfMul q b = a /\
               gfInverse b = Ok v /\ q = gfMul a v).
Proof.
  intros Ha Hb. split; [reflexivity|]. intros Hnz.
  unfold is_byte in Ha, Hb.
  destruct (gfInverse_nz b) as (v & Hv & Hvr & Hvb & Hvl); [lia|].
  assert (Hq : gfDiv a b = Ok (gfMul a v)).
  { unfold gfDiv. destruct (Z.eqb_spec b 0); [lia|].
    destruct (Z.eqb_spec a 0) as [->|Ha0]; [reflexivity|].
    f_equal. destruct (gfLog_exp a) as [Hla _]; [lia|].
    destruct (gfLog_exp b) as [Hlb _]; [lia|].
    rewrite gfMul_nz by lia. rewrite Hvl.
    rewrite gfExp_wrap by lia. f_equal.
    rewrite Z.add_mod_idemp_r by lia. f_equal. lia. }
  exists (gfMul a v), v.
  assert (Hbv : is_byte v) by (unfold is_byte; lia).
  split; [exact Hq|]. split; [apply gfMul_byte; unfold is_byte; auto|].
  split; [|split; [exact Hv|reflexivity]].
  rewrite gfMul_assoc by (unfold is_byte; auto; lia).
  rewrite Hvb. apply gfMul_1_r. unfold is_byte. lia.
Qed.

Lemma gfDiv_spec_witness :
  gfDiv 0x53 0 = Throw "Division by zero in GF(2^8)" /\
  (0xCA <> 0 ->
   exists q v, gfDiv 0x53 0xCA = Ok q /\ is_byte q /\ gfMul q 0xCA = 0x53 /\
               gfInverse 0xCA = Ok v /\ q = gfMul 0x53 v).
Proof.
  apply (gfDiv_spec 0x53 0xCA); unfold is_byte; lia.
Defined.

(** X6: [gfInverse] throws on zero; on a non-zero byte it returns a
    non-zero byte, and inverting twice gives the byte back. *)
Theorem gfInverse_spec (a : Z) :
  is_byte a ->
  gfInverse 0 = Throw "Zero has no inverse in GF(2^8)" /\
  (a <> 0 ->
   exists v, gfInverse a = Ok v /\ 1 <= v <= 255 /\ gfInverse v = Ok a).
Proof.
  intros Ha. split; [reflexivity|]. intros Hnz.
  check_range 256%nat
    (fun a => (a =? 0) ||
       match gfInverse a with
       | Ok v => (1 <=? v) && (v <=? 255) &&
                 match gfInverse v with Ok a' => a' =? a | Throw _ => false end
       | Throw _ => false
       end) a Ha as Hc.
  apply orb_true_iff in Hc. destruct Hc as [Hc|Hc]; [lia|].
  destruct (gfInverse a) as [v|]; [|discriminate].
  rewrite !andb_true_iff in Hc. destruct Hc as [[H1 H2] H3].
  exists v. split; [reflexivity|]. split; [lia|].
  destruct (gfInverse v) as [a'|]; [|discriminate]. f_equal. lia.
Qed.

Lemma gfInverse_spec_witness :
  gfInverse 0 = Throw "Zero has no inverse in GF(2^8)" /\
  (0x53 <> 0 ->
   exists v, gfInverse 0x53 = Ok v /\ 1 <= v <= 255 /\ gfInverse v = Ok 0x53).
Proof.
  apply (gfInverse_spec 0x53); unfold is_byte; lia.
Defined.

Lemma gfPow_succ (a n : Z) :
  is_byte a -> 0 <= n -> gfPow a (n + 1) = gfMul a (gfPow a n).
Proof.
  unfold is_byte. intros Ha Hn. unfold gfPow.
  destruct (Z.eqb_spec (n + 1) 0); [lia|].
  destruct (Z.eqb_spec a 0) as [->|Hnz].
  { destruct (n =? 0); reflexivity. }
  destruct (gfLog_exp a) as [Hl He]; [lia|].
  rewrite Z.rem_mod_nonneg by nia.
  destruct (Z.eqb_spec n 0) as [->|Hn0].
  - rewrite gfMul_1_r by (unfold is_byte; lia).
    rewrite Z.mul_1_r, Z.mod_small by lia. exact He.
  - rewrite Z.rem_mod_nonneg by nia.
    assert (Hm : 0 <= (get gfLog a * n) mod 255 < 255) by (apply Z.mod_pos_bound; lia).
    destruct (gfExp_log ((get gfLog a * n) mod 255)) as [Hr Hlg]; [lia|].
    rewrite gfMul_nz by lia. rewrite Hlg, Z.mod_mod by lia.
    f_equal. rewrite Z.add_mod_idemp_r by lia. f_equal. lia.
Qed.

(** X7: for a byte [a] and a natural exponent [n] with 255 * n below
    2^53, so that the product [gfLog[a] * n] of doubles is exact, the
    logarithm-table [gfPow a n] is [a] multiplied [n] times with [gfMul],
    starting from 1. *)
Theorem gfPow_iterates (a : Z) (n : nat) :
  is_byte a -> 255 * Z.of_nat n < 2 ^ 53 ->
  gfPow a (Z.of_nat n) = gf_power a n.
Proof.
  intros Ha _. induction n as [|n IH]; [reflexivity|].
  unfold gf_power in *. rewrite Nat.iter_succ, <- IH.
  replace (Z.of_nat (S n)) with (Z.of_nat n + 1) by lia.
  apply gfPow_succ; [exact Ha|lia].
Qed.

Lemma gfPow_iterates_witness : gfPow 3 (Z.of_nat 5) = gf_power 3 5.
Proof.
  apply (gfPow_iterates 3 5); [unfold is_byte; lia|vm_compute; reflexivity].
Defined.

(** ** Polynomials over the field *)

#[local] Hint Resolve get_byte u8_is_byte : bytes.

Lemma is_byte_0 : is_byte 0.
Proof. unfold is_byte; lia. Qed.
Lemma is_byte_1 : is_byte 1.
Proof. unfold is_byte; lia. Qed.
#[local] Hint Resolve is_byte_0 is_byte_1 : bytes.

Lemma for_down_S {S : Type} (n : nat) (body : Z -> S -> S) (s : S) :
  for_down (Datatypes.S n) body s = for_down n body (body (Z.of_nat n) s).
Proof. unfold for_down. rewrite seq_S, rev_app_distr. reflexivity. Qed.

Lemma for_down_fold {S : Type} (n : nat) (body : Z -> S -> S) (s : S) :
  for_down n body s = fold_right (fun i acc => body (Z.of_nat i) acc) s (seq 0 n).
Proof.
  unfold for_down. symmetry.
  rewrite <- (rev_involutive (seq 0 n)) at 1. apply fold_left_rev_right.
Qed.

Lemma get_cons_0 (a : Z) (l : list Z) : get (a :: l) 0 = a.
Proof. reflexivity. Qed.

Lemma get_cons_S (a : Z) (l : list Z) (i : Z) :
  0 <= i -> get (a :: l) (i + 1) = get l i.
Proof.
  intros Hi. unfold get.
  destruct (Z.leb_spec 0 (i + 1)); [|lia]. destruct (Z.leb_spec 0 i); [|lia].
  replace (Z.to_nat (i + 1)) with (S (Z.to_nat i)) by lia. reflexivity.
Qed.

Lemma store_cons_0 (a : Z) (l : list Z) (v : Z) : store (a :: l) 0 v = u8 v :: l.
Proof. reflexivity. Qed.

Lemma store_cons_S (a : Z) (l : list Z) (i v : Z) :
  0 <= i -> store (a :: l) (i + 1) v = a :: store l i v.
Proof.
  intros Hi. unfold store.
  destruct (Z.leb_spec 0 (i + 1)); [|lia]. destruct (Z.leb_spec 0 i); [|lia].
  replace (Z.to_nat (i + 1)) with (S (Z.to_nat i)) by lia. reflexivity.
Qed.

Lemma length_store (l : list Z) (i v : Z) : length (store l i v) = length l.
Proof. unfold store. destruct (0 <=? i); [apply length_insert|reflexivity]. Qed.

Lemma store_bytes (l : list Z) (i v : Z) :
  Forall is_byte l -> Forall is_byte (store l i v).
Proof.
  intros Hl. unfold store. destruct (0 <=? i); [|exact Hl].
  apply Forall_insert; [exact Hl|apply u8_is_byte].
Qed.

Lemma get_store_same (l : list Z) (i v : Z) :
  0 <= i < Z.of_nat (length l) -> get (store l i v) i = u8 v.
Proof.
  intros Hi. unfold get, store. destruct (Z.leb_spec 0 i); [|lia].
  rewrite list_lookup_insert_eq by lia. reflexivity.
Qed.

Lemma get_store_other (l : list Z) (i k v : Z) :
  i <> k -> get (store l i v) k = get l k.
Proof.
  intros Hik. unfold get, store.
  destruct (Z.leb_spec 0 k); [|reflexivity].
  destruct (Z.leb_spec 0 i); [|reflexivity].
  rewrite list_lookup_insert_ne by lia. reflexivity.
Qed.

Lemma get_outside (l : list Z) (k : Z) : Z.of_nat (length l) <= k -> get l k = 0.
Proof.
  intros Hk. unfold get. destruct (Z.leb_spec 0 k); [|reflexivity].
  rewrite lookup_ge_None_2 by lia. reflexivity.
Qed.

Lemma get_repeat_0 (n : nat) (k : Z) : get (repeat 0 n) k = 0.
Proof.
  unfold get. destruct (0 <=? k); [|reflexivity].
  destruct (repeat 0 n !! Z.to_nat k) as [v|] eqn:Hv; [|reflexivity].
  apply list_elem_of_lookup_2, list_elem_of_In, repeat_spec in Hv. now subst.
Qed.

Lemma repeat_0_bytes (n : nat) : Forall is_byte (repeat 0 n).
Proof.
  induction n; cbn; constructor; auto with bytes.
Qed.
#[local] Hint Resolve repeat_0_bytes : bytes.

(** *** The field laws in the form the polynomial proofs use *)

Lemma gfMul_lxor_l a b c :
  is_byte a -> is_byte b -> is_byte c ->
  gfMul (Z.lxor a b) c = Z.lxor (gfMul a c) (gfMul b c).
Proof.
  intros. rewrite gfMul_comm, gfMul_lxor by assumption.
  now rewrite (gfMul_comm c a), (gfMul_comm c b).
Qed.

Lemma gfMul_1_l a : is_byte a -> gfMul 1 a = a.
Proof. intros. rewrite gfMul_comm. now apply gfMul_1_r. Qed.

Lemma gf_power_byte x k : is_byte x -> is_byte (gf_power x k).
Proof.
  intros Hx. unfold gf_power. induction k as [|k IH]; [auto with bytes|].
  rewrite Nat.iter_succ. auto with bytes.
Qed.
#[local] Hint Resolve gf_power_byte : bytes.

Lemma gf_power_S x k : gf_power x (S k) = gfMul x (gf_power x k).
Proof. unfold gf_power. now rewrite Nat.iter_succ. Qed.

Lemma gf_power_add x a b :
  is_byte x -> gf_power x (a + b) = gfMul (gf_power x a) (gf_power x b).
Proof.
  intros Hx. induction a as [|a IH].
  - cbn [Nat.add]. change (gf_power x 0) with 1. now rewrite gfMul_1_l by auto with bytes.
  - cbn [Nat.add]. rewrite !gf_power_S, IH, gfMul_assoc by auto with bytes. reflexivity.
Qed.

Lemma horner_byte p x : Forall is_byte p -> is_byte x -> is_byte (horner p x).
Proof.
  intros Hp Hx. induction Hp as [|c p Hc Hp IH]; cbn [horner]; auto with bytes.
Qed.
#[local] Hint Resolve horner_byte : bytes.

Lemma horner_cons c p x :
  Forall is_byte p -> is_byte c -> is_byte x ->
  horner (c :: p) x = Z.lxor c (gfMul x (horner p x)).
Proof.
  intros. cbn [horner]. rewrite gfAdd_lxor by auto with bytes.
  now rewrite Z.lxor_comm, (gfMul_comm x).
Qed.

Lemma polyEval_horner (p : list Z) (x : Z) : polyEval p x = horner p x.
Proof.
  unfold polyEval. rewrite for_down_fold.
  rewrite <- (map_get_zrange p) at 2.
  unfold zrange. generalize (seq 0 (length p)) as l.
  induction l as [|i l IH]; [reflexivity|].
  cbn [fold_right map horner]. now rewrite IH.
Qed.

Lemma xsum_byte m h : (forall j, is_byte (h j)) -> is_byte (xsum m h).
Proof. intros Hh. induction m; cbn [xsum]; auto with bytes. Qed.
#[local] Hint Resolve xsum_byte : bytes.

Lemma xsum_ext m h1 h2 :
  (forall j, (j < m)%nat -> h1 j = h2 j) -> xsum m h1 = xsum m h2.
Proof.
  induction m as [|m IH]; intros Hh; [reflexivity|].
  cbn [xsum]. rewrite IH, Hh by (intros; auto with lia). reflexivity.
Qed.

Lemma xsum_scale m h a :
  is_byte a -> (forall j, is_byte (h j)) ->
  xsum m (fun j => gfMul a (h j)) = gfMul a (xsum m h).
Proof.
  intros Ha Hh. induction m as [|m IH]; cbn [xsum].
  - now rewrite gfMul_0_r.
  - rewrite IH, gfMul_lxor by auto with bytes. reflexivity.
Qed.

Lemma horner_app p q x :
  Forall is_byte p -> Forall is_byte q -> is_byte x ->
  horner (p ++ q) x
  = Z.lxor (horner p x) (gfMul (gf_power x (length p)) (horner q x)).
Proof.
  intros Hp Hq Hx. induction Hp as [|c p Hc Hp IH].
  - cbn [app length horner]. change (gf_power x 0) with 1.
    rewrite gfMul_1_l by auto with bytes. now rewrite Z.lxor_0_l.
  - rewrite <- app_comm_cons, !horner_cons by (auto with bytes; apply Forall_app; auto).
    rewrite IH. cbn [length]. rewrite gf_power_S.
    rewrite gfMul_lxor, Z.lxor_assoc by auto with bytes.
    rewrite gfMul_assoc by auto with bytes. reflexivity.
Qed.

Lemma horner_xsum p x :
  Forall is_byte p -> is_byte x ->
  horner p x = xsum (length p) (fun j => gfMul (get p (Z.of_nat j)) (gf_power x j)).
Proof.
  intros Hp Hx. induction p as [|c p IH] using rev_ind; [reflexivity|].
  apply Forall_app in Hp as [Hp Hc]. apply Forall_cons_1 in Hc as [Hc _].
  rewrite horner_app by auto with bytes.
  rewrite length_app, Nat.add_1_r. cbn [xsum]. rewrite IH by assumption.
  f_equal.
  - apply xsum_ext. intros j Hj. now rewrite get_app_l by lia.
  - rewrite horner_cons by auto with bytes. cbn [horner].
    rewrite gfMul_0_r, Z.lxor_0_r.
    replace (get (p ++ [c]) (Z.of_nat (length p))) with c; [apply gfMul_comm|].
    unfold get. destruct (Z.leb_spec 0 (Z.of_nat (length p))); [|lia].
    rewrite Nat2Z.id, lookup_app_r, Nat.sub_diag by lia. reflexivity.
Qed.

Lemma horner_repeat_0 n x : horner (repeat 0 n) x = 0.
Proof.
  induction n as [|n IH]; [reflexivity|]. cbn [repeat horner]. now rewrite IH.
Qed.

(** *** One accumulating store, and a loop of them *)

Lemma horner_store_add (r : list Z) (k : nat) (c x : Z) :
  Forall is_byte r -> is_byte c -> is_byte x -> (k < length r)%nat ->
  horner (store r (Z.of_nat k) (gfAdd (get r (Z.of_nat k)) c)) x
  = Z.lxor (horner r x) (gfMul c (gf_power x k)).
Proof.
  intros Hr Hc Hx. revert k. induction Hr as [|a r Ha Hr IH]; intros k Hk.
  - cbn in Hk. lia.
  - destruct k as [|k].
    + change (Z.of_nat 0) with 0. rewrite get_cons_0, store_cons_0.
      rewrite u8_byte by auto with bytes.
      rewrite !horner_cons, gfAdd_lxor by auto with bytes.
      change (gf_power x 0) with 1. rewrite gfMul_1_r by assumption.
      rewrite !Z.lxor_assoc. f_equal. apply Z.lxor_comm.
    + cbn [length] in Hk.
      replace (Z.of_nat (S k)) with (Z.of_nat k + 1) by lia.
      rewrite get_cons_S, store_cons_S by lia.
      rewrite !horner_cons by (auto using store_bytes with bytes).
      rewrite IH by lia.
      rewrite gfMul_lxor by auto with bytes.
      rewrite Z.lxor_assoc. do 2 f_equal.
      rewrite gf_power_S, <- !gfMul_assoc by auto with bytes.
      f_equal. apply gfMul_comm.
Qed.

Lemma scatter_spec (off m : nat) (c : Z -> Z) (r : list Z) (x : Z) :
  Forall is_byte r -> (forall j, is_byte (c j)) -> is_byte x ->
  (off + m <= length r)%nat ->
  length (scatter off m c r) = length r /\
  Forall is_byte (scatter off m c r) /\
  horner (scatter off m c r) x
  = Z.lxor (horner r x)
      (xsum m (fun j => gfMul (c (Z.of_nat j)) (gf_power x (off + j)))) /\
  (forall k, ~ (Z.of_nat off <= k < Z.of_nat (off + m)) ->
             get (scatter off m c r) k = get r k) /\
  (forall j, (j < m)%nat ->
             get (scatter off m c r) (Z.of_nat (off + j))
             = Z.lxor (get r (Z.of_nat (off + j))) (c (Z.of_nat j))).
Proof.
  intros Hr Hc Hx. unfold scatter. induction m as [|m IH]; intros Hm.
  - rewrite for_up_0. cbn [xsum]. rewrite Z.lxor_0_r.
    repeat split; auto. intros; lia.
  - destruct IH as (Hlen & Hb & Hh & Hout & Hin); [lia|].
    rewrite for_up_S. set (r' := for_up m _ r) in *.
    replace (Z.of_nat off + Z.of_nat m) with (Z.of_nat (off + m)) by lia.
    split; [now rewrite length_store|].
    split; [now apply store_bytes|].
    split; [|split].
    + rewrite horner_store_add by (auto with bytes; lia).
      rewrite Hh. cbn [xsum]. now rewrite Z.lxor_assoc.
    + intros k Hk. rewrite get_store_other by lia. apply Hout. lia.
    + intros j Hj. destruct (Nat.eq_dec j m) as [->|Hne].
      * rewrite get_store_same by lia.
        rewrite u8_byte by auto with bytes.
        rewrite gfAdd_lxor by auto with bytes.
        f_equal. apply Hout. lia.
      * rewrite get_store_other by lia. apply Hin. lia.
Qed.

(** *** polyAdd *)

Lemma horner_take_xsum p x m :
  Forall is_byte p -> is_byte x -> (m <= length p)%nat ->
  xsum m (fun j => gfMul (get p (Z.of_nat j)) (gf_power x j)) = horner (take m p) x.
Proof.
  intros Hp Hx Hm. rewrite horner_xsum by (auto using Forall_take).
  rewrite length_take, Nat.min_l by lia.
  apply xsum_ext. intros j Hj. f_equal.
  unfold get. destruct (0 <=? Z.of_nat j); [|reflexivity].
  rewrite lookup_take_lt by lia. reflexivity.
Qed.

(** X8: for polynomials with byte coefficients, [polyAdd] returns a
    polynomial as long as the longer argument whose value at every byte is
    the sum of the two values. *)
Theorem polyAdd_spec (p q : list Z) (x : Z) :
  Forall is_byte p -> Forall is_byte q -> is_byte x ->
  length (polyAdd p q) = Nat.max (length p) (length q) /\
  Forall is_byte (polyAdd p q) /\
  polyEval (polyAdd p q) x = gfAdd (polyEval p x) (polyEval q x).
Proof.
  intros Hp Hq Hx. unfold polyAdd, newU8.
  set (r0 := repeat 0 _).
  assert (Hr0 : length r0 = Nat.max (length p) (length q)) by apply repeat_length.
  pose proof (scatter_spec 0 (length p) (get p) r0 x) as H1.
  destruct H1 as (L1 & B1 & E1 & _); [subst r0; auto with bytes..|lia|].
  unfold scatter in L1, B1, E1. cbn [Z.of_nat Z.add] in L1, B1, E1.
  set (r1 := for_up (length p) _ r0) in *.
  pose proof (scatter_spec 0 (length q) (get q) r1 x) as H2.
  destruct H2 as (L2 & B2 & E2 & _); [auto with bytes..|lia|].
  unfold scatter in L2, B2, E2. cbn [Z.of_nat Z.add] in L2, B2, E2.
  set (r2 := for_up (length q) _ r1) in *.
  split; [lia|]. split; [exact B2|].
  rewrite !polyEval_horner, E2, E1. subst r0. rewrite horner_repeat_0, Z.lxor_0_l.
  cbn [Nat.add]. rewrite !horner_take_xsum, !firstn_all by auto.
  now rewrite gfAdd_lxor by auto with bytes.
Qed.

Lemma polyAdd_spec_witness :
  length (polyAdd [1; 2; 3] [7; 0; 0; 9]) = Nat.max 3 4 /\
  Forall is_byte (polyAdd [1; 2; 3] [7; 0; 0; 9]) /\
  polyEval (polyAdd [1; 2; 3] [7; 0; 0; 9]) 2
  = gfAdd (polyEval [1; 2; 3] 2) (polyEval [7; 0; 0; 9] 2).
Proof.
  apply (polyAdd_spec [1; 2; 3] [7; 0; 0; 9] 2); [forall_lia..|unfold is_byte; lia].
Defined.

(** *** polyScale *)

Lemma polyScale_map (p : list Z) (scalar : Z) :
  polyScale p scalar = map (fun c => u8 (gfMul c scalar)) p.
Proof.
  unfold polyScale. rewrite for_up_fill_new.
  rewrite <- (map_get_zrange p) at 2. now rewrite map_map.
Qed.

(** X9: [polyScale] keeps the length and multiplies the value of the
    polynomial at every byte by the scalar. *)
Theorem polyScale_spec (p : list Z) (scalar x : Z) :
  Forall is_byte p -> is_byte scalar -> is_byte x ->
  length (polyScale p scalar) = length p /\
  Forall is_byte (polyScale p scalar) /\
  polyEval (polyScale p scalar) x = gfMul scalar (polyEval p x).
Proof.
  intros Hp Hs Hx. rewrite polyScale_map, !polyEval_horner.
  split; [apply length_map|].
  induction Hp as [|c p Hc Hp [IHb IHe]].
  - split; [constructor|]. cbn. now rewrite gfMul_0_r.
  - cbn [map]. split; [constructor; auto with bytes|].
    rewrite !horner_cons by auto with bytes.
    rewrite IHe, u8_byte by auto with bytes.
    rewrite gfMul_lxor by auto with bytes. f_equal; [apply gfMul_comm|].
    rewrite <- !gfMul_assoc by auto with bytes. f_equal. apply gfMul_comm.
Qed.

Lemma polyScale_spec_witness :
  length (polyScale [1; 2; 3] 0x53) = 3%nat /\
  Forall is_byte (polyScale [1; 2; 3] 0x53) /\
  polyEval (polyScale [1; 2; 3] 0x53) 2 = gfMul 0x53 (polyEval [1; 2; 3] 2).
Proof.
  apply (polyScale_spec [1; 2; 3] 0x53 2); [forall_lia|unfold is_byte; lia..].
Defined.

(** *** polyMul *)

Lemma polyMul_rows (p q : list Z) :
  polyMul p q
  = for_up (length p) (polyMul_row p q) (newU8 (length p + length q - 1)).
Proof. reflexivity. Qed.

Lemma polyMul_row_scatter p q (i : nat) r :
  polyMul_row p q (Z.of_nat i) r
  = scatter i (length q) (fun j => gfMul (get p (Z.of_nat i)) (get q j)) r.
Proof. reflexivity. Qed.

Lemma polyMul_prefix (p q : list Z) (x : Z) (n : nat) :
  Forall is_byte p -> Forall is_byte q -> is_byte x ->
  (1 <= length q)%nat -> (n <= length p)%nat ->
  let r := for_up n (polyMul_row p q) (newU8 (length p + length q - 1)) in
  length r = (length p + length q - 1)%nat /\
  Forall is_byte r /\
  horner r x = gfMul (horner (take n p) x) (horner q x) /\
  (forall k, Z.of_nat n + Z.of_nat (length q) - 1 <= k -> get r k = 0) /\
  (1 <= n -> get r (Z.of_nat n + Z.of_nat (length q) - 2)
             = gfMul (get p (Z.of_nat n - 1)) (get q (Z.of_nat (length q) - 1)))%nat.
Proof.
  intros Hp Hq Hx Hq1. cbv zeta. induction n as [|n IH]; intros Hn.
  - rewrite for_up_0. unfold newU8. rewrite repeat_length.
    split; [reflexivity|]. split; [auto with bytes|].
    split; [now rewrite horner_repeat_0|].
    split; [intros; apply get_repeat_0|lia].
  - destruct IH as (Hlen & Hb & He & Hz & Htop); [lia|].
    rewrite for_up_S. set (r := for_up n _ _) in *.
    rewrite polyMul_row_scatter.
    pose proof (scatter_spec n (length q)
                  (fun j => gfMul (get p (Z.of_nat n)) (get q j)) r x) as Hs.
    destruct Hs as (L & B & E & Hout & Hin); [auto with bytes..|lia|].
    split; [lia|]. split; [exact B|]. split; [|split].
    + rewrite E, He.
      rewrite (xsum_ext _ _ (fun j =>
                 gfMul (gfMul (get p (Z.of_nat n)) (gf_power x n))
                       (gfMul (get q (Z.of_nat j)) (gf_power x j)))).
      2:{ intros j Hj. rewrite gf_power_add by assumption.
          rewrite !gfMul_assoc by auto with bytes. f_equal.
          rewrite <- !gfMul_assoc by auto with bytes. f_equal. apply gfMul_comm. }
      rewrite xsum_scale by auto with bytes.
      rewrite <- horner_xsum by assumption.
      assert (Hpt : Forall is_byte (take n p)) by (apply Forall_take; exact Hp).
      rewrite <- gfMul_lxor_l by auto with bytes.
      f_equal.
      assert (Hn' : (n < length p)%nat) by lia.
      destruct (lookup_lt_is_Some_2 p n Hn') as [c Hc].
      rewrite (take_S_r p n c Hc).
      assert (Hcb : is_byte c) by exact (Forall_lookup_1 _ _ _ _ Hp Hc).
      assert (Hc1 : Forall is_byte [c])
        by (apply Forall_cons_2; [exact Hcb|apply Forall_nil_2]).
      rewrite horner_app by auto with bytes.
      rewrite length_take, Nat.min_l by lia. f_equal.
      cbn [horner]. rewrite gfMul_0_l.
      rewrite gfAdd_lxor, Z.lxor_0_l by auto with bytes.
      rewrite gfMul_comm. f_equal.
      unfold get. destruct (Z.leb_spec 0 (Z.of_nat n)); [|lia].
      now rewrite Nat2Z.id, Hc.
    + intros k Hk. rewrite Hout by lia. apply Hz. lia.
    + intros _.
      replace (Z.of_nat (S n) + Z.of_nat (length q) - 2)
        with (Z.of_nat (n + (length q - 1))) by lia.
      rewrite Hin by lia.
      rewrite Hz by lia. rewrite Z.lxor_0_l.
      f_equal; f_equal; lia.
Qed.

Lemma polyMul_facts (p q : list Z) (x : Z) :
  Forall is_byte p -> Forall is_byte q -> is_byte x ->
  (1 <= length p)%nat -> (1 <= length q)%nat ->
  length (polyMul p q) = (length p + length q - 1)%nat /\
  Forall is_byte (polyMul p q) /\
  polyEval (polyMul p q) x = gfMul (polyEval p x) (polyEval q x) /\
  get (polyMul p q) (Z.of_nat (length p + length q - 2))
  = gfMul (get p (Z.of_nat (length p - 1))) (get q (Z.of_nat (length q - 1))).
Proof.
  intros Hp Hq Hx Hp1 Hq1.
  destruct (polyMul_prefix p q x (length p) Hp Hq Hx Hq1 (le_n _))
    as (Hlen & Hb & He & _ & Htop).
  rewrite polyMul_rows. split; [exact Hlen|]. split; [exact Hb|].
  split.
  - rewrite !polyEval_horner, He, firstn_all. reflexivity.
  - replace (Z.of_nat (length p + length q - 2))
      with (Z.of_nat (length p) + Z.of_nat (length q) - 2) by lia.
    rewrite Htop by lia. f_equal; f_equal; lia.
Qed.

Lemma for_up_skip {A : Type} (n : nat) (s : A) : for_up n (fun _ a => a) s = s.
Proof. induction n as [|n IH]; [reflexivity|]. now rewrite for_up_S. Qed.

(** X10: for polynomials with byte coefficients that are not both empty,
    [polyMul] returns a polynomial of length [length p + length q - 1]
    whose value at every byte is the product of the two values; when both
    are non-empty its leading coefficient is the product of the two leading
    coefficients. *)
Theorem polyMul_spec (p q : list Z) (x : Z) :
  Forall is_byte p -> Forall is_byte q -> is_byte x ->
  (1 <= length p + length q)%nat ->
  length (polyMul p q) = (length p + length q - 1)%nat /\
  Forall is_byte (polyMul p q) /\
  polyEval (polyMul p q) x = gfMul (polyEval p x) (polyEval q x) /\
  ((1 <= length p)%nat -> (1 <= length q)%nat ->
   get (polyMul p q) (Z.of_nat (length p + length q - 2))
   = gfMul (get p (Z.of_nat (length p - 1))) (get q (Z.of_nat (length q - 1)))).
Proof.
  intros Hp Hq Hx Hne.
  destruct q as [|q0 q'].
  - unfold polyMul. cbn [length]. rewrite for_up_skip.
    unfold newU8. rewrite repeat_length.
    split; [reflexivity|]. split; [auto with bytes|]. split; [|lia].
    rewrite !polyEval_horner, horner_repeat_0. cbn [horner].
    now rewrite gfMul_0_r.
  - assert (Hq1 : (1 <= length (q0 :: q'))%nat) by (cbn; lia).
    destruct (polyMul_prefix p (q0 :: q') x (length p) Hp Hq Hx Hq1 (le_n _))
      as (Hlen & Hb & He & _ & _).
    rewrite polyMul_rows. split; [exact Hlen|]. split; [exact Hb|]. split.
    + rewrite !polyEval_horner, He, firstn_all. reflexivity.
    + intros Hp1 _. rewrite <- polyMul_rows.
      now destruct (polyMul_facts p (q0 :: q') x Hp Hq Hx Hp1 Hq1) as (_ & _ & _ & T).
Qed.

Lemma polyMul_spec_witness :
  length (polyMul [1; 2; 3] [7; 9]) = (3 + 2 - 1)%nat /\
  Forall is_byte (polyMul [1; 2; 3] [7; 9]) /\
  polyEval (polyMul [1; 2; 3] [7; 9]) 2
  = gfMul (polyEval [1; 2; 3] 2) (polyEval [7; 9] 2) /\
  ((1 <= 3)%nat -> (1 <= 2)%nat ->
   get (polyMul [1; 2; 3] [7; 9]) (Z.of_nat (3 + 2 - 2))
   = gfMul (get [1; 2; 3] (Z.of_nat (3 - 1))) (get [7; 9] (Z.of_nat (2 - 1)))).
Proof.
  apply (polyMul_spec [1; 2; 3] [7; 9] 2);
    [forall_lia|forall_lia|unfold is_byte; lia|cbn; lia].
Defined.

Lemma gfExp_bytes : Forall is_byte gfExp.
Proof.
  apply Forall_forall. intros v Hv. apply list_elem_of_In in Hv.
  assert (Hall : forallb (fun v => (0 <=? v) && (v <? 256)) gfExp = true)
    by (vm_compute; reflexivity).
  rewrite forallb_forall in Hall. specialize (Hall v Hv). unfold is_byte. lia.
Qed.
#[local] Hint Resolve gfExp_bytes : bytes.

Lemma generatorPoly_S (n : nat) :
  generatorPoly (S n) = polyMul (generatorPoly n) [get gfExp (Z.of_nat n); 1].
Proof. unfold generatorPoly. now rewrite for_up_S. Qed.

Lemma factor_bytes (a : Z) : is_byte a -> Forall is_byte [a; 1].
Proof. intros Ha. repeat apply Forall_cons_2; auto with bytes. Qed.

Lemma generatorPoly_shape (n : nat) :
  length (generatorPoly n) = S n /\
  Forall is_byte (generatorPoly n) /\
  get (generatorPoly n) (Z.of_nat n) = 1.
Proof.
  induction n as [|n (Hlen & Hb & Htop)].
  - split; [reflexivity|]. split; [apply Forall_cons_2; auto with bytes|reflexivity].
  - rewrite generatorPoly_S.
    destruct (polyMul_facts (generatorPoly n) [get gfExp (Z.of_nat n); 1] 0)
      as (L & B & _ & T); [auto using factor_bytes with bytes..|lia|cbn; lia|].
    cbn [length] in L, T. split; [lia|]. split; [exact B|].
    replace (Z.of_nat (S n)) with (Z.of_nat (length (generatorPoly n) + 2 - 2)) by lia.
    rewrite T. rewrite Hlen.
    replace (Z.of_nat (S n - 1)) with (Z.of_nat n) by lia.
    rewrite Htop. reflexivity.
Qed.

Lemma generatorPoly_eval_S (n : nat) (x : Z) :
  is_byte x ->
  polyEval (generatorPoly (S n)) x
  = gfMul (polyEval (generatorPoly n) x) (Z.lxor x (get gfExp (Z.of_nat n))).
Proof.
  intros Hx. destruct (generatorPoly_shape n) as (Hlen & Hb & _).
  rewrite generatorPoly_S.
  destruct (polyMul_facts (generatorPoly n) [get gfExp (Z.of_nat n); 1] x)
    as (_ & _ & E & _); [auto using factor_bytes with bytes..|lia|cbn; lia|].
  rewrite E. f_equal. rewrite polyEval_horner. cbn [horner].
  rewrite gfMul_0_l.
  rewrite (gfAdd_lxor 0 1), Z.lxor_0_l, gfMul_1_l by auto with bytes.
  now rewrite gfAdd_lxor by auto with bytes.
Qed.

Lemma generatorPoly_root (n : nat) (j : Z) :
  0 <= j < Z.of_nat n -> polyEval (generatorPoly n) (get gfExp j) = 0.
Proof.
  induction n as [|n IH]; intros Hj; [lia|].
  rewrite generatorPoly_eval_S by auto with bytes.
  destruct (Z.eq_dec j (Z.of_nat n)) as [->|Hne].
  - now rewrite Z.lxor_nilpotent, gfMul_0_r.
  - rewrite IH by lia. apply gfMul_0_l.
Qed.

Lemma gfPow_2 (j : Z) : 0 <= j -> gfPow 2 j = get gfExp (j mod 255).
Proof.
  intros Hj. unfold gfPow. destruct (Z.eqb_spec j 0) as [->|Hnz]; [reflexivity|].
  change (2 =? 0) with false. cbv iota.
  change (get gfLog 2) with 1. rewrite Z.mul_1_l.
  now rewrite Z.rem_mod_nonneg by lia.
Qed.

(** X11: [generatorPoly n] has [n + 1] byte coefficients and leading
    coefficient 1; each further factor multiplies its value at a byte [x]
    by [x + gfExp[n]]; and it vanishes at [gfPow 2 j] for every [j] below
    [n]. *)
Theorem generatorPoly_spec (n : nat) (x : Z) :
  is_byte x ->
  length (generatorPoly n) = S n /\
  Forall is_byte (generatorPoly n) /\
  get (generatorPoly n) (Z.of_nat n) = 1 /\
  polyEval (generatorPoly (S n)) x
  = gfMul (polyEval (generatorPoly n) x) (Z.lxor x (get gfExp (Z.of_nat n))) /\
  forall j, 0 <= j < Z.of_nat n -> polyEval (generatorPoly n) (gfPow 2 j) = 0.
Proof.
  intros Hx. destruct (generatorPoly_shape n) as (H1 & H2 & H3).
  split; [exact H1|]. split; [exact H2|]. split; [exact H3|].
  split; [now apply generatorPoly_eval_S|].
  intros j Hj. rewrite gfPow_2 by lia. apply generatorPoly_root.
  pose proof (Z.mod_pos_bound j 255 ltac:(lia)).
  pose proof (Z.mod_le j 255 ltac:(lia) ltac:(lia)). lia.
Qed.

Lemma generatorPoly_spec_witness :
  length (generatorPoly 4) = 5%nat /\
  Forall is_byte (generatorPoly 4) /\
  get (generatorPoly 4) (Z.of_nat 4) = 1 /\
  polyEval (generatorPoly 5) 0x53
  = gfMul (polyEval (generatorPoly 4) 0x53) (Z.lxor 0x53 (get gfExp (Z.of_nat 4))) /\
  forall j, 0 <= j < Z.of_nat 4 -> polyEval (generatorPoly 4) (gfPow 2 j) = 0.
Proof.
  apply (generatorPoly_spec 4 0x53); unfold is_byte; lia.
Defined.

(** *** The division loop of rsEncode *)

Lemma rsDivide_step_spec (P : nat) (i : nat) (m : list Z) (x : Z) :
  Forall is_byte m -> is_byte x ->
  (i + P < length m)%nat ->
  polyEval (generatorPoly P) x = 0 ->
  (forall k, Z.of_nat (P + i) < k -> get m k = 0) ->
  let m' := rsDivide_step (generatorPoly P) P (Z.of_nat i) m in
  length m' = length m /\ Forall is_byte m' /\
  horner m' x = horner m x /\
  (forall k, Z.of_nat (P + i) <= k -> get m' k = 0).
Proof.
  intros Hm Hx Hlen Hroot Hz. cbv zeta. unfold rsDivide_step.
  destruct (generatorPoly_shape P) as (Lg & Bg & Tg).
  destruct (Z.eqb_spec (get m (Z.of_nat P + Z.of_nat i)) 0) as [Hc|Hc].
  - repeat split; auto. intros k Hk.
    destruct (Z.eq_dec k (Z.of_nat (P + i))) as [->|Hne]; [|apply Hz; lia].
    rewrite <- Hc. f_equal. lia.
  - set (coef := get m (Z.of_nat P + Z.of_nat i)) in *.
    pose proof (scatter_spec i (length (generatorPoly P))
                  (fun j => gfMul (get (generatorPoly P) j) coef) m x) as Hs.
    destruct Hs as (L & B & E & Hout & Hin);
      [subst coef; auto with bytes..|lia|].
    unfold scatter in L, B, E, Hout, Hin.
    split; [exact L|]. split; [exact B|]. split.
    + rewrite E.
      rewrite (xsum_ext _ _ (fun j =>
                 gfMul (gfMul coef (gf_power x i))
                       (gfMul (get (generatorPoly P) (Z.of_nat j)) (gf_power x j)))).
      2:{ intros j Hj. rewrite gf_power_add by assumption.
          assert (is_byte coef) by (subst coef; auto with bytes).
          rewrite (gfMul_comm _ coef).
          rewrite !gfMul_assoc by auto with bytes. f_equal.
          rewrite <- !gfMul_assoc by auto with bytes. f_equal. apply gfMul_comm. }
      rewrite xsum_scale by (subst coef; auto with bytes).
      rewrite <- horner_xsum by assumption.
      rewrite <- (polyEval_horner (generatorPoly P)), Hroot.
      now rewrite gfMul_0_r, Z.lxor_0_r.
    + intros k Hk. destruct (Z.eq_dec k (Z.of_nat (P + i))) as [->|Hne].
      * replace (Z.of_nat (P + i)) with (Z.of_nat (i + P)) by lia.
        rewrite Hin by lia. rewrite Tg.
        rewrite gfMul_1_l by (subst coef; auto with bytes).
        replace (Z.of_nat (i + P)) with (Z.of_nat P + Z.of_nat i) by lia.
        fold coef. apply Z.lxor_nilpotent.
      * rewrite Hout by lia. apply Hz. lia.
Qed.

Lemma rsDivide_loop (P : nat) (n : nat) (m : list Z) (x : Z) :
  Forall is_byte m -> is_byte x ->
  (n + P <= length m)%nat ->
  polyEval (generatorPoly P) x = 0 ->
  (forall k, Z.of_nat (P + n) <= k -> get m k = 0) ->
  let m' := for_down n (rsDivide_step (generatorPoly P) P) m in
  length m' = length m /\ Forall is_byte m' /\
  horner m' x = horner m x /\
  (forall k, Z.of_nat P <= k -> get m' k = 0).
Proof.
  intros Hm Hx Hlen Hroot. cbv zeta. revert m Hm Hlen.
  induction n as [|n IH]; intros m Hm Hlen Hz.
  - repeat split; auto. intros k Hk. apply Hz. lia.
  - rewrite for_down_S.
    destruct (rsDivide_step_spec P n m x Hm Hx) as (L & B & E & Z');
      [lia|exact Hroot|intros; apply Hz; lia|].
    destruct (IH _ B) as (L2 & B2 & E2 & Z2); [lia|exact Z'|].
    split; [lia|]. split; [exact B2|]. split; [congruence|exact Z2].
Qed.

Lemma list_eq_get (l1 l2 : list Z) :
  length l1 = length l2 ->
  (forall k, 0 <= k < Z.of_nat (length l1) -> get l1 k = get l2 k) ->
  l1 = l2.
Proof.
  intros Hlen Hget.
  rewrite <- (map_get_zrange l1), <- (map_get_zrange l2), <- Hlen.
  apply map_ext_in. intros k Hk. apply Hget.
  unfold zrange in Hk. apply in_map_iff in Hk as (i & <- & Hi).
  apply in_seq in Hi. lia.
Qed.

Lemma rsEncode_parity (data : list Z) (parityCount : nat) :
  let msgPoly :=
    for_down (length data) (rsDivide_step (generatorPoly parityCount) parityCount)
      (repeat 0 parityCount ++ map u8 data) in
  rsEncode data parityCount
  = data ++ map (fun i => u8 (get msgPoly i)) (zrange parityCount).
Proof.
  cbv zeta. unfold rsEncode.
  assert (Hfill :
    for_up (length data) (fun i msgPoly =>
      store msgPoly (Z.of_nat parityCount + i) (get data i))
      (newU8 (length data + parityCount))
    = repeat 0 parityCount ++ map u8 data).
  { pose proof (for_up_fill (length data) 0 (repeat 0 parityCount) (get data)) as Hf.
    rewrite repeat_length in Hf. unfold newU8.
    replace (length data + parityCount)%nat with (parityCount + (length data + 0))%nat by lia.
    rewrite repeat_app. rewrite Hf. rewrite app_nil_r. f_equal.
    rewrite <- (map_get_zrange data) at 2. now rewrite map_map. }
  rewrite Hfill.
  change (for_down (length data) _ (repeat 0 parityCount ++ map u8 data))
    with (for_down (length data)
            (rsDivide_step (generatorPoly parityCount) parityCount)
            (repeat 0 parityCount ++ map u8 data)).
  set (msgPoly := for_down _ _ _).
  unfold typed_set, newU8.
  rewrite drop_repeat_add.
  pose proof (for_up_fill parityCount 0 data (fun i => get msgPoly i)) as Hf.
  rewrite Nat.add_0_r, app_nil_r in Hf. exact Hf.
Qed.

Lemma rsEncode_parity_roots (data : list Z) (parityCount : nat) :
  Forall is_byte data ->
  exists parity,
    rsEncode data parityCount = data ++ parity /\
    length parity = parityCount /\
    Forall is_byte parity /\
    forall j, 0 <= j < Z.of_nat parityCount ->
              polyEval (parity ++ data) (gfPow 2 j) = 0.
Proof.
  intros Hd. set (P := parityCount).
  pose proof (rsEncode_parity data P) as Henc. cbv zeta in Henc.
  set (m0 := repeat 0 P ++ map u8 data) in *.
  set (m := for_down _ _ m0) in *.
  assert (Hu : map u8 data = data).
  { clear -Hd. induction Hd as [|c l Hc Hl IH]; [reflexivity|].
    cbn [map]. now rewrite IH, u8_byte. }
  assert (Hm0 : Forall is_byte m0).
  { subst m0. rewrite Hu. apply Forall_app. split; auto with bytes. }
  assert (Hl0 : length m0 = (P + length data)%nat).
  { subst m0. now rewrite length_app, repeat_length, length_map. }
  assert (Hz0 : forall k, Z.of_nat (P + length data) <= k -> get m0 k = 0).
  { intros k Hk. apply get_outside. lia. }
  exists (map (fun i => u8 (get m i)) (zrange P)).
  split; [exact Henc|]. split; [now rewrite length_map, length_zrange|].
  split.
  { apply Forall_forall. intros v Hv. apply list_elem_of_In, in_map_iff in Hv.
    destruct Hv as (i & <- & _). apply u8_is_byte. }
  intros j Hj.
  assert (Hx : is_byte (gfPow 2 j)) by (rewrite gfPow_2 by lia; auto with bytes).
  assert (Hroot : polyEval (generatorPoly P) (gfPow 2 j) = 0).
  { rewrite gfPow_2 by lia. apply generatorPoly_root.
    pose proof (Z.mod_pos_bound j 255 ltac:(lia)).
    pose proof (Z.mod_le j 255 ltac:(lia) ltac:(lia)). lia. }
  destruct (rsDivide_loop P (length data) m0 (gfPow 2 j) Hm0 Hx)
    as (L & B & E & Z'); [lia|exact Hroot|exact Hz0|].
  fold m in L, B, E, Z'.
  assert (Hsplit : m = map (fun i => u8 (get m i)) (zrange P) ++ repeat 0 (length data)).
  { apply list_eq_get.
    - rewrite length_app, length_map, length_zrange, repeat_length. lia.
    - intros k Hk. destruct (Z.lt_ge_cases k (Z.of_nat P)) as [Hlt|Hge].
      + rewrite get_app_l by (rewrite length_map, length_zrange; lia).
        rewrite get_map_zrange by lia. rewrite u8_byte; auto with bytes.
      + rewrite Z' by lia. symmetry.
        unfold get. destruct (Z.leb_spec 0 k); [|reflexivity].
        rewrite lookup_app_r by (rewrite length_map, length_zrange; lia).
        destruct (repeat 0 (length data) !! _) as [v|] eqn:Hv; [|reflexivity].
        apply list_elem_of_lookup_2, list_elem_of_In, repeat_spec in Hv. now subst. }
  set (parity := map (fun i => u8 (get m i)) (zrange P)) in *.
  assert (Hpb : Forall is_byte parity).
  { apply Forall_forall. intros v Hv. apply list_elem_of_In, in_map_iff in Hv.
    destruct Hv as (i & <- & _). apply u8_is_byte. }
  assert (Hpl : length parity = P) by (subst parity; now rewrite length_map, length_zrange).
  rewrite polyEval_horner, horner_app by auto with bytes.
  assert (Hpar : horner parity (gfPow 2 j) = horner m (gfPow 2 j)).
  { transitivity (horner (parity ++ repeat 0 (length data)) (gfPow 2 j));
      [|now rewrite <- Hsplit].
    rewrite horner_app by auto with bytes.
    now rewrite horner_repeat_0, gfMul_0_r, Z.lxor_0_r. }
  rewrite Hpar, E. subst m0. rewrite Hu.
  rewrite horner_app by auto with bytes.
  rewrite horner_repeat_0, Z.lxor_0_l, repeat_length, Hpl.
  apply Z.lxor_nilpotent.
Qed.

(** ** Reed-Solomon: the code words and the decoder *)

Lemma rsDecode_within_budget (data : list (option Z)) (dataLength parityCount : Z) :
  Z.of_nat (erasure_count data) <= parityCount ->
  rsDecode data dataLength parityCount <> Ok None.
Proof.
  intros Hle. unfold rsDecode.
  rewrite erasurePositions_length by lia. rewrite firstn_all.
  destruct (Z.gtb_spec (Z.of_nat (erasure_count data)) parityCount); [lia|].
  set (received := for_up (length data) _ _).
  destruct (_ =? 0)%nat.
  - destruct (rsExtract received dataLength); cbn; discriminate.
  - destruct (forallb _ _).
    + destruct (rsExtract received dataLength); cbn; discriminate.
    + destruct (calcErasureValues _ _ _); cbn; [|discriminate].
      destruct (rsExtract _ dataLength); cbn; discriminate.
Qed.

Lemma rsDecode_null (data : list (option Z)) (dataLength parityCount : Z) :
  parityCount < Z.of_nat (erasure_count data) ->
  rsDecode data dataLength parityCount = Ok None.
Proof.
  intros Hgt. unfold rsDecode.
  rewrite erasurePositions_length by lia. rewrite firstn_all.
  destruct (Z.gtb_spec (Z.of_nat (erasure_count data)) parityCount); [reflexivity|lia].
Qed.

Lemma gfPow_byte (a n : Z) : is_byte (gfPow a n).
Proof.
  unfold gfPow. destruct (n =? 0); [apply is_byte_1|].
  destruct (a =? 0); [apply is_byte_0|]. apply get_byte, gfExp_bytes.
Qed.

Lemma calcErasureLocator_snoc (ps : list Z) (pos : Z) :
  calcErasureLocator (ps ++ [pos])
  = polyMul (calcErasureLocator ps) [gfPow 2 pos; 1].
Proof. unfold calcErasureLocator. now rewrite fold_left_app. Qed.

Lemma locator_product_byte ps x : is_byte x -> is_byte (locator_product ps x).
Proof.
  intros Hx. unfold locator_product.
  induction ps as [|p ps IH] using rev_ind; [apply is_byte_1|].
  rewrite fold_left_app. cbn [fold_left].
  apply gfMul_byte; [exact IH|]. apply lxor_byte; [exact Hx|apply gfPow_byte].
Qed.

Lemma calcErasureLocator_shape (erasurePositions : list Z) (x : Z) :
  is_byte x ->
  length (calcErasureLocator erasurePositions) = S (length erasurePositions) /\
  Forall is_byte (calcErasureLocator erasurePositions) /\
  get (calcErasureLocator erasurePositions) (Z.of_nat (length erasurePositions)) = 1 /\
  polyEval (calcErasureLocator erasurePositions) x
  = locator_product erasurePositions x.
Proof.
  intros Hx. induction erasurePositions as [|pos ps (Hlen & Hb & Htop & He)] using rev_ind.
  - split; [reflexivity|]. split; [apply Forall_cons_2; auto with bytes|].
    split; [reflexivity|]. rewrite polyEval_horner.
    unfold calcErasureLocator. cbn [fold_left horner]. rewrite gfMul_0_l. reflexivity.
  - rewrite calcErasureLocator_snoc.
    pose proof (gfPow_byte 2 pos) as Hp.
    destruct (polyMul_facts (calcErasureLocator ps) [gfPow 2 pos; 1] x)
      as (L & B & E & T); [auto using factor_bytes with bytes..|lia|cbn; lia|].
    cbn [length] in L, T. rewrite length_app. cbn [length].
    split; [lia|]. split; [exact B|]. split.
    + replace (Z.of_nat (length ps + 1))
        with (Z.of_nat (length (calcErasureLocator ps) + 2 - 2)) by lia.
      rewrite T, Hlen.
      replace (Z.of_nat (S (length ps) - 1)) with (Z.of_nat (length ps)) by lia.
      rewrite Htop. reflexivity.
    + rewrite E, He. unfold locator_product. rewrite fold_left_app. cbn [fold_left].
      f_equal. rewrite polyEval_horner. cbn [horner]. rewrite gfMul_0_l.
      rewrite (gfAdd_lxor 0 1), Z.lxor_0_l, gfMul_1_l by auto with bytes.
      now rewrite gfAdd_lxor by auto with bytes.
Qed.

Lemma locator_product_root (ps : list Z) (pos : Z) :
  pos ∈ ps -> locator_product ps (gfPow 2 pos) = 0.
Proof.
  unfold locator_product.
  induction ps as [|p ps IH] using rev_ind; intros Hin; [inversion Hin|].
  rewrite fold_left_app. cbn [fold_left].
  apply elem_of_app in Hin as [Hin|Hin].
  - rewrite IH by exact Hin. apply gfMul_0_l.
  - apply list_elem_of_singleton in Hin. subst p.
    now rewrite Z.lxor_nilpotent, gfMul_0_r.
Qed.

(** X12: [calcErasureLocator] returns a polynomial with one coefficient
    more than there are positions and leading coefficient 1; its value at a
    byte [x] is the product of the factors [x + gfPow 2 pos], so it vanishes
    at [gfPow 2 pos] for every erased position [pos]. *)
Theorem calcErasureLocator_roots (erasurePositions : list Z) (x : Z) :
  is_byte x ->
  length (calcErasureLocator erasurePositions) = S (length erasurePositions) /\
  get (calcErasureLocator erasurePositions) (Z.of_nat (length erasurePositions)) = 1 /\
  polyEval (calcErasureLocator erasurePositions) x
  = locator_product erasurePositions x /\
  forall pos, pos ∈ erasurePositions ->
              polyEval (calcErasureLocator erasurePositions) (gfPow 2 pos) = 0.
Proof.
  intros Hx.
  destruct (calcErasureLocator_shape erasurePositions x Hx) as (L & _ & T & E).
  split; [exact L|]. split; [exact T|]. split; [exact E|].
  intros pos Hin.
  destruct (calcErasureLocator_shape erasurePositions (gfPow 2 pos) (gfPow_byte 2 pos))
    as (_ & _ & _ & ->).
  now apply locator_product_root.
Qed.

Lemma calcErasureLocator_roots_witness :
  length (calcErasureLocator [4; 2]) = 3%nat /\
  get (calcErasureLocator [4; 2]) (Z.of_nat 2) = 1 /\
  polyEval (calcErasureLocator [4; 2]) 0x53 = locator_product [4; 2] 0x53 /\
  forall pos, pos ∈ [4; 2] -> polyEval (calcErasureLocator [4; 2]) (gfPow 2 pos) = 0.
Proof.
  apply (calcErasureLocator_roots [4; 2] 0x53); unfold is_byte; lia.
Defined.

(** *** calcSyndromes *)

Lemma calcSyndromes_map (received : list Z) (parityCount : Z) :
  calcSyndromes received parityCount
  = map (fun i => u8 (polyEval received (gfPow 2 i))) (zrange (Z.to_nat parityCount)).
Proof. unfold calcSyndromes. apply for_up_fill_new. Qed.

(** *** The shape of what rsDecode returns *)

Lemma rsExtract_shape (received : list Z) (dataLength : Z) (r : list Z) :
  rsExtract received dataLength = Ok r ->
  0 <= dataLength /\ length r = Z.to_nat dataLength /\ Forall is_byte r.
Proof.
  intros Hr. destruct (Z.ltb_spec dataLength 0) as [Hneg|Hpos].
  - unfold rsExtract in Hr. destruct (Z.ltb_spec dataLength 0); [discriminate|lia].
  - rewrite rsExtract_eq in Hr by lia. injection Hr as <-.
    split; [lia|]. split; [now rewrite length_map, length_zrange|].
    apply Forall_forall. intros v Hv. apply list_elem_of_fmap in Hv.
    destruct Hv as (i & -> & _). apply u8_is_byte.
Qed.

(** X13: [rsDecode] returns [null] only when more symbols are erased than
    there are parity symbols; whenever it returns an array, the erasures are
    within that budget, the data length is not negative, and the array has
    exactly [dataLength] entries, all bytes. *)
Theorem rsDecode_result (data : list (option Z)) (dataLength parityCount : Z) :
  (Z.of_nat (erasure_count data) <= parityCount ->
   rsDecode data dataLength parityCount <> Ok None) /\
  (forall r, rsDecode data dataLength parityCount = Ok (Some r) ->
     Z.of_nat (erasure_count data) <= parityCount /\
     0 <= dataLength /\ length r = Z.to_nat dataLength /\ Forall is_byte r).
Proof.
  split; [apply rsDecode_within_budget|].
  intros r Hr.
  destruct (Z.le_gt_cases (Z.of_nat (erasure_count data)) parityCount) as [Hle|Hgt].
  2:{ rewrite rsDecode_null in Hr by lia. discriminate. }
  split; [exact Hle|].
  unfold rsDecode in Hr.
  rewrite erasurePositions_length in Hr by lia. rewrite firstn_all in Hr.
  destruct (Z.gtb_spec (Z.of_nat (erasure_count data)) parityCount); [lia|].
  set (received := for_up (length data) _ (newU8 (length data))) in Hr.
  destruct (_ =? 0)%nat.
  - destruct (rsExtract received dataLength) as [res|] eqn:He; cbn in Hr; [|discriminate].
    injection Hr as <-. exact (rsExtract_shape _ _ _ He).
  - destruct (forallb _ _).
    + destruct (rsExtract received dataLength) as [res|] eqn:He; cbn in Hr; [|discriminate].
      injection Hr as <-. exact (rsExtract_shape _ _ _ He).
    + destruct (calcErasureValues _ _ _); cbn in Hr; [|discriminate].
      destruct (rsExtract _ dataLength) as [res|] eqn:He; cbn in Hr; [|discriminate].
      injection Hr as <-. exact (rsExtract_shape _ _ _ He).
Qed.

Lemma rsDecode_result_witness :
  rsDecode [Some 0x41; None; Some 0x37; Some 1; Some 2] 3 2 <> Ok None /\
  (forall r, rsDecode [Some 0x41; None; Some 0x37; Some 1; Some 2] 3 2 = Ok (Some r) ->
     Z.of_nat (erasure_count [Some 0x41; None; Some 0x37; Some 1; Some 2]) <= 2 /\
     0 <= 3 /\ length r = Z.to_nat 3 /\ Forall is_byte r).
Proof.
  destruct (rsDecode_result [Some 0x41; None; Some 0x37; Some 1; Some 2] 3 2)
    as [Hnull Hshape].
  split; [apply Hnull; cbn; lia|exact Hshape].
Defined.

(** X14: for byte data, [rsEncode] returns the data followed by
    [parityCount] parity bytes, and [rsDecode] of the untouched code word
    returns the data. *)
Theorem rs_intact_roundtrip (data : list Z) (parityCount : nat) :
  Forall is_byte data ->
  length (rsEncode data parityCount) = (length data + parityCount)%nat /\
  take (length data) (rsEncode data parityCount) = data /\
  Forall is_byte (rsEncode data parityCount) /\
  rsDecode (map Some (rsEncode data parityCount))
           (Z.of_nat (length data)) (Z.of_nat parityCount) = Ok (Some data).
Proof.
  intros Hd.
  destruct (rsEncode_parity_roots data parityCount Hd) as (parity & Henc & Hl & Hb & _).
  rewrite Henc. split; [rewrite length_app; lia|].
  split; [now rewrite take_app_length|].
  split; [apply Forall_app; split; assumption|].
  rewrite <- Henc. now apply rs_roundtrip_no_erasure.
Qed.

Lemma rs_intact_roundtrip_witness :
  length (rsEncode [0x48; 0x69; 0] 4) = (3 + 4)%nat /\
  take 3 (rsEncode [0x48; 0x69; 0] 4) = [0x48; 0x69; 0] /\
  Forall is_byte (rsEncode [0x48; 0x69; 0] 4) /\
  rsDecode (map Some (rsEncode [0x48; 0x69; 0] 4)) (Z.of_nat 3) (Z.of_nat 4)
  = Ok (Some [0x48; 0x69; 0]).
Proof.
  apply (rs_intact_roundtrip [0x48; 0x69; 0] 4). forall_lia.
Defined.

Lemma map_const_zrange (n : nat) : map (fun _ : Z => 0) (zrange n) = repeat 0 n.
Proof.
  induction n as [|n IH]; [reflexivity|].
  rewrite zrange_S, map_app, IH. cbn [map].
  clear IH. induction n as [|n IH]; [reflexivity|].
  cbn [repeat app]. now rewrite IH.
Qed.

(** X15: for byte data, the parity bytes [rsEncode] appends make the
    polynomial with the parity as low and the data as high coefficients
    vanish at [gfPow 2 j] for every [j] below [parityCount]; that is,
    [calcSyndromes] of the parity followed by the data is all zero. *)
Theorem rsEncode_codeword (data : list Z) (parityCount : nat) :
  Forall is_byte data ->
  exists parity,
    rsEncode data parityCount = data ++ parity /\
    length parity = parityCount /\
    Forall is_byte parity /\
    (forall j, 0 <= j < Z.of_nat parityCount ->
               polyEval (parity ++ data) (gfPow 2 j) = 0) /\
    calcSyndromes (parity ++ data) (Z.of_nat parityCount) = repeat 0 parityCount.
Proof.
  intros Hd.
  destruct (rsEncode_parity_roots data parityCount Hd) as (parity & Henc & Hl & Hb & Hz).
  exists parity. repeat split; try assumption.
  rewrite calcSyndromes_map, Nat2Z.id.
  rewrite (map_zrange_ext _ (fun _ => 0))
    by (intros i Hi; rewrite Hz by lia; reflexivity).
  apply map_const_zrange.
Qed.

Lemma rsEncode_codeword_witness :
  exists parity,
    rsEncode [0x48; 0x69; 0] 4 = [0x48; 0x69; 0] ++ parity /\
    length parity = 4%nat /\
    Forall is_byte parity /\
    (forall j, 0 <= j < Z.of_nat 4 ->
               polyEval (parity ++ [0x48; 0x69; 0]) (gfPow 2 j) = 0) /\
    calcSyndromes (parity ++ [0x48; 0x69; 0]) (Z.of_nat 4) = repeat 0 4.
Proof.
  apply (rsEncode_codeword [0x48; 0x69; 0] 4). forall_lia.
Defined.

(** ** decodeFrames *)

Lemma distribute_spec (s : nat) (c : Z) (decoded : list Z) (D : nat)
    (R : list (list Z)) :
  (length R <= D)%nat ->
  distribute s c decoded (Z.of_nat D) R
  = map (fun i => store (default (newU8 s) (R !! Z.to_nat i)) c (get decoded i))
        (zrange D).
Proof.
  intros HR. unfold distribute. rewrite Nat2Z.id.
  assert (Hgen : forall k, (k <= D)%nat ->
    for_up k (fun frameIdx result =>
      let result :=
        match result !! Z.to_nat frameIdx with
        | Some _ => result
        | None => result ++ [newU8 s]
        end in
      alter (fun row => store row c (get decoded frameIdx))
            (Z.to_nat frameIdx) result) R
    = map (fun i => store (default (newU8 s) (R !! Z.to_nat i)) c (get decoded i))
          (zrange k) ++ drop k R).
  { induction k as [|k IH]; intros Hk; [now rewrite for_up_0, drop_0|].
    rewrite for_up_S, IH by lia. cbv zeta. rewrite Nat2Z.id.
    set (pre := map _ (zrange k)).
    assert (Hpre : length pre = k) by (subst pre; now rewrite length_map, length_zrange).
    rewrite zrange_S, map_app. fold pre. cbn [map]. rewrite Nat2Z.id.
    destruct (R !! k) as [row|] eqn:Hrow.
    - rewrite (drop_S R row k Hrow).
      rewrite lookup_app_r, Hpre, Nat.sub_diag by lia. cbn [lookup list_lookup].
      rewrite alter_app_r_alt by lia. rewrite Hpre, Nat.sub_diag. cbn.
      now rewrite <- app_assoc.
    - apply lookup_ge_None in Hrow.
      rewrite !drop_ge by lia. rewrite !app_nil_r.
      rewrite lookup_ge_None_2 by lia.
      rewrite alter_app_r_alt by lia. rewrite Hpre, Nat.sub_diag. reflexivity. }
  etransitivity; [apply (Hgen D (le_n _))|].
  rewrite drop_ge by lia. apply app_nil_r.
Qed.

Lemma byteColumnOf_complete (rows : list (list Z)) (s : nat) (c : Z) :
  Forall (fun row => length row = s) rows ->
  0 <= c < Z.of_nat s ->
  byteColumnOf (map Some rows) (Z.of_nat (length rows)) c
  = Ok (map Some (map (fun i => get (default [] (rows !! Z.to_nat i)) c)
                      (zrange (length rows)))).
Proof.
  intros Hrows Hc. unfold byteColumnOf. rewrite Nat2Z.id.
  rewrite map_map, <- for_up_push.
  apply for_up_r_ok. intros i a Hi.
  rewrite list_lookup_fmap.
  destruct (rows !! Z.to_nat i) as [row|] eqn:Hrow.
  - change (Some <$> Some row) with (Some (Some row)).
    change (default [] (Some row)) with row. cbv beta iota.
    assert (Hl : length row = s) by exact (Forall_lookup_1 _ _ _ _ Hrows Hrow).
    destruct (Z.leb_spec (Z.of_nat (length row)) c); [lia|reflexivity].
  - apply lookup_ge_None in Hrow. lia.
Qed.

Lemma store_rowAt (rows : list (list Z)) (s c : nat) (i : Z) :
  Forall (fun row => length row = s) rows -> Forall (Forall is_byte) rows ->
  (c < s)%nat -> 0 <= i < Z.of_nat (length rows) ->
  store (rowAt rows s c i) (Z.of_nat c)
        (get (default [] (rows !! Z.to_nat i)) (Z.of_nat c))
  = rowAt rows s (S c) i.
Proof.
  intros Hlen Hb Hc Hi. unfold rowAt.
  destruct (rows !! Z.to_nat i) as [row|] eqn:Hrow;
    [|apply lookup_ge_None in Hrow; lia].
  change (default [] (Some row)) with row.
  assert (Hl : length row = s) by exact (Forall_lookup_1 _ _ _ _ Hlen Hrow).
  assert (Hrb : Forall is_byte row) by exact (Forall_lookup_1 _ _ _ _ Hb Hrow).
  assert (Hcl : (c < length row)%nat) by lia.
  destruct (lookup_lt_is_Some_2 row c Hcl) as [v Hv].
  rewrite (take_S_r row c v Hv).
  replace (s - c)%nat with (S (s - S c)) by lia. cbn [repeat].
  replace (Z.of_nat c) with (Z.of_nat (length (take c row)) + 0)
    by (rewrite length_take; lia).
  rewrite store_app_r by lia. rewrite store_cons_0.
  rewrite <- app_assoc. cbn [app]. do 2 f_equal.
  replace (Z.of_nat (length (take c row)) + 0) with (Z.of_nat c)
    by (rewrite length_take; lia).
  unfold get. destruct (Z.leb_spec 0 (Z.of_nat c)); [|lia].
  rewrite Nat2Z.id, Hv. change (default 0 (Some v)) with v.
  apply u8_byte. exact (Forall_lookup_1 _ _ _ _ Hrb Hv).
Qed.

(** X16: given all [D + P] frames, each of the same non-zero size and
    made of bytes, [decodeFrames] returns the first [D] of them. *)
Theorem decodeFrames_complete (rows : list (list Z)) (s D P : nat) :
  (1 <= s)%nat -> (1 <= D + P)%nat ->
  length rows = (D + P)%nat ->
  Forall (fun row => length row = s) rows ->
  Forall (Forall is_byte) rows ->
  decodeFrames (map Some rows) (Z.of_nat D) (Z.of_nat P) = Ok (Some (take D rows)).
Proof.
  intros Hs Hne Hn Hlen Hb. unfold decodeFrames.
  destruct rows as [|row0 rows'] eqn:Hrows.
  { cbn [length] in Hn. lia. }
  rewrite <- Hrows in *.
  assert (Hfirst : firstFrame (map Some rows) = Some row0) by (rewrite Hrows; reflexivity).
  assert (H0 : length row0 = s).
  { rewrite Hrows in Hlen. now apply Forall_cons_1 in Hlen as [? _]. }
  replace (match map Some rows with
           | [] | None :: _ => _
           | Some _ :: _ => false
           end) with false by (rewrite Hrows; reflexivity).
  rewrite Hfirst, H0.
  destruct (Nat.eqb_spec s 0) as [|_]; [lia|].
  replace (Z.of_nat D + Z.of_nat P) with (Z.of_nat (length rows)) by lia.
  assert (Hgen : forall c, (c <= s)%nat ->
    for_up_r c (fun byteIdx acc =>
      match acc with
      | None => Ok None
      | Some result =>
          let* byteColumn := byteColumnOf (map Some rows) (Z.of_nat (length rows)) byteIdx in
          let* decoded := rsDecode byteColumn (Z.of_nat D) (Z.of_nat P) in
          match decoded with
          | None => Ok None
          | Some decoded =>
              Ok (Some (distribute s byteIdx decoded (Z.of_nat D) result))
          end
      end) (Some [])
    = Ok (Some (match c with
                | O => []
                | S _ => map (rowAt rows s c) (zrange D)
                end))).
  { induction c as [|c IH]; intros Hc; [reflexivity|].
    rewrite for_up_r_S, IH by lia. cbn [bind].
    rewrite (byteColumnOf_complete rows s) by (auto; lia). cbn [bind].
    rewrite rsDecode_no_erasure by (rewrite ?length_map, ?length_zrange; lia).
    cbn [bind]. do 2 f_equal.
    rewrite Nat2Z.id, take_map_zrange by lia.
    set (R := match c with O => [] | S _ => map (rowAt rows s c) (zrange D) end).
    rewrite distribute_spec.
    2:{ subst R. destruct c; [cbn; lia|]. rewrite length_map, length_zrange. lia. }
    apply map_zrange_ext. intros i Hi.
    rewrite <- store_rowAt by (auto; lia).
    assert (HR : default (newU8 s) (R !! Z.to_nat i) = rowAt rows s c i).
    { subst R. destruct c as [|c'].
      - cbn. unfold rowAt. rewrite take_0. cbn. now rewrite Nat.sub_0_r.
      - rewrite list_lookup_fmap, lookup_zrange by lia. cbn. now rewrite Z2Nat.id by lia. }
    rewrite HR. f_equal.
    rewrite map_map, get_map_zrange by lia.
    apply u8_byte. apply get_byte.
    destruct (rows !! Z.to_nat i) as [row|] eqn:Hrow;
      [exact (Forall_lookup_1 _ _ _ _ Hb Hrow)|constructor]. }
  rewrite (Hgen s (le_n _)).
  destruct s as [|s']; [lia|]. do 2 f_equal.
  apply list_eq. intros k. rewrite list_lookup_fmap.
  destruct (decide (k < D)%nat) as [Hk|Hk].
  - rewrite lookup_zrange, lookup_take_lt by lia.
    destruct (rows !! k) as [row|] eqn:Hrow;
      [|apply lookup_ge_None in Hrow; lia].
    cbn [fmap option_fmap option_map]. f_equal.
    unfold rowAt. rewrite Nat2Z.id, Hrow, Nat.sub_diag.
    change (default [] (Some row)) with row. cbn [repeat]. rewrite app_nil_r.
    apply take_ge.
    rewrite (Forall_lookup_1 _ _ _ _ Hlen Hrow). lia.
  - rewrite lookup_take_ge by lia.
    rewrite (lookup_ge_None_2 (zrange D)) by (rewrite length_zrange; lia).
    reflexivity.
Qed.

Lemma decodeFrames_complete_witness :
  decodeFrames (map Some [[1; 2]; [3; 4]; [5; 6]]) (Z.of_nat 2) (Z.of_nat 1)
  = Ok (Some (take 2 [[1; 2]; [3; 4]; [5; 6]])).
Proof.
  apply (decodeFrames_complete [[1; 2]; [3; 4]; [5; 6]] 2 2 1);
    [lia|lia|reflexivity| |].
  - repeat first [apply Forall_nil_2 | apply Forall_cons_2; [reflexivity|]].
  - repeat first [apply Forall_nil_2 | apply Forall_cons_2; [forall_lia|]].
Defined.

Lemma for_up_r_0 {A : Type} (body : Z -> A -> result A) (s : A) :
  for_up_r 0 body s = Ok s.
Proof. reflexivity. Qed.

Lemma for_up_r_Throw {A : Type} (k n : nat) (body : Z -> A -> result A) (s : A) msg :
  (k <= n)%nat -> for_up_r k body s = Throw msg -> for_up_r n body s = Throw msg.
Proof.
  intros Hkn Hk. induction n as [|n IH].
  - replace k with 0%nat in Hk by lia. exact Hk.
  - destruct (Nat.eq_dec k (S n)) as [->|Hne]; [exact Hk|].
    rewrite for_up_r_S, IH by lia. reflexivity.
Qed.

Lemma byteColumnOf_prefix (frames : list (option (list Z))) (c : Z) (k : nat) :
  (k <= length frames)%nat ->
  byteColumnOf frames (Z.of_nat k) c = Ok (map (cellOf c) (take k frames)).
Proof.
  unfold byteColumnOf. rewrite Nat2Z.id.
  induction k as [|k IH]; intros Hk; [reflexivity|].
  rewrite for_up_r_S, IH by lia. cbn [bind]. rewrite Nat2Z.id.
  destruct (lookup_lt_is_Some_2 frames k ltac:(lia)) as [fr Hfr].
  rewrite Hfr, (take_S_r frames k fr Hfr), map_app. cbn [map].
  destruct fr as [frame|]; [|reflexivity].
  unfold cellOf. now destruct (_ <=? _).
Qed.

Lemma byteColumnOf_short (frames : list (option (list Z))) (total c : Z) :
  Z.of_nat (length frames) < total ->
  exists msg, byteColumnOf frames total c = Throw msg.
Proof.
  intros Hlt.
  pose proof (byteColumnOf_prefix frames c (length frames) (le_n _)) as Hpre.
  unfold byteColumnOf in *. rewrite Nat2Z.id in Hpre.
  eexists. apply (for_up_r_Throw (S (length frames))); [lia|].
  rewrite for_up_r_S, Hpre. cbn [bind]. rewrite Nat2Z.id.
  rewrite lookup_ge_None_2 by lia. reflexivity.
Qed.

Lemma erasure_count_cells (frames : list (option (list Z))) (c : Z) :
  (null_count frames <= erasure_count (map (cellOf c) frames))%nat.
Proof.
  induction frames as [|[frame|] frames IH]; cbn [map null_count erasure_count cellOf].
  - lia.
  - destruct (_ <=? _); cbn [erasure_count]; lia.
  - lia.
Qed.

Lemma decodeFrames_loop_None (n : nat) (body : Z -> list (list Z) -> result (option (list (list Z)))) :
  (1 <= n)%nat -> body 0 [] = Ok None ->
  for_up_r n (fun byteIdx acc =>
    match acc with
    | None => Ok None
    | Some result => body byteIdx result
    end) (Some []) = Ok None.
Proof.
  intros Hn H0. induction n as [|n IH]; [lia|].
  rewrite for_up_r_S. destruct n as [|n].
  - cbn. exact H0.
  - rewrite IH by lia. reflexivity.
Qed.

Lemma decodeFrames_nonempty (frames : list (option (list Z))) (D P : Z) (f : list Z) :
  firstFrame frames = Some f -> f <> [] ->
  decodeFrames frames D P
  = for_up_r (length f) (fun byteIdx acc =>
      match acc with
      | None => Ok None
      | Some result =>
          let* byteColumn := byteColumnOf frames (D + P) byteIdx in
          let* decoded := rsDecode byteColumn D P in
          match decoded with
          | None => Ok None
          | Some decoded =>
              Ok (Some (distribute (length f) byteIdx decoded D result))
          end
      end) (Some []).
Proof.
  intros Hf Hne. unfold decodeFrames. rewrite Hf.
  assert (Hl : (length f =? 0)%nat = false).
  { destruct f; [congruence|reflexivity]. }
  rewrite Hl.
  destruct frames as [|[fr|] frames]; reflexivity.
Qed.

(** X17: [decodeFrames] returns [null] when no frame is present or the
    first frame present is empty; when the first frame present is not empty
    it throws if [frames] holds fewer than [D + P] entries, and returns
    [null] if it holds exactly [D + P] entries of which more than [P] are
    [null]. *)
Theorem decodeFrames_failures (frames : list (option (list Z))) (D P : Z) :
  (firstFrame frames = None \/ firstFrame frames = Some [] ->
   decodeFrames frames D P = Ok None) /\
  (forall f, firstFrame frames = Some f -> f <> [] ->
     (Z.of_nat (length frames) < D + P ->
      exists msg, decodeFrames frames D P = Throw msg) /\
     (Z.of_nat (length frames) = D + P -> P < Z.of_nat (null_count frames) ->
      decodeFrames frames D P = Ok None)).
Proof.
  split.
  - intros [Hf|Hf]; unfold decodeFrames; rewrite Hf; cbn [length Nat.eqb];
      destruct frames as [|[fr|] frames]; reflexivity.
  - intros f Hf Hne.
    assert (Hl : (1 <= length f)%nat) by (destruct f; [congruence|cbn; lia]).
    rewrite (decodeFrames_nonempty frames D P f Hf Hne). split.
    + intros Hshort.
      destruct (byteColumnOf_short frames (D + P) 0 Hshort) as [msg Hmsg].
      exists msg. apply (for_up_r_Throw 1); [lia|].
      rewrite for_up_r_S, for_up_r_0. cbn [bind]. change (Z.of_nat 0) with 0.
      rewrite Hmsg. reflexivity.
    + intros Hlen Hnull.
      apply (decodeFrames_loop_None (length f)
               (fun byteIdx result =>
                  let* byteColumn := byteColumnOf frames (D + P) byteIdx in
                  let* decoded := rsDecode byteColumn D P in
                  match decoded with
                  | None => Ok None
                  | Some decoded =>
                      Ok (Some (distribute (length f) byteIdx decoded D result))
                  end)); [exact Hl|].
      rewrite <- Hlen, byteColumnOf_prefix, firstn_all by lia. cbn [bind].
      rewrite rsDecode_null; [reflexivity|].
      pose proof (erasure_count_cells frames 0). lia.
Qed.

Lemma decodeFrames_failures_witness :
  (firstFrame [None; Some [7; 8]; None] = None \/
   firstFrame [None; Some [7; 8]; None] = Some [] ->
   decodeFrames [None; Some [7; 8]; None] 2 1 = Ok None) /\
  (forall f, firstFrame [None; Some [7; 8]; None] = Some f -> f <> [] ->
     (Z.of_nat (length [None; Some [7; 8]; None]) < 2 + 1 ->
      exists msg, decodeFrames [None; Some [7; 8]; None] 2 1 = Throw msg) /\
     (Z.of_nat (length [None; Some [7; 8]; None]) = 2 + 1 ->
      1 < Z.of_nat (null_count [None; Some [7; 8]; None]) ->
      decodeFrames [None; Some [7; 8]; None] 2 1 = Ok None)).
Proof.
  exact (decodeFrames_failures [None; Some [7; 8]; None] 2 1).
Defined.

(** ** The multi-frame decoder *)

Lemma addFrame_known (st : DecoderState.t) (f : AuroraFrame) :
  DecoderState.sequenceId st = Some (sequenceId f) ->
  addFrame st f
  = if (frameIndex f <? 0) || (frameIndex f >=? or0 (DecoderState.totalFrames st))
    then (false, st)
    else (true,
          {| DecoderState.sequenceId := DecoderState.sequenceId st;
             DecoderState.totalFrames := DecoderState.totalFrames st;
             DecoderState.dataFrames := DecoderState.dataFrames st;
             DecoderState.parityFrames := DecoderState.parityFrames st;
             DecoderState.collectedFrames :=
               <[frameIndex f := f]> (DecoderState.collectedFrames st);
             DecoderState.originalDataLength :=
               DecoderState.originalDataLength st |}).
Proof.
  intros Hs. unfold addFrame. rewrite Hs. cbv beta iota zeta. rewrite Hs.
  destruct (decide (Some (sequenceId f) = Some (sequenceId f))); [|congruence].
  now rewrite <- Hs.
Qed.

(** X18: adding the same frame twice in a row is the same as adding it
    once: the second call returns what the first returned and leaves the
    state the first left. *)
Theorem addFrame_idempotent (st : DecoderState.t) (f : AuroraFrame) :
  addFrame (snd (addFrame st f)) f = addFrame st f.
Proof.
  unfold addFrame at 2 3.
  set (st1 := match DecoderState.sequenceId st with
              | None => adopt st f | Some _ => st end).
  set (st2 := if decide (Some (sequenceId f) = DecoderState.sequenceId st1)
              then st1 else adopt (reset st1) f).
  assert (Hseq : DecoderState.sequenceId st2 = Some (sequenceId f)).
  { subst st2. destruct (decide _) as [e|e]; [now rewrite <- e|reflexivity]. }
  destruct ((frameIndex f <? 0)
            || (frameIndex f >=? or0 (DecoderState.totalFrames st2))) eqn:Hidx;
    cbn [snd].
  - rewrite addFrame_known by exact Hseq. now rewrite Hidx.
  - rewrite addFrame_known by exact Hseq.
    cbn [DecoderState.sequenceId DecoderState.totalFrames
         DecoderState.dataFrames DecoderState.parityFrames
         DecoderState.collectedFrames DecoderState.originalDataLength].
    rewrite Hidx. now rewrite insert_insert_eq.
Qed.

Lemma initial_decoder_inv : decoder_inv initial_state.
Proof. reflexivity. Qed.

Lemma adopt_initial_inv (f : AuroraFrame) : decoder_inv (adopt initial_state f).
Proof.
  unfold decoder_inv, adopt. cbn.
  exists (totalFrames f). repeat split; try reflexivity;
    rewrite lookup_empty in H; discriminate.
Qed.

Lemma addFrame_decoder_inv st f : decoder_inv st -> decoder_inv (snd (addFrame st f)).
Proof.
  intros Hinv. unfold addFrame.
  set (st1 := match DecoderState.sequenceId st with
              | None => adopt st f | Some _ => st end).
  assert (H1 : decoder_inv st1).
  { subst st1. unfold decoder_inv in Hinv.
    destruct (DecoderState.sequenceId st) eqn:Hs.
    - unfold decoder_inv. now rewrite Hs.
    - rewrite Hinv. apply adopt_initial_inv. }
  set (st2 := if decide (Some (sequenceId f) = DecoderState.sequenceId st1)
              then st1 else adopt (reset st1) f).
  assert (H2 : decoder_inv st2).
  { subst st2. destruct (decide _); [exact H1|apply adopt_initial_inv]. }
  assert (Hseq : DecoderState.sequenceId st2 = Some (sequenceId f)).
  { subst st2. destruct (decide _) as [e|e]; [now rewrite <- e|reflexivity]. }
  destruct ((frameIndex f <? 0)
            || (frameIndex f >=? or0 (DecoderState.totalFrames st2))) eqn:Hidx;
    cbn [snd]; [exact H2|].
  unfold decoder_inv in H2 |- *. rewrite Hseq in H2.
  cbn [DecoderState.sequenceId DecoderState.totalFrames
       DecoderState.dataFrames DecoderState.parityFrames
       DecoderState.collectedFrames DecoderState.originalDataLength].
  rewrite Hseq. destruct H2 as (t & Ht & Hd & Hp & Ho & Hc).
  exists t. repeat split; try assumption.
  all: rewrite Ht in Hidx; cbn in Hidx.
  all: destruct (Z.eq_dec i (frameIndex f)) as [->|Hne];
    [rewrite lookup_insert_eq in H; injection H as <-
    |rewrite lookup_insert_ne in H by congruence; apply Hc in H].
  all: try reflexivity; try lia; try tauto.
Qed.

Lemma addFrames_decoder_inv st fs : decoder_inv st -> decoder_inv (addFrames st fs).
Proof.
  intros Hinv. induction fs as [|f fs IH] using rev_ind; [exact Hinv|].
  rewrite addFrames_snoc. now apply addFrame_decoder_inv.
Qed.

(** *** Missing indices and the number of collected frames *)

Lemma getMissingIndices_S (coll : gmap Z AuroraFrame) (n : nat) :
  for_up (S n) (fun i missing =>
    match coll !! i with Some _ => missing | None => missing ++ [i] end) []
  = for_up n (fun i missing =>
      match coll !! i with Some _ => missing | None => missing ++ [i] end) []
    ++ match coll !! Z.of_nat n with Some _ => [] | None => [Z.of_nat n] end.
Proof.
  rewrite for_up_S. destruct (coll !! Z.of_nat n); [now rewrite app_nil_r|reflexivity].
Qed.

Lemma missing_elem (coll : gmap Z AuroraFrame) (n : nat) (i : Z) :
  i ∈ for_up n (fun i missing =>
        match coll !! i with Some _ => missing | None => missing ++ [i] end) []
  <-> 0 <= i < Z.of_nat n /\ coll !! i = None.
Proof.
  induction n as [|n IH].
  - rewrite for_up_0. split; [intros H; inversion H|lia].
  - rewrite getMissingIndices_S, elem_of_app, IH.
    destruct (coll !! Z.of_nat n) eqn:Hn.
    + split.
      * intros [[? ?]|H]; [split; [lia|assumption]|inversion H].
      * intros [Hi Hc]. left. split; [|exact Hc].
        destruct (Z.eq_dec i (Z.of_nat n)) as [->|]; [congruence|lia].
    + split.
      * intros [[? ?]|H]; [split; [lia|assumption]|].
        apply list_elem_of_singleton in H. subst. split; [lia|exact Hn].
      * intros [Hi Hc].
        destruct (Z.eq_dec i (Z.of_nat n)) as [->|];
          [right; apply list_elem_of_singleton; reflexivity|left; split; [lia|exact Hc]].
Qed.

Lemma missing_count (n : nat) (coll : gmap Z AuroraFrame) :
  (forall i f, coll !! i = Some f -> 0 <= i < Z.of_nat n) ->
  (size coll
   + length (for_up n (fun i missing =>
       match coll !! i with Some _ => missing | None => missing ++ [i] end) []))%nat
  = n.
Proof.
  revert coll. induction n as [|n IH]; intros coll Hk.
  - rewrite for_up_0. cbn [length]. rewrite Nat.add_0_r.
    apply map_size_empty_iff, map_empty. intros i.
    destruct (coll !! i) eqn:Hi; [|reflexivity]. apply Hk in Hi. lia.
  - rewrite getMissingIndices_S, length_app.
    specialize (IH (delete (Z.of_nat n) coll)).
    assert (Hsame :
      for_up n (fun i missing =>
        match delete (Z.of_nat n) coll !! i with
        | Some _ => missing | None => missing ++ [i] end) []
      = for_up n (fun i missing =>
        match coll !! i with Some _ => missing | None => missing ++ [i] end) []).
    { apply for_up_ext. intros i a Hi. now rewrite lookup_delete_ne by lia. }
    rewrite Hsame in IH.
    assert (Hk' : forall i f, delete (Z.of_nat n) coll !! i = Some f ->
                              0 <= i < Z.of_nat n).
    { intros i f Hi. destruct (Z.eq_dec i (Z.of_nat n)) as [->|Hne].
      - now rewrite lookup_delete_eq in Hi.
      - rewrite lookup_delete_ne in Hi by congruence. apply Hk in Hi. lia. }
    specialize (IH Hk').
    destruct (coll !! Z.of_nat n) as [f|] eqn:Hn.
    + assert (Hs : size coll = S (size (delete (Z.of_nat n) coll))).
      { rewrite <- (insert_delete_id coll _ _ Hn) at 1.
        apply map_size_insert_None, lookup_delete_eq. }
      cbn [length]. lia.
    + pose proof (map_size_delete_None _ _ Hn) as Hs.
      cbn [length]. lia.
Qed.

Lemma columnOf_map (st : DecoderState.t) (totalFrames bytePos : Z) :
  columnOf st totalFrames bytePos
  = map (fun i => match DecoderState.collectedFrames st !! i with
                  | Some frame => Some (get (dataChunk frame) bytePos)
                  | None => None
                  end) (zrange (Z.to_nat totalFrames)).
Proof.
  unfold columnOf. rewrite <- for_up_push. apply for_up_ext.
  intros i a _. now destruct (DecoderState.collectedFrames st !! i).
Qed.

Lemma columnOf_erasures (st : DecoderState.t) (totalFrames bytePos : Z) :
  erasure_count (columnOf st totalFrames bytePos)
  = length (for_up (Z.to_nat totalFrames) (fun i missing =>
       match DecoderState.collectedFrames st !! i with
       | Some _ => missing | None => missing ++ [i] end) []).
Proof.
  rewrite columnOf_map. generalize (Z.to_nat totalFrames) as n.
  induction n as [|n IH]; [reflexivity|].
  rewrite getMissingIndices_S, zrange_S, map_app, erasure_count_app, length_app, IH.
  f_equal. cbn [map]. now destruct (DecoderState.collectedFrames st !! Z.of_nat n).
Qed.

Lemma decode_columns_no_GaveUp (st : DecoderState.t) (t d p : Z) :
  (forall bytePos, rsDecode (columnOf st t bytePos) d p <> Ok None) ->
  forall bytePos, decode_columns st t d p <> Ok (GaveUp bytePos).
Proof.
  intros Hno. unfold decode_columns. generalize FRAME_DATA_SIZE as n.
  assert (Hgen : forall n, (exists cols, for_up_r n (fun bytePos acc =>
    match acc with
    | GaveUp _ => Ok acc
    | Decoded decodedColumns =>
        let column := columnOf st t bytePos in
        let* decoded := rsDecode column d p in
        match decoded with
        | None => Ok (GaveUp bytePos)
        | Some decoded => Ok (Decoded (decodedColumns ++ [decoded]))
        end
    end) (Decoded []) = Ok (Decoded cols)) \/
    (exists msg, for_up_r n (fun bytePos acc =>
    match acc with
    | GaveUp _ => Ok acc
    | Decoded decodedColumns =>
        let column := columnOf st t bytePos in
        let* decoded := rsDecode column d p in
        match decoded with
        | None => Ok (GaveUp bytePos)
        | Some decoded => Ok (Decoded (decodedColumns ++ [decoded]))
        end
    end) (Decoded []) = Throw msg)).
  { induction n as [|n IH]; [left; now exists []|].
    rewrite for_up_r_S. destruct IH as [[cols ->]|[msg ->]]; [|right; now exists msg].
    cbn [bind]. cbv zeta.
    destruct (rsDecode (columnOf st t (Z.of_nat n)) d p) as [[dec|]|msg] eqn:Hr.
    - left. now eexists.
    - exfalso. exact (Hno _ Hr).
    - right. now exists msg. }
  intros n bytePos. unfold columnOf in Hgen.
  destruct (Hgen n) as [[cols ->]|[msg ->]]; discriminate.
Qed.

Lemma addFrame_totalFrames st f t :
  DecoderState.totalFrames (snd (addFrame st f)) = Some t ->
  DecoderState.totalFrames st = Some t \/ totalFrames f = t.
Proof.
  unfold addFrame.
  destruct (DecoderState.sequenceId st) eqn:Hs.
  - destruct (decide _); destruct (_ || _); cbn; intros H;
      first [left; exact H | right; congruence].
  - cbn [adopt DecoderState.sequenceId].
    destruct (decide _); destruct (_ || _); cbn; intros H; right; congruence.
Qed.

Lemma addFrames_totalFrames fs t :
  DecoderState.totalFrames (addFrames initial_state fs) = Some t ->
  exists f, f ∈ fs /\ totalFrames f = t.
Proof.
  induction fs as [|f fs IH] using rev_ind; [discriminate|].
  rewrite addFrames_snoc. intros H.
  apply addFrame_totalFrames in H as [H|H].
  - destruct (IH H) as (f' & Hin & Ht). exists f'. split; [|exact Ht].
    apply elem_of_app. now left.
  - exists f. split; [|exact H]. apply elem_of_app. right. now apply list_elem_of_singleton.
Qed.

Lemma decode_no_ColumnFailed (frames : list AuroraFrame) (bytePos : Z) :
  Forall (fun f => 0 <= totalFrames f) frames ->
  error (decodeFromFrames frames) <> Some (ColumnFailed bytePos).
Proof.
  intros Hnn.
  unfold decodeFromFrames.
  pose proof (addFrames_decoder_inv initial_state frames initial_decoder_inv) as Hinv.
  pose proof (addFrames_totalFrames frames) as Htot.
  set (st := addFrames initial_state frames) in *.
  unfold decode.
  destruct (canDecode (getProgress st)) eqn:Hcan; cbn [negb]; [|cbn; discriminate].
  assert (Hno : forall bytePos,
    decode_columns st (or0 (DecoderState.totalFrames st))
      (or0 (DecoderState.dataFrames st)) (or0 (DecoderState.parityFrames st))
    <> Ok (GaveUp bytePos)).
  { apply decode_columns_no_GaveUp. intros c.
    apply rsDecode_within_budget. rewrite columnOf_erasures.
    unfold decoder_inv in Hinv.
    destruct (DecoderState.sequenceId st) eqn:Hs.
    - destruct Hinv as (t & Ht & Hd & Hp & _ & Hc).
      assert (Hpos : 0 <= t).
      { destruct (Htot t Ht) as (f & Hin & <-).
        rewrite Forall_forall in Hnn. now apply Hnn. }
      rewrite Ht, Hp. cbn [or0 default].
      unfold getProgress in Hcan. cbn [canDecode] in Hcan.
      rewrite Hd in Hcan. cbn [or0 default] in Hcan.
      pose proof (missing_count (Z.to_nat t) (DecoderState.collectedFrames st)) as Hm.
      assert (Hkeys : forall i f, DecoderState.collectedFrames st !! i = Some f ->
                                  0 <= i < Z.of_nat (Z.to_nat t))
        by (intros i f Hi; apply Hc in Hi; lia).
      specialize (Hm Hkeys). pose proof (ceil_08_bounds t) as Hb.
      unfold id in *. lia.
    - rewrite Hinv. vm_compute. discriminate. }
  destruct (decode_columns st _ _ _) as [[cols|b]|msg] eqn:Hcols; cbn [bind].
  - destruct (assemble cols _); cbn; discriminate.
  - exfalso. exact (Hno b eq_refl).
  - cbn. discriminate.
Qed.

(** X19: when no frame given to the decoder has a negative [totalFrames],
    [decode] never reports that a column could not be decoded: once enough
    frames are collected the missing ones are within the parity budget, so
    the result is a success, the report of too few frames, or an
    exception. *)
Theorem decode_never_gives_up_on_a_column (frames : list AuroraFrame) :
  Forall (fun f => 0 <= totalFrames f) frames ->
  error (decodeFromFrames frames) = None \/
  (exists c r, error (decodeFromFrames frames) = Some (InsufficientFrames c r)) \/
  (exists msg, error (decodeFromFrames frames) = Some (DecodeException msg)).
Proof.
  intros Hnn. pose proof (decode_no_ColumnFailed frames) as Hno.
  destruct (error (decodeFromFrames frames)) as [[c r|bytePos|msg]|].
  - right. left. now exists c, r.
  - exfalso. exact (Hno bytePos Hnn eq_refl).
  - right. right. now exists msg.
  - now left.
Qed.

Lemma decode_never_gives_up_on_a_column_witness :
  let frames := [mkFrame 1 5 7 [1; 2; 3; 4; 5; 6; 7; 8; 9; 10] 0;
                 mkFrame 3 5 7 [1; 2; 3; 4; 5; 6; 7; 8; 9; 10] 0] in
  error (decodeFromFrames frames) = None \/
  (exists c r, error (decodeFromFrames frames) = Some (InsufficientFrames c r)) \/
  (exists msg, error (decodeFromFrames frames) = Some (DecodeException msg)).
Proof.
  apply (decode_never_gives_up_on_a_column
           [mkFrame 1 5 7 [1; 2; 3; 4; 5; 6; 7; 8; 9; 10] 0;
            mkFrame 3 5 7 [1; 2; 3; 4; 5; 6; 7; 8; 9; 10] 0]).
  repeat first [apply Forall_nil_2 | apply Forall_cons_2; [cbn; lia|]].
Defined.



(** X21: [getMissingIndices] lists exactly the indices below [totalFrames]
    that [hasFrame] denies. *)
Theorem getMissingIndices_spec (st : DecoderState.t) (i : Z) :
  i ∈ getMissingIndices st
  <-> 0 <= i < total (getProgress st) /\ hasFrame st i = false.
Proof.
  unfold getMissingIndices, getProgress, hasFrame. cbn [total].
  rewrite missing_elem.
  assert (Hb : bool_decide (is_Some (DecoderState.collectedFrames st !! i)) = false
               <-> DecoderState.collectedFrames st !! i = None).
  { rewrite bool_decide_eq_false, <- eq_None_not_Some. reflexivity. }
  rewrite Hb. split; intros [H1 H2]; (split; [lia|exact H2]).
Qed.

(** X22: after any sequence of [addFrame] calls on a new decoder, with
    frames whose [totalFrames] is below 2^50 in absolute value, so that
    [Math.ceil(totalFrames * 0.8)] on doubles is the exact ceiling, the
    required count is the ceiling of 0.8 times the total, the parity count
    is their difference, [originalDataLength] is still unset, every stored
    frame sits under its own index, below the total and carries the adopted
    sequence id, and the collected and the missing frames add up to the
    total. *)
Theorem decoder_reachable (frames : list AuroraFrame) :
  Forall (fun f => Z.abs (totalFrames f) < 2 ^ 50) frames ->
  let st := addFrames initial_state frames in
  let p := getProgress st in
  required p = ceil_08 (total p) /\
  DecoderState.parityFrames st
  = match DecoderState.sequenceId st with
    | Some _ => Some (total p - required p)
    | None => None
    end /\
  DecoderState.originalDataLength st = None /\
  (forall i f, DecoderState.collectedFrames st !! i = Some f ->
     frameIndex f = i /\ 0 <= i < total p /\
     Some (sequenceId f) = DecoderState.sequenceId st) /\
  (0 <= total p ->
   collected p + Z.of_nat (length (getMissingIndices st)) = total p).
Proof.
  intros _. cbv zeta.
  pose proof (addFrames_decoder_inv initial_state frames initial_decoder_inv) as Hinv.
  set (st := addFrames initial_state frames) in *.
  unfold decoder_inv in Hinv. unfold getProgress, getMissingIndices.
  cbn [required total collected].
  destruct (DecoderState.sequenceId st) eqn:Hs.
  - destruct Hinv as (t & Ht & Hd & Hp & Ho & Hc).
    rewrite Ht, Hd, Hp, Ho. cbn [or0 default]. unfold id.
    repeat split; try reflexivity.
    + now apply Hc in H.
    + apply Hc in H. lia.
    + apply Hc in H. lia.
    + apply Hc in H. f_equal. tauto.
    + intros Hpos.
      pose proof (missing_count (Z.to_nat t) (DecoderState.collectedFrames st)) as Hm.
      assert (Hkeys : forall i f, DecoderState.collectedFrames st !! i = Some f ->
                                  0 <= i < Z.of_nat (Z.to_nat t))
        by (intros i f Hi; apply Hc in Hi; lia).
      specialize (Hm Hkeys). lia.
  - rewrite Hinv. cbn.
    repeat split; try reflexivity; rewrite lookup_empty in H; discriminate.
Qed.

Lemma decoder_reachable_witness :
  let st := addFrames initial_state
              [mkFrame 1 9 0x4321 [] 0; mkFrame 3 5 0x1234 [] 0;
               mkFrame 0 5 0x1234 [] 0; mkFrame 3 5 0x1234 [] 0;
               mkFrame 7 5 0x1234 [] 0] in
  let p := getProgress st in
  (total p = 5 /\ collected p = 2 /\ getMissingIndices st = [1; 2; 4]) /\
  required p = ceil_08 (total p) /\
  DecoderState.parityFrames st
  = match DecoderState.sequenceId st with
    | Some _ => Some (total p - required p)
    | None => None
    end /\
  DecoderState.originalDataLength st = None /\
  (forall i f, DecoderState.collectedFrames st !! i = Some f ->
     frameIndex f = i /\ 0 <= i < total p /\
     Some (sequenceId f) = DecoderState.sequenceId st) /\
  (0 <= total p ->
   collected p + Z.of_nat (length (getMissingIndices st)) = total p).
Proof.
  cbv zeta. split; [vm_compute; repeat split|].
  assert (Hsmall : Forall (fun f => Z.abs (totalFrames f) < 2 ^ 50)
                     [mkFrame 1 9 0x4321 [] 0; mkFrame 3 5 0x1234 [] 0;
                      mkFrame 0 5 0x1234 [] 0; mkFrame 3 5 0x1234 [] 0;
                      mkFrame 7 5 0x1234 [] 0]).
  { repeat (apply Forall_cons_2; [vm_compute; reflexivity|]). apply Forall_nil_2. }
  pose proof (decoder_reachable _ Hsmall) as Hd. cbv zeta in Hd. exact Hd.
Defined.

(** X23: for frames of one packet, the state of the decoder depends only
    on which indices were received, not on their order or repetition. *)
Theorem addFrames_order_irrelevant (frame : Z -> AuroraFrame) (n : nat) (drawn : Z)
    (l1 l2 : list Z) :
  (forall r, frameIndex (frame r) = r) ->
  (forall r, totalFrames (frame r) = Z.of_nat n) ->
  (forall r, sequenceId (frame r) = drawn) ->
  Forall (fun r => 0 <= r < Z.of_nat n) l1 ->
  (forall i, i ∈ l1 <-> i ∈ l2) ->
  addFrames initial_state (map frame l1) = addFrames initial_state (map frame l2).
Proof.
  intros Hi Ht Hs Hr Hsame.
  destruct l1 as [|a l1].
  - destruct l2 as [|b l2]; [reflexivity|].
    exfalso. assert (Hb : b ∈ @nil Z) by (apply Hsame; left). inversion Hb.
  - assert (Hr2 : Forall (fun r => 0 <= r < Z.of_nat n) l2).
    { rewrite Forall_forall in Hr |- *. intros x Hx. apply Hr, Hsame, Hx. }
    assert (Hne2 : l2 <> []).
    { intros ->. assert (Ha : a ∈ @nil Z) by (apply Hsame; left). inversion Ha. }
    destruct (addFrames_members frame n drawn (a :: l1) Hi Ht Hs ltac:(discriminate) Hr)
      as (c1 & -> & Hin1 & Hout1).
    destruct (addFrames_members frame n drawn l2 Hi Ht Hs Hne2 Hr2)
      as (c2 & -> & Hin2 & Hout2).
    f_equal. apply map_eq. intros i.
    destruct (decide (i ∈ a :: l1)) as [Hin|Hnin].
    + rewrite (Hin1 i Hin), (Hin2 i (proj1 (Hsame i) Hin)). reflexivity.
    + rewrite (Hout1 i Hnin), (Hout2 i (fun H => Hnin (proj2 (Hsame i) H))).
      reflexivity.
Qed.

Lemma addFrames_order_irrelevant_witness :
  let frame := fun r => mkFrame r 5 7 [r; 0; 0; 0; 0; 0; 0; 0; 0; 0] 0 in
  addFrames initial_state (map frame [0; 2; 2; 1])
  = addFrames initial_state (map frame [1; 0; 2]).
Proof.
  apply (addFrames_order_irrelevant
           (fun r => mkFrame r 5 7 [r; 0; 0; 0; 0; 0; 0; 0; 0; 0] 0) 5 7
           [0; 2; 2; 1] [1; 0; 2]);
    [reflexivity|reflexivity|reflexivity|forall_lia|].
  intros i. rewrite !elem_of_cons, !elem_of_nil. tauto.
Defined.

(** X30: [getCollectedIndices] is strictly increasing, has as many entries
    as [getProgress] counts collected frames, holds exactly the indices
    [hasFrame] confirms, and an index below [totalFrames] is in it exactly
    when it is not among the missing ones. *)
Theorem getCollectedIndices_spec (st : DecoderState.t) (i : Z) :
  StronglySorted Z.lt (getCollectedIndices st) /\
  Z.of_nat (length (getCollectedIndices st)) = collected (getProgress st) /\
  (i ∈ getCollectedIndices st <-> hasFrame st i = true) /\
  (0 <= i < total (getProgress st) ->
   (i ∈ getCollectedIndices st <-> i ∉ getMissingIndices st)).
Proof.
  unfold getCollectedIndices.
  set (keys := map fst (map_to_list (DecoderState.collectedFrames st))).
  assert (Hperm : merge_sort Z.le keys ≡ₚ keys) by apply merge_sort_Permutation.
  assert (Hnd : NoDup keys) by apply NoDup_fst_map_to_list.
  assert (Hin : forall k, k ∈ keys <-> is_Some (DecoderState.collectedFrames st !! k)).
  { intros k. subst keys. rewrite list_elem_of_fmap. split.
    - intros ([k' f] & -> & Hk). apply elem_of_map_to_list in Hk. now exists f.
    - intros [f Hf]. exists (k, f). split; [reflexivity|].
      now apply elem_of_map_to_list. }
  assert (Hsorted : StronglySorted Z.le (merge_sort Z.le keys)).
  { apply StronglySorted_merge_sort.
    - intros x y z. apply Z.le_trans.
    - intros x y. lia. }
  assert (Hnd' : NoDup (merge_sort Z.le keys)) by now rewrite Hperm.
  split; [|split; [|split]].
  - clear -Hsorted Hnd'. induction Hsorted as [|a l Hs IH Hall]; [constructor|].
    apply NoDup_cons in Hnd' as [Hna Hnd]. constructor; [now apply IH|].
    rewrite Forall_forall in Hall |- *. intros x Hx.
    specialize (Hall x Hx). assert (a <> x) by (intros ->; contradiction). lia.
  - rewrite Hperm. subst keys. rewrite length_map, length_map_to_list. reflexivity.
  - rewrite Hperm, Hin. unfold hasFrame. now rewrite bool_decide_eq_true.
  - intros Hi. rewrite Hperm, Hin. unfold getMissingIndices, getProgress in *.
    cbn [total] in Hi. rewrite missing_elem.
    destruct (DecoderState.collectedFrames st !! i) as [f|] eqn:Hf.
    + split; [intros _ [_ Hn]; discriminate|intros _; now exists f].
    + split; [intros [f Hf']; discriminate|].
      intros Hn. exfalso. apply Hn. split; [lia|reflexivity].
Qed.

(** ** The packet encoder *)

Lemma crc8_byte_is_byte (crc byte : Z) : is_byte (crc8_byte crc byte).
Proof.
  unfold crc8_byte. change 8%nat with (S 7). rewrite for_up_S.
  destruct (_ =? 0); rewrite js_and_ff_all; apply Z.mod_pos_bound; lia.
Qed.

Lemma crc8_is_byte (data : list Z) : is_byte (crc8 data).
Proof.
  unfold crc8. induction data as [|b data IH] using rev_ind; [apply is_byte_0|].
  rewrite fold_left_app. apply crc8_byte_is_byte.
Qed.

Lemma chunk_of_shape (raw : list Z) (r : Z) :
  length (chunk_of raw r) = 10%nat /\ Forall is_byte (chunk_of raw r).
Proof.
  unfold chunk_of. split; [now rewrite length_map, length_zrange|].
  apply Forall_forall. intros x Hx. apply list_elem_of_fmap in Hx.
  destruct Hx as (i & -> & _). apply u8_is_byte.
Qed.

Lemma encode_cp_bytes (c : Z) :
  0 <= c < 0x110000 -> Forall is_byte (utf8_encode_cp c).
Proof.
  intros Hc. destruct (is_surrogate c) eqn:Hs.
  - replace (utf8_encode_cp c) with (utf8_encode_cp 0xFFFD).
    + apply utf8_encode_cp_bytes. split; [lia|reflexivity].
    + unfold utf8_encode_cp. rewrite Hs. reflexivity.
  - apply utf8_encode_cp_bytes. split; assumption.
Qed.

Lemma encode_bytes (s : list Z) :
  Forall (fun c => 0 <= c < 0x110000) s -> Forall is_byte (TextEncoder_encode s).
Proof.
  intros Hs. unfold TextEncoder_encode.
  induction Hs as [|c s Hc Hs IH]; [constructor|].
  cbn [flat_map]. apply Forall_app. split; [now apply encode_cp_bytes|exact IH].
Qed.

(** X24: every frame [encodeData] emits carries its position as index,
    the packet's frame count and sequence id, a chunk of ten bytes and a
    checksum that [verifyFrameChecksum] accepts; when the packet has at most
    255 frames and the id drawn is a 16-bit number, the frame survives
    [serializeFrame] followed by [deserializeFrame] unchanged. *)
Theorem encodeData_frames_valid (s : list Z) (drawn : Z) (r : nat) (f : AuroraFrame) :
  Packet.frames (encodeData s drawn) !! r = Some f ->
  frameIndex f = Z.of_nat r /\
  totalFrames f = Packet.totalFrames (encodeData s drawn) /\
  sequenceId f = drawn /\
  length (dataChunk f) = 10%nat /\ Forall is_byte (dataChunk f) /\
  verifyFrameChecksum f = true /\
  (Packet.totalFrames (encodeData s drawn) <= 255 -> 0 <= drawn <= 65535 ->
   deserializeFrame (serializeFrame f) = f).
Proof.
  intros Hr.
  pose proof (encodeData_chunks s drawn) as Hfs. cbv zeta in Hfs.
  set (raw := TextEncoder_encode s) in *.
  set (D := dataFramesOf (length raw)) in *.
  set (P := parityFramesOf D) in *.
  assert (Htot : Packet.totalFrames (encodeData s drawn) = Z.of_nat (D + P)) by reflexivity.
  rewrite Hfs in Hr. rewrite list_lookup_fmap in Hr.
  destruct (zrange (D + P) !! r) as [z|] eqn:Hz; [|discriminate].
  assert (Hlt : (r < D + P)%nat).
  { apply lookup_lt_Some in Hz. now rewrite length_zrange in Hz. }
  rewrite lookup_zrange in Hz by exact Hlt. injection Hz as <-.
  injection Hr as <-.
  cbn [frameIndex totalFrames sequenceId dataChunk checksum].
  destruct (chunk_of_shape raw (Z.of_nat r)) as [Hlen Hb].
  split; [reflexivity|]. split; [now rewrite Htot|]. split; [reflexivity|].
  split; [exact Hlen|]. split; [exact Hb|].
  split; [unfold verifyFrameChecksum; cbn [dataChunk checksum]; apply Z.eqb_refl|].
  intros H255 Hdrawn. rewrite Htot in H255.
  rewrite deserialize_serialize.
  cbn [frameIndex totalFrames sequenceId dataChunk checksum].
  pose proof (crc8_is_byte (chunk_of raw (Z.of_nat r))) as Hcrc.
  unfold is_byte in Hcrc.
  rewrite !Z.mod_small by lia.
  f_equal.
  etransitivity; [|apply (map_get_zrange (chunk_of raw (Z.of_nat r)))].
  rewrite Hlen. apply map_zrange_ext. intros i Hi.
  apply Z.mod_small. apply (get_byte _ _ Hb).
Qed.

Lemma encodeData_frames_valid_witness :
  let f := frame_of (TextEncoder_encode [0x48; 0x69]) 0x1234 2 in
  frameIndex f = Z.of_nat 2 /\
  totalFrames f = Packet.totalFrames (encodeData [0x48; 0x69] 0x1234) /\
  sequenceId f = 0x1234 /\
  length (dataChunk f) = 10%nat /\ Forall is_byte (dataChunk f) /\
  verifyFrameChecksum f = true /\
  (Packet.totalFrames (encodeData [0x48; 0x69] 0x1234) <= 255 ->
   0 <= 0x1234 <= 65535 ->
   deserializeFrame (serializeFrame f) = f).
Proof.
  apply (encodeData_frames_valid [0x48; 0x69] 0x1234 2
           (frame_of (TextEncoder_encode [0x48; 0x69]) 0x1234 2)).
  vm_compute. reflexivity.
Defined.

Lemma get_app_r (l1 l2 : list Z) (i : Z) :
  0 <= i -> get (l1 ++ l2) (Z.of_nat (length l1) + i) = get l2 i.
Proof.
  intros Hi. unfold get.
  destruct (Z.leb_spec 0 (Z.of_nat (length l1) + i)); [|lia].
  destruct (Z.leb_spec 0 i); [|lia].
  rewrite lookup_app_r by lia. do 2 f_equal. lia.
Qed.

Lemma flat_map_zrange_ext {A : Type} (f g : Z -> list A) (n : nat) :
  (forall i, 0 <= i < Z.of_nat n -> f i = g i) ->
  flat_map f (zrange n) = flat_map g (zrange n).
Proof.
  intros Hfg. rewrite !flat_map_concat_map. f_equal. now apply map_zrange_ext.
Qed.

Lemma flat_rows (l : list Z) (rows : nat) :
  length l = (rows * 10)%nat ->
  flat_map (fun r => map (fun c => get l (r * 10 + c)) (zrange 10)) (zrange rows) = l.
Proof.
  revert l. induction rows as [|rows IH]; intros l Hl.
  - destruct l; [reflexivity|discriminate].
  - assert (Hsplit : exists l1 l2, l = l1 ++ l2 /\ length l1 = (rows * 10)%nat /\
                                   length l2 = 10%nat).
    { exists (take (rows * 10) l), (drop (rows * 10) l).
      rewrite take_drop, length_take, length_drop.
      split; [reflexivity|lia]. }
    destruct Hsplit as (l1 & l2 & -> & H1 & H2).
    rewrite (zrange_S rows), flat_map_app. cbn [flat_map]. rewrite app_nil_r.
    f_equal.
    + etransitivity; [|apply (IH l1 H1)].
      apply flat_map_zrange_ext. intros r Hr. apply map_zrange_ext. intros c Hc.
      apply get_app_l. lia.
    + etransitivity; [|apply (map_get_zrange l2)].
      rewrite H2. apply map_zrange_ext. intros c Hc.
      replace (Z.of_nat rows * 10 + c) with (Z.of_nat (length l1) + c) by lia.
      apply get_app_r. lia.
Qed.

(** X25: the chunks of the data frames of a packet, one after the other,
    are the UTF-8 bytes of the text followed by zeros up to a multiple of
    ten. *)
Theorem encodeData_data_rows (s : list Z) (drawn : Z) :
  Forall (fun c => 0 <= c < 0x110000) s ->
  let p := encodeData s drawn in
  let raw := TextEncoder_encode s in
  flat_map dataChunk (take (Z.to_nat (Packet.dataFrames p)) (Packet.frames p))
  = raw ++ repeat 0 (Z.to_nat (Packet.dataFrames p) * 10 - length raw).
Proof.
  intros Hs. cbv zeta.
  pose proof (encodeData_chunks s drawn) as Hfs. cbv zeta in Hfs.
  assert (Hb : Forall is_byte (TextEncoder_encode s)) by now apply encode_bytes.
  set (raw := TextEncoder_encode s) in *.
  set (D := dataFramesOf (length raw)) in *.
  set (P := parityFramesOf D) in *.
  assert (HD : Packet.dataFrames (encodeData s drawn) = Z.of_nat D) by reflexivity.
  rewrite HD, Nat2Z.id, Hfs.
  rewrite take_map_zrange by lia.
  change (raw ++ repeat 0 (D * 10 - length raw)) with (padded_of raw).
  rewrite <- (flat_rows (padded_of raw) D) by apply padded_of_length.
  rewrite flat_map_concat_map, map_map, <- flat_map_concat_map.
  apply flat_map_zrange_ext. intros r Hr. cbn [dataChunk].
  etransitivity; [symmetry; apply (map_get_zrange (chunk_of raw r))|].
  destruct (chunk_of_shape raw r) as [-> _].
  apply map_zrange_ext. intros c Hc.
  apply chunk_of_data; [exact Hb|lia|lia].
Qed.

Lemma encodeData_data_rows_witness :
  let p := encodeData [0x48; 0x69; 0x20AC] 7 in
  let raw := TextEncoder_encode [0x48; 0x69; 0x20AC] in
  flat_map dataChunk (take (Z.to_nat (Packet.dataFrames p)) (Packet.frames p))
  = raw ++ repeat 0 (Z.to_nat (Packet.dataFrames p) * 10 - length raw).
Proof.
  apply (encodeData_data_rows [0x48; 0x69; 0x20AC] 7). forall_lia.
Defined.

(** X26: at every byte position, the bytes the frames of a packet hold
    there, in frame order, are [rsEncode] of the bytes of the data frames;
    with the parity as low and the data as high coefficients they vanish at
    [gfPow 2 j] for every [j] below the parity count. *)
Theorem encodeData_columns_are_codewords (s : list Z) (drawn : Z) (bytePos : Z) :
  Forall (fun c => 0 <= c < 0x110000) s ->
  0 <= bytePos < 10 ->
  let p := encodeData s drawn in
  let column := map (fun f => get (dataChunk f) bytePos) (Packet.frames p) in
  let D := Z.to_nat (Packet.dataFrames p) in
  let P := Z.to_nat (Packet.parityFrames p) in
  column = rsEncode (take D column) P /\
  forall j, 0 <= j < Z.of_nat P ->
            polyEval (drop D column ++ take D column) (gfPow 2 j) = 0.
Proof.
  intros Hs Hc. cbv zeta.
  pose proof (encodeData_chunks s drawn) as Hfs. cbv zeta in Hfs.
  assert (Hb : Forall is_byte (TextEncoder_encode s)) by now apply encode_bytes.
  set (raw := TextEncoder_encode s) in *.
  set (D := dataFramesOf (length raw)) in *.
  set (P := parityFramesOf D) in *.
  assert (HD : Packet.dataFrames (encodeData s drawn) = Z.of_nat D) by reflexivity.
  assert (HP : Packet.parityFrames (encodeData s drawn) = Z.of_nat P) by reflexivity.
  rewrite HD, HP, !Nat2Z.id, Hfs, map_map. cbn [dataChunk].
  assert (Hcol : Forall is_byte (column_of raw bytePos)).
  { unfold column_of. apply Forall_forall. intros x Hx. apply list_elem_of_fmap in Hx.
    destruct Hx as (i & -> & _). apply u8_is_byte. }
  assert (Hcl : length (column_of raw bytePos) = D).
  { unfold column_of. now rewrite length_map, length_zrange. }
  destruct (rsEncode_parity_roots (column_of raw bytePos) P Hcol)
    as (parity & Henc & Hpl & Hpb & Hzero).
  assert (Hall : map (fun r => get (chunk_of raw r) bytePos) (zrange (D + P))
                 = rsEncode (column_of raw bytePos) P).
  { etransitivity; [|apply (map_get_zrange (rsEncode (column_of raw bytePos) P))].
    rewrite Henc at 2. rewrite length_app, Hcl, Hpl.
    apply map_zrange_ext. intros r Hr. unfold chunk_of.
    rewrite get_map_zrange by lia.
    apply u8_byte, get_byte. rewrite Henc. apply Forall_app. split; assumption. }
  rewrite Hall, Henc.
  rewrite take_app_length' by (symmetry; exact Hcl).
  rewrite drop_app_length' by (symmetry; exact Hcl).
  rewrite Henc. split; [reflexivity|exact Hzero].
Qed.

Lemma encodeData_columns_are_codewords_witness :
  let p := encodeData [0x48; 0x69; 0x20AC] 7 in
  let column := map (fun f => get (dataChunk f) 3) (Packet.frames p) in
  let D := Z.to_nat (Packet.dataFrames p) in
  let P := Z.to_nat (Packet.parityFrames p) in
  column = rsEncode (take D column) P /\
  forall j, 0 <= j < Z.of_nat P ->
            polyEval (drop D column ++ take D column) (gfPow 2 j) = 0.
Proof.
  apply (encodeData_columns_are_codewords [0x48; 0x69; 0x20AC] 7 3);
    [forall_lia|lia].
Defined.

(** ** The palette and the detector *)

Section AnyDouble.
Context {F : Type} `{Double F}.

Lemma findClosestPaletteIndex_loop (color : RGBColor) (n : nat) (d0 : F) :
  let best := snd (for_up n (fun i '(minDistance, bestIndex) =>
                 let dist :=
                   weightedColorDistance color
                     (default (mkRGB 0 0 0) (AURORA_PALETTE !! Z.to_nat i)) in
                 if flt dist minDistance then (dist, i) else (minDistance, bestIndex))
               (d0, 0)) in
  0 <= best < Z.max 1 (Z.of_nat n).
Proof.
  cbv zeta. induction n as [|n IH]; [cbn; lia|].
  rewrite for_up_S.
  destruct (for_up n _ (d0, 0)) as [d b]. cbn [snd] in *.
  destruct (flt _ d); cbn [snd]; lia.
Qed.

Lemma findClosest_range (color : RGBColor) :
  0 <= findClosestPaletteIndex color < 16.
Proof.
  unfold findClosestPaletteIndex.
  pose proof (findClosestPaletteIndex_loop color (length AURORA_PALETTE) Infinity) as Hl.
  cbv zeta in Hl. change (Z.max 1 (Z.of_nat (length AURORA_PALETTE))) with 16 in Hl.
  exact Hl.
Qed.

Lemma matchBandsToPalette_maps (bandColors : list RGBColor) :
  matchBandsToPalette bandColors
  = (map findClosestPaletteIndex bandColors, map colorConfidence bandColors).
Proof.
  unfold matchBandsToPalette.
  induction bandColors as [|c l IH] using rev_ind; [reflexivity|].
  rewrite fold_left_app, IH, !map_app. reflexivity.
Qed.

(** X27: whatever the arithmetic of the doubles, [findClosestPaletteIndex]
    returns an index in 0..15, and [matchBandsToPalette] returns one index
    in 0..15 and one confidence per band colour, in order. *)
Theorem matchBandsToPalette_shape (bandColors : list RGBColor) :
  matchBandsToPalette bandColors
  = (map findClosestPaletteIndex bandColors, map colorConfidence bandColors) /\
  length (fst (matchBandsToPalette bandColors)) = length bandColors /\
  length (snd (matchBandsToPalette bandColors)) = length bandColors /\
  Forall (fun index => 0 <= index < 16) (fst (matchBandsToPalette bandColors)).
Proof.
  rewrite matchBandsToPalette_maps. cbn [fst snd].
  split; [reflexivity|]. rewrite !length_map. split; [reflexivity|].
  split; [reflexivity|].
  apply Forall_forall. intros x Hx. apply list_elem_of_fmap in Hx.
  destruct Hx as (c & -> & _). apply findClosest_range.
Qed.

Lemma get_index_range (colors : list RGBColor) (k : Z) :
  0 <= get (map findClosestPaletteIndex colors) k < 16.
Proof.
  unfold get. destruct (0 <=? k); [|lia].
  rewrite list_lookup_fmap.
  destruct (colors !! Z.to_nat k) as [c|]; cbn; [apply findClosest_range|lia].
Qed.

(** C9: when an aurora region is found, [detectFrame] reports the mean of
    the band confidences, their sum from 0 divided by their number, and the
    band indices, one nearest palette index per band colour, whether it
    succeeds or not.  It succeeds exactly when that mean is not below 0.15
    and the CRC-8 of the ten data bytes equals the checksum byte, in the
    frame whose byte i is 16 times band index 2i plus band index 2i+1:
    frame index, total, the two bytes of the sequence id, ten data bytes,
    checksum.  Below 0.15 it fails without a frame; on success the frame
    returned is that frame; on failure there is none.  The doubles are any
    implementation of the interface. *)
Theorem detectFrame_outcome (ImageData : Type)
    (findAuroraRegion : ImageData -> option AuroraRegion)
    (extractBandColors : ImageData -> AuroraRegion -> list RGBColor)
    (imageData : ImageData) (region : AuroraRegion) :
  findAuroraRegion imageData = Some region ->
  let res := detectFrame ImageData findAuroraRegion extractBandColors imageData in
  let colors := extractBandColors imageData region in
  let indices := map findClosestPaletteIndex colors in
  let confidences := map colorConfidence colors in
  let mean := fdiv (fold_left fadd confidences (of_Z 0))
                   (of_Z (Z.of_nat (length colors))) in
  let byte := fun i => get indices (i * 2) * 16 + get indices (i * 2 + 1) in
  let frame := {| frameIndex := byte 0;
                  totalFrames := byte 1;
                  sequenceId := byte 2 * 256 + byte 3;
                  dataChunk := map (fun i => byte (4 + i)) (zrange 10);
                  checksum := byte 14 |} in
  confidence res = mean /\
  bandIndices res = Some indices /\
  (det_success res = true <->
   flt mean (decimal 15 100) = false /\ crc8 (dataChunk frame) = checksum frame) /\
  (flt mean (decimal 15 100) = true ->
   det_success res = false /\ det_frame res = None) /\
  (det_success res = true -> det_frame res = Some frame) /\
  (det_success res = false -> det_frame res = None).
Proof.
  intros Hregion. cbv zeta.
  set (colors := extractBandColors imageData region).
  set (indices := map findClosestPaletteIndex colors).
  set (confidences := map colorConfidence colors).
  set (byte := fun i => get indices (i * 2) * 16 + get indices (i * 2 + 1)).
  assert (Hbyte : forall i, is_byte (byte i)).
  { intros i. unfold byte, is_byte, indices.
    pose proof (get_index_range colors (i * 2)).
    pose proof (get_index_range colors (i * 2 + 1)). lia. }
  assert (Hbytes : bandIndicesToBytes indices = map byte (zrange 16)).
  { rewrite bandIndicesToBytes_all. apply map_zrange_ext. intros i Hi.
    unfold byte, indices.
    pose proof (get_index_range colors (i * 2)).
    pose proof (get_index_range colors (i * 2 + 1)).
    rewrite !Z.mod_small by lia. reflexivity. }
  assert (Hframe : deserializeFrame (bandIndicesToBytes indices)
                   = {| frameIndex := byte 0;
                        totalFrames := byte 1;
                        sequenceId := byte 2 * 256 + byte 3;
                        dataChunk := map (fun i => byte (4 + i)) (zrange 10);
                        checksum := byte 14 |}).
  { rewrite Hbytes. unfold deserializeFrame, FRAME_DATA_SIZE.
    rewrite for_up_fill_new.
    rewrite !get_map_zrange by (cbn; lia).
    rewrite js_shl_8, js_or_bytes by apply Hbyte.
    f_equal. apply map_zrange_ext. intros i Hi.
    rewrite get_map_zrange by (cbn; lia). apply u8_byte, Hbyte. }
  unfold detectFrame. rewrite Hregion. fold colors.
  rewrite matchBandsToPalette_maps. fold indices confidences.
  set (mean := fdiv (fold_left fadd confidences (of_Z 0))
                    (of_Z (Z.of_nat (length colors)))).
  assert (Havg : avgConfidence confidences = mean).
  { unfold avgConfidence, mean, confidences. now rewrite length_map. }
  rewrite Havg.
  destruct (flt mean (decimal 15 100)) eqn:Hlow;
    cbn [det_success det_frame bandIndices confidence].
  - split; [reflexivity|]. split; [reflexivity|].
    split; [split; [discriminate|intros [Hf _]; discriminate]|].
    split; [intros _; split; reflexivity|].
    split; [discriminate|reflexivity].
  - rewrite Hframe. unfold verifyFrameChecksum. cbn [dataChunk checksum].
    split; [reflexivity|]. split; [reflexivity|].
    destruct (Z.eqb_spec (crc8 (map (fun i : Z => byte (4 + i)) (zrange 10))) (byte 14))
      as [Hcrc|Hcrc].
    + split; [split; [intros _; split; [reflexivity|exact Hcrc]|reflexivity]|].
      split; [discriminate|]. split; [reflexivity|discriminate].
    + split; [split; [discriminate|intros [_ Hc]; contradiction]|].
      split; [discriminate|]. split; [discriminate|reflexivity].
Qed.
End AnyDouble.

(** A frame of ten zero bytes with checksum 0, shown in palette colours:
    the CRC of zeros is 0 for every polynomial, when the initial value is 0
    and there is no final XOR. *)
Lemma detectFrame_outcome_witness :
  let f := mkFrame 3 6 0x1234 [0; 0; 0; 0; 0; 0; 0; 0; 0; 0] 0 in
  let res := detectFrame (F := PrimFloat.float) unit
               (fun _ => Some (mkRegion 0 10 0 100))
               (fun _ _ => shown_colors f) tt in
  confidence res = PrimFloat.one /\
  bandIndices res = Some (vis_bandIndices (frameToVisual f)) /\
  det_success res = true /\ det_frame res = Some f.
Proof.
  cbv zeta.
  pose proof (detectFrame_outcome (F := PrimFloat.float) unit
                (fun _ => Some (mkRegion 0 10 0 100))
                (fun _ _ => shown_colors
                   (mkFrame 3 6 0x1234 [0; 0; 0; 0; 0; 0; 0; 0; 0; 0] 0))
                tt (mkRegion 0 10 0 100) eq_refl)
    as (Hconf & Hidx & Hiff & _ & Hframe & _).
  cbv zeta in Hconf, Hidx, Hiff, Hframe.
  assert (Hs : det_success
                 (detectFrame (F := PrimFloat.float) unit
                    (fun _ => Some (mkRegion 0 10 0 100))
                    (fun _ _ => shown_colors
                       (mkFrame 3 6 0x1234 [0; 0; 0; 0; 0; 0; 0; 0; 0; 0] 0))
                    tt) = true).
  { apply Hiff. split; vm_compute; reflexivity. }
  split; [rewrite Hconf; vm_compute; reflexivity|].
  split; [rewrite Hidx; vm_compute; reflexivity|].
  split; [exact Hs|].
  rewrite (Hframe Hs). vm_compute. reflexivity.
Defined.

Lemma palette_identity_float (i : Z) :
  0 <= i < 16 ->
  findClosestPaletteIndex (F := PrimFloat.float) (palette_color i) = i /\
  colorConfidence (F := PrimFloat.float) (palette_color i) = PrimFloat.one.
Proof.
  intros Hi.
  assert (Hi' : i = 0 \/ i = 1 \/ i = 2 \/ i = 3 \/ i = 4 \/ i = 5 \/ i = 6 \/ i = 7 \/
                i = 8 \/ i = 9 \/ i = 10 \/ i = 11 \/ i = 12 \/ i = 13 \/ i = 14 \/
                i = 15) by lia.
  repeat (destruct Hi' as [->|Hi']); try subst i; split; vm_compute; reflexivity.
Qed.

(** X28: for every integer [index], [getPaletteColor] is defined and
    returns the colour of [index mod 16]; with the doubles of the machine
    the closest palette index of that colour is [index mod 16] and its
    confidence is exactly 1, so two indices have the same colour exactly
    when they agree modulo 16. *)
Theorem palette_decodable (index index' : Z) :
  getPaletteColor index = Some (palette_color (index mod 16)) /\
  findClosestPaletteIndex (F := PrimFloat.float) (palette_color (index mod 16))
  = index mod 16 /\
  colorConfidence (F := PrimFloat.float) (palette_color (index mod 16))
  = PrimFloat.one /\
  (getPaletteColor index = getPaletteColor index' <->
   index mod 16 = index' mod 16).
Proof.
  assert (Hget : forall i, getPaletteColor i = Some (palette_color (i mod 16))).
  { intros i. unfold getPaletteColor. rewrite js_and_0f_all.
    pose proof (Z.mod_pos_bound i 16 ltac:(lia)) as Hi.
    unfold palette_color.
    destruct (AURORA_PALETTE !! Z.to_nat (i mod 16)) as [c|] eqn:Hc; [reflexivity|].
    apply lookup_ge_None in Hc. change (length AURORA_PALETTE) with 16%nat in Hc. lia. }
  pose proof (Z.mod_pos_bound index 16 ltac:(lia)) as Hi.
  pose proof (Z.mod_pos_bound index' 16 ltac:(lia)) as Hi'.
  destruct (palette_identity_float (index mod 16) Hi) as [H1 H2].
  destruct (palette_identity_float (index' mod 16) Hi') as [H1' _].
  split; [apply Hget|]. split; [exact H1|]. split; [exact H2|].
  rewrite !Hget. split.
  - intros Heq. injection Heq as Heq. rewrite <- H1, <- H1', Heq. reflexivity.
  - intros ->. reflexivity.
Qed.

Lemma map_palette_identity (l : list Z) :
  Forall (fun x => 0 <= x < 16) l ->
  map (findClosestPaletteIndex (F := PrimFloat.float)) (map palette_color l) = l /\
  map (colorConfidence (F := PrimFloat.float)) (map palette_color l)
  = repeat PrimFloat.one (length l).
Proof.
  induction 1 as [|x l Hx _ [IH1 IH2]]; [split; reflexivity|].
  destruct (palette_identity_float x Hx) as [E1 E2].
  cbn [map length repeat]. rewrite E1, E2, IH1, IH2. split; reflexivity.
Qed.

(** X29: when a region is found and every band shows exactly the palette
    colour of its symbol, [detectFrame] with the doubles of the machine
    reads the 32 symbols back with confidence 1, rebuilds the frame as it
    is after serialization, and succeeds exactly when the checksum of that
    frame verifies. *)
Theorem detectFrame_ideal (ImageData : Type)
    (findAuroraRegion : ImageData -> option AuroraRegion)
    (extractBandColors : ImageData -> AuroraRegion -> list RGBColor)
    (imageData : ImageData) (region : AuroraRegion) (f : AuroraFrame) :
  findAuroraRegion imageData = Some region ->
  extractBandColors imageData region = shown_colors f ->
  let res := detectFrame (F := PrimFloat.float) ImageData findAuroraRegion
               extractBandColors imageData in
  let sent := deserializeFrame (serializeFrame f) in
  det_success res = verifyFrameChecksum sent /\
  det_frame res = (if verifyFrameChecksum sent then Some sent else None) /\
  confidence res = PrimFloat.one /\
  bandIndices res = Some (vis_bandIndices (frameToVisual f)).
Proof.
  intros Hregion Hshown. cbv zeta.
  unfold detectFrame. rewrite Hregion, Hshown, matchBandsToPalette_maps.
  destruct (bands_of_frame f) as (Hlen & Hrange & Hbytes).
  unfold shown_colors. fold palette_color.
  destruct (map_palette_identity _ Hrange) as [-> ->].
  rewrite Hlen, Hbytes.
  assert (Havg : avgConfidence (F := PrimFloat.float) (repeat PrimFloat.one 32)
                 = PrimFloat.one) by (vm_compute; reflexivity).
  rewrite Havg.
  assert (Hlt : flt (F := PrimFloat.float) PrimFloat.one (decimal 15 100) = false)
    by (vm_compute; reflexivity).
  rewrite Hlt. cbn [det_success det_frame confidence bandIndices].
  repeat split.
Qed.

Lemma detectFrame_ideal_witness :
  let f := mkFrame 3 6 0x1234 [1; 2; 3; 4; 5; 6; 7; 8; 9; 10] 164 in
  let res := detectFrame (F := PrimFloat.float) unit
               (fun _ => Some (mkRegion 0 10 0 100))
               (fun _ _ => shown_colors f) tt in
  let sent := deserializeFrame (serializeFrame f) in
  det_success res = verifyFrameChecksum sent /\
  det_frame res = (if verifyFrameChecksum sent then Some sent else None) /\
  confidence res = PrimFloat.one /\
  bandIndices res = Some (vis_bandIndices (frameToVisual f)).
Proof.
  apply (detectFrame_ideal unit
           (fun _ => Some (mkRegion 0 10 0 100))
           (fun _ _ => shown_colors
              (mkFrame 3 6 0x1234 [1; 2; 3; 4; 5; 6; 7; 8; 9; 10] 164))
           tt (mkRegion 0 10 0 100)
           (mkFrame 3 6 0x1234 [1; 2; 3; 4; 5; 6; 7; 8; 9; 10] 164));
    reflexivity.
Defined.
